(** * Inferno filesystem patcher: a shallow embedding and its properties

    The development follows the layout of the sources:
    [bit.hpp], [parse.hpp], [uuid.hpp], [cache.hpp], [analyser.hpp],
    [assembler.hpp] and [patcher.hpp].  Fixed-width integers are values of
    [Z] with the wrap-around written out, file contents are [list byte],
    exceptions are values of [exn], and code that reads a stream, stages
    writes or touches the file system runs in a state-and-exception monad
    over the state it mutates. *)

From Stdlib Require Import ZArith NArith Lia List Ascii String.
From Stdlib.Strings Require Import Byte.
From stdpp Require Import base option list gmap strings pretty.

Local Open Scope Z_scope.

(** ** Exceptions and the state-and-exception monad *)

(** The three standard exception classes the sources throw.  [what] keeps
    the fixed text of the message; operands rendered with [std::to_string]
    are left out of it. *)
Inductive exn : Type :=
| runtime_error (what : string)
| out_of_range (what : string)
| invalid_argument (what : string).

Inductive Res (A : Type) : Type :=
| Ok (a : A)
| Throw (e : exn).
Arguments Ok {A} a.
Arguments Throw {A} e.

(** A computation over a mutable state [S]: the state survives a throw, as
    an object does when the exception leaves the function mutating it. *)
Definition M (S A : Type) : Type := S -> Res A * S.

Definition ret {S A : Type} (a : A) : M S A := fun s => (Ok a, s).

Definition throw {S A : Type} (e : exn) : M S A := fun s => (Throw e, s).

Definition bind {S A B : Type} (m : M S A) (k : A -> M S B) : M S B :=
  fun s => match m s with
           | (Ok a, s') => k a s'
           | (Throw e, s') => (Throw e, s')
           end.

Notation "x <- m ;; k" := (bind m (fun x => k))
  (at level 100, m at next level, right associativity).
Notation "m ;;; k" := (bind m (fun _ => k))
  (at level 100, right associativity).

(** [for (i = 0; i < n; ++i) body(i)], collecting what the body yields. *)
Fixpoint for_loop {S A : Type} (n : nat) (i : Z) (body : Z -> M S A) : M S (list A) :=
  match n with
  | O => ret []
  | S n' => x <- body i ;; xs <- for_loop n' (i + 1) body ;; ret (x :: xs)
  end.

(** ** Fixed-width integers *)

Definition wrap (w : Z) (x : Z) : Z := x mod 2 ^ w.

Definition u8 (x : Z) : Z := wrap 8 x.
Definition u16 (x : Z) : Z := wrap 16 x.
Definition u32 (x : Z) : Z := wrap 32 x.
Definition u64 (x : Z) : Z := wrap 64 x.

(** Reinterpretation of a [w]-bit pattern as a two's complement number. *)
Definition to_signed (w : Z) (x : Z) : Z :=
  let r := wrap w x in if r <? 2 ^ (w - 1) then r else r - 2 ^ w.

Definition s32 (x : Z) : Z := to_signed 32 x.
Definition s64 (x : Z) : Z := to_signed 64 x.

Definition byte_to_Z (b : byte) : Z := Z.of_N (Byte.to_N b).

Definition byte_of_Z (x : Z) : byte :=
  match Byte.of_N (Z.to_N (u8 x)) with
  | Some b => b
  | None => x00
  end.

(** ** bit.hpp

    The templates are instantiated at a width [w]; [T(...)] is [wrap w]. *)

Definition make_bit_mask (w : Z) (start length : Z) : Z :=
  wrap w (Z.shiftl (Z.shiftl 1 length - 1) start).

Definition bit_test (w : Z) (val : Z) (i : Z) : bool :=
  negb (Z.land val (make_bit_mask w i 1) =? 0).

Definition bit_extract (w : Z) (val : Z) (start length : Z) : Z :=
  wrap w (Z.shiftr (Z.land val (make_bit_mask w start length)) start).

Definition sign_extend (w : Z) (val : Z) (i : Z) : Z :=
  if bit_test w val i then Z.lor val (make_bit_mask w i (w - i)) else val.

(** ** parse.hpp: typed reads over a seekable byte stream *)

(** An input file stream: the bytes of the file, the stream position and
    whether the stream is still good ([operator bool]).  Seeking a file
    stream past the end succeeds; a read that comes up short sets
    [failbit].  A file system also refuses positions beyond the largest
    offset it supports, which depends on the host: the model has no such
    bound and follows runs whose seeks stay below it. *)
Record stream : Type := mkStream {
  s_data : list byte;
  s_pos : Z;
  s_good : bool
}.

Definition open_stream (content : list byte) : stream :=
  {| s_data := content; s_pos := 0; s_good := true |}.

Inductive seekdir : Type := ios_beg | ios_cur.

Definition seek_stream (npos : Z) (dir : seekdir) : M stream unit := fun s =>
  if negb (s_good s) then (Throw (runtime_error "seek failed; bad stream"), s)
  else
    let target := match dir with ios_beg => npos | ios_cur => s_pos s + npos end in
    if target <? 0
    then (Throw (out_of_range "seek failed; out of range"),
          {| s_data := s_data s; s_pos := s_pos s; s_good := false |})
    else (Ok tt, {| s_data := s_data s; s_pos := target; s_good := true |}).

(** The bytes a read of [size] bytes at position [p] can get. *)
Definition bytes_at (content : list byte) (p size : Z) : list byte :=
  take (Z.to_nat size) (drop (Z.to_nat p) content).

(** [read_stream]: a short read sets [failbit], so the test [!ret] throws
    before the [gcount] comparison is reached. *)
Definition read_stream (size : Z) : M stream (list byte) := fun s =>
  if negb (s_good s)
  then (Throw (runtime_error "failed to read bytes from stream; bad stream"), s)
  else
    let got := bytes_at (s_data s) (s_pos s) size in
    if Z.of_nat (length got) <? size
    then (Throw (runtime_error "failed to read bytes from stream; bad stream"),
          {| s_data := s_data s; s_pos := s_pos s + Z.of_nat (length got); s_good := false |})
    else (Ok got, {| s_data := s_data s; s_pos := s_pos s + size; s_good := true |}).

Definition tellg : M stream Z := fun s => (Ok (if s_good s then s_pos s else -1), s).

(** Little-endian assembly of an unsigned integer from its bytes. *)
Fixpoint le_to_Z (bs : list byte) : Z :=
  match bs with
  | [] => 0
  | b :: rest => byte_to_Z b + 256 * le_to_Z rest
  end.

Definition read_u8 : M stream Z := bs <- read_stream 1 ;; ret (le_to_Z bs).
Definition read_u16_le : M stream Z := bs <- read_stream 2 ;; ret (le_to_Z bs).
Definition read_u32_le : M stream Z := bs <- read_stream 4 ;; ret (le_to_Z bs).
Definition read_u64_le : M stream Z := bs <- read_stream 8 ;; ret (le_to_Z bs).

(** [read_cstr]: the loop [while (stream)] reads one byte at a time and
    stops at NUL, which is consumed.  [rest] is what is left of the file at
    the stream position; running out of it is the failed one-byte read. *)
Fixpoint read_cstr_loop (rest : list byte) (acc : list byte) : M stream (list byte) :=
  match rest with
  | [] => _ <- read_stream 1 ;; ret acc
  | _ :: rest' =>
      bs <- read_stream 1 ;;
      match bs with
      | [b] => if Byte.eqb b x00 then ret acc else read_cstr_loop rest' (acc ++ [b])
      | _ => ret acc
      end
  end.

Definition read_cstr : M stream string := fun s =>
  if s_good s
  then (str <- read_cstr_loop (drop (Z.to_nat (s_pos s)) (s_data s)) [] ;;
        ret (string_of_list_byte str)) s
  else (Ok EmptyString, s).

(** [read_cstrn]: at most [n] bytes, stopping at a NUL that is put back,
    then a relative seek over the rest of the field. *)
Fixpoint read_cstrn_loop (n : nat) (acc : list byte) : M stream (list byte) :=
  match n with
  | O => ret acc
  | S n' =>
      bs <- read_stream 1 ;;
      match bs with
      | [b] => if Byte.eqb b x00
               then (seek_stream (-1) ios_cur ;;; ret acc)
               else read_cstrn_loop n' (acc ++ [b])
      | _ => ret acc
      end
  end.

Definition read_cstrn (n : Z) : M stream string :=
  str <- (fun s => if s_good s then read_cstrn_loop (Z.to_nat n) [] s else (Ok [], s)) ;;
  seek_stream (n - Z.of_nat (length str)) ios_cur ;;;
  ret (string_of_list_byte str).

(** ** uuid.hpp *)

Definition DyldUUID : Type := list byte.

(** The default-constructed UUID: sixteen zero bytes. *)
Definition DyldUUID_default : DyldUUID := replicate 16 x00.

Definition DyldUUID_read : M stream DyldUUID := read_stream 16.

(** [operator==] of the underlying [std::array]. *)
Fixpoint bytes_eqb (a b : list byte) : bool :=
  match a, b with
  | [], [] => true
  | x :: a', y :: b' => Byte.eqb x y && bytes_eqb a' b'
  | _, _ => false
  end.

Definition DyldUUID_null (u : DyldUUID) : bool := bytes_eqb u DyldUUID_default.

(** [operator bool]. *)
Definition DyldUUID_bool (u : DyldUUID) : bool := negb (DyldUUID_null u).

(** ** cache.hpp *)

Module DyldCacheHeader.

Record Mapping : Type := mkMapping {
  base : Z;
  size : Z;
  file_off : Z
}.

Definition Mapping_read : M stream Mapping :=
  b <- read_u64_le ;;
  sz <- read_u64_le ;;
  fo <- read_u64_le ;;
  seek_stream 8 ios_cur ;;;
  ret {| base := b; size := sz; file_off := fo |}.

Record Image : Type := mkImage {
  image_base : Z;
  path : string
}.

Definition Image_read : M stream Image :=
  b <- read_u64_le ;;
  seek_stream 16 ios_cur ;;;
  path_off <- read_u32_le ;;
  seek_stream 4 ios_cur ;;;
  prev_pos <- tellg ;;
  seek_stream path_off ios_beg ;;;
  p <- read_cstr ;;
  seek_stream prev_pos ios_beg ;;;
  ret {| image_base := b; path := p |}.

Record LocalSymbols : Type := mkLocalSymbols {
  nlist_start_index : Z;
  nlist_count : Z
}.

Definition LocalSymbols_read : M stream LocalSymbols :=
  i <- read_u32_le ;;
  c <- read_u32_le ;;
  ret {| nlist_start_index := i; nlist_count := c |}.

Record LocalSymbolsInfo : Type := mkLocalSymbolsInfo {
  nlist_off : Z;
  strings_off : Z;
  entries : gmap Z LocalSymbols
}.

Definition LocalSymbolsInfo_default : LocalSymbolsInfo :=
  {| nlist_off := 0; strings_off := 0; entries := ∅ |}.

(** [unordered_map::emplace]: an existing key keeps its value. *)
Definition entries_emplace (k : Z) (v : LocalSymbols) (m : gmap Z LocalSymbols)
  : gmap Z LocalSymbols :=
  match m !! k with
  | Some _ => m
  | None => <[k := v]> m
  end.

Definition LocalSymbolsInfo_read (local_info_off : Z) (is_64 : bool) (cache_base : Z)
  : M stream LocalSymbolsInfo :=
  if local_info_off =? 0 then ret LocalSymbolsInfo_default
  else
    seek_stream local_info_off ios_beg ;;;
    n_off <- read_u32_le ;;
    seek_stream 4 ios_cur ;;;
    s_off <- read_u32_le ;;
    seek_stream 4 ios_cur ;;;
    entries_offset <- read_u32_le ;;
    entries_count <- read_u32_le ;;
    seek_stream (local_info_off + entries_offset) ios_beg ;;;
    es <- for_loop (Z.to_nat entries_count) 0 (fun _ =>
            dylib_offset <- (if is_64 then read_u64_le else read_u32_le) ;;
            entry <- LocalSymbols_read ;;
            ret (u64 (cache_base + dylib_offset), entry)) ;;
    ret {| nlist_off := n_off; strings_off := s_off;
           entries := fold_left (fun m kv => entries_emplace (fst kv) (snd kv) m) es ∅ |}.

Record Subcache : Type := mkSubcache {
  vm_off : Z;
  suffix : string
}.

Definition Subcache_read (index : Z) (is_v1 : bool) : M stream Subcache :=
  seek_stream 16 ios_cur ;;;
  v <- read_u64_le ;;
  sfx <- (if is_v1 then ret ("." +:+ pretty (Z.to_N (u32 (index + 1))))
          else read_cstrn 32) ;;
  ret {| vm_off := v; suffix := sfx |}.

Inductive Type_ : Type := Main | Sub | Symbols.

Definition Type_eqb (a b : Type_) : bool :=
  match a, b with
  | Main, Main | Sub, Sub | Symbols, Symbols => true
  | _, _ => false
  end.

Record t : Type := mkHeader {
  mappings : list Mapping;
  images : list Image;
  cache_base : Z;
  local_symbols_off : Z;
  local_symbols : LocalSymbolsInfo;
  subcaches : list Subcache;
  symbol_file_uuid : DyldUUID
}.

(** The constructor [DyldCacheHeader(stream, type, main_cache_base)], in
    two parts.  [parse_head] runs up to the test [type != Type::Main]:
    it yields the offset field read at [0x10] and the header as filled
    in so far, the remaining members at their defaults; the return for
    a subcache right after [cache_base] is its early exit. *)
Definition parse_head (type : Type_) (main_cache_base : Z) : M stream (Z * t) :=
  seek_stream 0x10 ios_beg ;;;
  mapping_off <- read_u32_le ;;
  mapping_count <- read_u32_le ;;
  maps <- (if negb (Type_eqb type Symbols) && negb (mapping_off =? 0)
              && negb (mapping_count =? 0)
           then seek_stream mapping_off ios_beg ;;;
                for_loop (Z.to_nat mapping_count) 0 (fun _ => Mapping_read)
           else ret []) ;;
  seek_stream 0xE0 ios_beg ;;;
  cbase <- read_u64_le ;;
  if Type_eqb type Sub
  then ret (mapping_off,
            {| mappings := maps; images := []; cache_base := cbase;
               local_symbols_off := 0; local_symbols := LocalSymbolsInfo_default;
               subcaches := []; symbol_file_uuid := DyldUUID_default |})
  else
    let symbol_file_support :=
      if Type_eqb type Symbols then true else 0x190 <=? mapping_off in
    uuid <- (if negb (Type_eqb type Symbols) && symbol_file_support
             then seek_stream 0x190 ios_beg ;;; DyldUUID_read
             else ret DyldUUID_default) ;;
    lsyms <- (if Type_eqb type Symbols || negb (DyldUUID_bool uuid)
              then seek_stream 0x48 ios_beg ;;;
                   ls_off <- read_u32_le ;;
                   info <- LocalSymbolsInfo_read ls_off symbol_file_support
                             (if main_cache_base =? 0 then cbase else main_cache_base) ;;
                   ret (ls_off, info)
              else ret (0, LocalSymbolsInfo_default)) ;;
    ret (mapping_off,
         {| mappings := maps; images := []; cache_base := cbase;
            local_symbols_off := fst lsyms; local_symbols := snd lsyms;
            subcaches := []; symbol_file_uuid := uuid |}).

(** The rest of the constructor, for a Main header. *)
Definition parse_main (mapping_off : Z) (h : t) : M stream t :=
  let split := 0x18C <=? mapping_off in
  (if split then seek_stream 0x1C0 ios_beg else seek_stream 0x18 ios_beg) ;;;
  image_off <- read_u32_le ;;
  image_count <- read_u32_le ;;
  if split && (image_count =? 0)
  then throw (runtime_error "main cache expected, but got a subcache")
  else
    imgs <- (if negb (image_off =? 0) && negb (image_count =? 0)
             then seek_stream image_off ios_beg ;;;
                  for_loop (Z.to_nat image_count) 0 (fun _ => Image_read)
             else ret []) ;;
    subs <- (if split
             then seek_stream 0x188 ios_beg ;;;
                  subcache_off <- read_u32_le ;;
                  subcache_count <- read_u32_le ;;
                  if negb (subcache_off =? 0) && negb (subcache_count =? 0)
                  then let subcache_v1 := mapping_off <=? 0x1C8 in
                       seek_stream subcache_off ios_beg ;;;
                       for_loop (Z.to_nat subcache_count) 0
                         (fun i => Subcache_read i subcache_v1)
                  else ret []
             else ret []) ;;
    ret {| mappings := mappings h; images := imgs; cache_base := cache_base h;
           local_symbols_off := local_symbols_off h;
           local_symbols := local_symbols h;
           subcaches := subs; symbol_file_uuid := symbol_file_uuid h |}.

Definition parse (type : Type_) (main_cache_base : Z) : M stream t :=
  r <- parse_head type main_cache_base ;;
  if negb (Type_eqb type Main) then ret (snd r) else parse_main (fst r) (snd r).

(** [vm_addr_to_file_off]: linear scan of the mappings. *)
Fixpoint mappings_lookup (ms : list Mapping) (vm_addr : Z) : Res Z :=
  match ms with
  | [] => Throw (out_of_range "address not found")
  | m :: rest =>
      if (base m <=? vm_addr) && (vm_addr <? u64 (base m + size m))
      then Ok (s64 (u64 (file_off m + (vm_addr - base m))))
      else mappings_lookup rest vm_addr
  end.

Definition vm_addr_to_file_off (h : t) (vm_addr : Z) : Res Z :=
  mappings_lookup (mappings h) vm_addr.

End DyldCacheHeader.

(** ** analyser.hpp: image matchers *)

(** [std::string_view::substr(pos, n)]: throws when [pos] is past the end,
    and is cut short at the end of the string otherwise. *)
Definition substr (str : string) (pos n : nat) : Res string :=
  if (String.length str <? pos)%nat
  then Throw (out_of_range "basic_string_view::substr")
  else Ok (String.substring pos n str).

(** [str.substr(pos, n) == expected]. *)
Definition substr_is (str : string) (pos n : nat) (expected : string) : Res bool :=
  match substr str pos n with
  | Ok sub => Ok (String.eqb sub expected)
  | Throw e => Throw e
  end.

(** Short-circuit [&&] and [||] over operands that may throw. *)
Definition and_then (a b : Res bool) : Res bool :=
  match a with
  | Ok true => b
  | other => other
  end.

Definition or_else (a b : Res bool) : Res bool :=
  match a with
  | Ok false => b
  | other => other
  end.

Definition FRAMEWORK_EXT : string := ".framework/".
Definition FRAMEWORK_EXT_SIZE : nat := String.length FRAMEWORK_EXT.
Definition VERSIONS_A : string := "Versions/A/".
Definition VERSIONS_A_SIZE : nat := String.length VERSIONS_A.

(** [IFrameworkMatch::matches_with_base]; the handler of
    [std::out_of_range] answers [false]. *)
Definition matches_with_base (framework_name base_dir str : string) : bool :=
  let name_size := String.length framework_name in
  let base_dir_size := String.length base_dir in
  let name_off := (base_dir_size + name_size)%nat in
  let name_framework_off := (name_off + FRAMEWORK_EXT_SIZE)%nat in
  let name_versions_a_off := (name_framework_off + VERSIONS_A_SIZE)%nat in
  match
    and_then (substr_is str 0 base_dir_size base_dir)
      (and_then (substr_is str base_dir_size name_size framework_name)
         (and_then (substr_is str name_off FRAMEWORK_EXT_SIZE FRAMEWORK_EXT)
            (or_else (substr_is str name_framework_off name_size framework_name)
               (and_then (substr_is str name_framework_off VERSIONS_A_SIZE VERSIONS_A)
                  (substr_is str name_versions_a_off name_size framework_name)))))
  with
  | Ok b => b
  | Throw _ => false
  end.

(** The three implementations of [IImageMatch]. *)
Inductive IImageMatch : Type :=
| ImageMatch (path : string)
| FrameworkMatch (name : string)
| PrivateFrameworkMatch (name : string).

Definition matches (m : IImageMatch) (str : string) : bool :=
  match m with
  | ImageMatch path => String.eqb path str
  | FrameworkMatch name => matches_with_base name "/System/Library/Frameworks/" str
  | PrivateFrameworkMatch name =>
      matches_with_base name "/System/Library/PrivateFrameworks/" str
  end.

Definition IImageMatch_name (m : IImageMatch) : string :=
  match m with
  | ImageMatch path => path
  | FrameworkMatch name | PrivateFrameworkMatch name => name +:+ ".framework"
  end.

(** ** analyser.hpp: the cache tree *)

Module CacheAnalyser.

Definition Entry : Type := string * DyldCacheHeader.t.

(** [caches] is never empty once constructed: the Main member comes
    first, then the subcaches in header order. *)
Record t : Type := mkAnalyser {
  main_cache : Entry;
  sub_caches : list Entry;
  symbols_cache : option Entry
}.

Definition caches (a : t) : list Entry := main_cache a :: sub_caches a.

(** [find_entry_from_vm_addr]: the first member that resolves the
    address; a member's [std::out_of_range] moves on to the next. *)
Fixpoint find_entry (es : list Entry) (vm_addr : Z) : Res (Z * Entry) :=
  match es with
  | [] => Throw (out_of_range "address not found")
  | entry :: rest =>
      match DyldCacheHeader.vm_addr_to_file_off (snd entry) vm_addr with
      | Ok offset => Ok (offset, entry)
      | Throw (out_of_range _) => find_entry rest vm_addr
      | Throw e => Throw e
      end
  end.

Definition find_entry_from_vm_addr (a : t) (vm_addr : Z) : Res (Z * Entry) :=
  find_entry (caches a) vm_addr.

(** [read_ptr_at(cache_file, image_base, off)]. *)
Definition read_ptr_at (a : t) (image_base : Z) (off : Z) : M stream Z :=
  seek_stream off ios_beg ;;;
  fixup <- read_u64_le ;;
  val <- (if bit_test 64 fixup 63
          then if bit_test 64 fixup 62
               then throw (runtime_error "stumbled upon auth_bind pointer")
               else if bit_extract 64 fixup 32 19 =? 0
                    then throw (runtime_error "stumbled upon bind pointer")
                    else ret (bit_extract 64 fixup 0 32)
          else ret (bit_extract 64 fixup 0 36)) ;;
  ret (if image_base <? val
       then val
       else u64 (val + DyldCacheHeader.cache_base (snd (main_cache a)))).

(** [std::ifstream file(path)]: a file that cannot be opened leaves the
    stream not good. *)
Definition ifstream_open (fs : gmap string (list byte)) (p : string) : stream :=
  match fs !! p with
  | Some content => open_stream content
  | None => {| s_data := []; s_pos := 0; s_good := false |}
  end.

(** [read_ptr_at(image_base, vm_addr)]. *)
Definition read_ptr_at_vm (a : t) (fs : gmap string (list byte)) (image_base vm_addr : Z)
  : Res Z :=
  match find_entry_from_vm_addr a vm_addr with
  | Throw e => Throw e
  | Ok (off, entry) => fst (read_ptr_at a image_base off (ifstream_open fs (fst entry)))
  end.

End CacheAnalyser.

(** ** patcher.hpp: the staging buffer *)

(** [std::map<std::streamoff, std::vector<std::uint8_t>>]: the entries in
    ascending order of their offsets. *)
Definition offset_map : Type := list (Z * list byte).

(** [std::map::emplace]: a key that is already present keeps its value. *)
Fixpoint offset_map_emplace (k : Z) (v : list byte) (m : offset_map) : offset_map :=
  match m with
  | [] => [(k, v)]
  | (k', v') :: rest =>
      if k <? k' then (k, v) :: m
      else if k =? k' then m
      else (k', v') :: offset_map_emplace k v rest
  end.

(** *** [std::filesystem::path] as the key of the staging buffer

    The keys of [write_queue] are [std::filesystem::path] values.  Their
    [operator==] compares two paths element by element, not character by
    character, and their hash is to agree with it.  On a POSIX host, where
    a path has no root name, the elements are the root directory, when the
    path starts with a separator, and the names between the separators,
    followed by one empty element when a separator comes after the last
    name.  So [d//f] and [d/f] are one key, while [d/f/], [d/./f] and
    [/d/f] are three others.  (The hash of libstdc++ agrees with
    [operator==] on every path that has a name; it tells [/] from [//],
    the spellings of the bare root directory, which no file has as its
    path.) *)

Definition is_separator (c : ascii) : bool := Ascii.eqb c "/".

Definition has_root_directory (p : string) : bool :=
  match p with
  | String c _ => is_separator c
  | EmptyString => false
  end.

(** The elements after the root directory.  [cur] is the name being read
    and [after_name] tells whether a name has been closed by a separator
    already. *)
Fixpoint path_names (after_name : bool) (cur : string) (p : string) : list string :=
  match p with
  | EmptyString =>
      match cur with
      | EmptyString => if after_name then [EmptyString] else []
      | _ => [cur]
      end
  | String c rest =>
      if is_separator c
      then match cur with
           | EmptyString => path_names after_name EmptyString rest
           | _ => cur :: path_names true EmptyString rest
           end
      else path_names after_name (cur ++ String c EmptyString) rest
  end.

Definition path_key (p : string) : bool * list string :=
  (has_root_directory p, path_names false EmptyString p).

(** [lhs == rhs] on two paths. *)
Definition path_eqb (p q : string) : bool := bool_decide (path_key p = path_key q).

Arguments path_eqb : simpl never.

(** [write_queue]: the buckets of the [std::unordered_map], one per path,
    each under the spelling with which the path was staged first.  The
    order in which [flush] and [print_changes] iterate over the buckets is
    unspecified; the model keeps them in order of first insertion, and
    what is proved of a commit either does not depend on the order or is
    stated for every order. *)
Record Patcher : Type := mkPatcher {
  write_queue : list (string * offset_map)
}.

(** [explicit Patcher() = default]. *)
Definition Patcher_new : Patcher := {| write_queue := [] |}.

(** [try_emplace(path)] followed by [write_queue[path].emplace(...)]: the
    bucket of a key equal to [path] is used when there is one, and keeps
    the spelling it has. *)
Fixpoint queue_emplace (p : string) (k : Z) (v : list byte)
    (q : list (string * offset_map)) : list (string * offset_map) :=
  match q with
  | [] => [(p, offset_map_emplace k v [])]
  | (p', m) :: rest =>
      if path_eqb p' p then (p', offset_map_emplace k v m) :: rest
      else (p', m) :: queue_emplace p k v rest
  end.

Definition Patcher_write (p : string) (file_off : Z) (bytes : list byte) : M Patcher unit :=
  fun pt => (Ok tt, {| write_queue := queue_emplace p file_off bytes (write_queue pt) |}).

(** ** assembler.hpp *)

Inductive GPReg : Type :=
| R0 | R1 | R2 | R3 | R4 | R5 | R6 | R7
| R8 | R9 | R10 | R11 | R12 | R13 | R14 | R15.

Definition GPReg_val (r : GPReg) : Z :=
  match r with
  | R0 => 0 | R1 => 1 | R2 => 2 | R3 => 3 | R4 => 4 | R5 => 5 | R6 => 6 | R7 => 7
  | R8 => 8 | R9 => 9 | R10 => 10 | R11 => 11 | R12 => 12 | R13 => 13 | R14 => 14
  | R15 => 15
  end.

Inductive MOVZShift : Type := MOVZShift_0 | MOVZShift_16 | MOVZShift_32 | MOVZShift_48.

Definition MOVZShift_val (s : MOVZShift) : Z :=
  match s with
  | MOVZShift_0 => 0 | MOVZShift_16 => 1 | MOVZShift_32 => 2 | MOVZShift_48 => 3
  end.

Inductive ADDShift : Type := ADDShift_0 | ADDShift_12.

Definition ADDShift_val (s : ADDShift) : Z :=
  match s with ADDShift_0 => 0 | ADDShift_12 => 1 end.

Module Assembler.

Definition INST_NUM_BYTES : Z := 4.

Definition u32_to_bytes (value : Z) : list byte :=
  [ byte_of_Z (Z.land value 0xFF);
    byte_of_Z (Z.land (Z.shiftr value 8) 0xFF);
    byte_of_Z (Z.land (Z.shiftr value 16) 0xFF);
    byte_of_Z (Z.land (Z.shiftr value 24) 0xFF) ].

(** Pure code that may throw, run inside a stateful computation. *)
Definition lift {S A : Type} (r : Res A) : M S A :=
  match r with
  | Ok a => ret a
  | Throw e => throw e
  end.

(** [write_inst]: the instruction is an argument, so it has been built
    (or has thrown) before the address is resolved. *)
Definition write_inst (p : string) (header : DyldCacheHeader.t) (target : Z) (inst : Z)
  : M Patcher unit :=
  off <- lift (DyldCacheHeader.vm_addr_to_file_off header target) ;;
  Patcher_write p off (u32_to_bytes inst).

(** [write_inst_incr]: the caller's cursor [target] is passed by
    reference; the model returns its new value. *)
Definition write_inst_incr (p : string) (header : DyldCacheHeader.t) (target : Z) (inst : Z)
  : M Patcher Z :=
  write_inst p header target inst ;;;
  ret (u64 (target + 4)).

Definition NOP_INST : Z := 0xD503201F.
Definition RET_INST : Z := 0xD65F03C0.
Definition MOVZ_INST : Z := 0x52800000.
Definition BL_INST : Z := 0x94000000.
Definition BL_INST_MASK : Z := 0xFC000000.
Definition CBZ_INST : Z := 0x34000000.
Definition CBZ_INST_MASK : Z := 0x7F000000.
Definition BLRA_INST : Z := 0xD63F0800.
Definition BLRA_INST_MASK : Z := 0xFEFFF800.
Definition ADRP_INST : Z := 0x90000000.
Definition ADD_INST : Z := 0x11000000.
Definition BLR_INST : Z := 0xD63F0000.

Definition make_movz (reg : GPReg) (wide : bool) (imm : Z) (shift : MOVZShift) : Res Z :=
  if wide && negb (MOVZShift_val shift =? 0)
  then Throw (invalid_argument "cannot have a shift for wide movz")
  else Ok (Z.lor (Z.lor (Z.lor (Z.lor (u32 (Z.shiftl (Z.b2z wide) 31)) MOVZ_INST)
                           (u32 (Z.shiftl (MOVZShift_val shift) 21)))
                    (u32 (Z.shiftl imm 5)))
             (GPReg_val reg)).

Definition make_nop : Z := NOP_INST.
Definition make_ret : Z := RET_INST.

(** [disas_bl]: the 26-bit immediate, sign-extended in 32 bits, times
    four, added to or subtracted from the instruction address. *)
Definition disas_bl (inst_addr : Z) (inst : Z) : Z :=
  let imm_u32 := sign_extend 32 (bit_extract 32 inst 0 26) 25 in
  let imm_s32 := s32 (s32 imm_u32 * INST_NUM_BYTES) in
  if imm_s32 <? 0
  then u64 (inst_addr - u32 (- imm_s32))
  else u64 (inst_addr + u32 imm_s32).

Definition ADRP_IMM_MAX : Z := make_bit_mask 32 0 20.
Definition ADRP_MAX : Z := Z.shiftl (make_bit_mask 64 0 20) 0xC.

(** [make_adrp]: [off] is a [std::int32_t]. *)
Definition make_adrp (off : Z) (reg : GPReg) : Res Z :=
  if (ADRP_IMM_MAX <? off) || (off <? - ADRP_IMM_MAX)
  then Throw (invalid_argument "invalid imm for adrp")
  else
    let imm_u32 := u32 off in
    Ok (Z.lor (Z.lor (Z.lor ADRP_INST (u32 (Z.shiftl (bit_extract 32 imm_u32 0 2) 29)))
                 (u32 (Z.shiftl (bit_extract 32 imm_u32 2 19) 5)))
          (GPReg_val reg)).

Definition make_add (imm : Z) (wide : bool) (source_reg dest_reg : GPReg) (shift : ADDShift)
  : Res Z :=
  if negb (bit_extract 16 imm 12 4 =? 0)
  then Throw (invalid_argument "invalid imm for add")
  else Ok (Z.lor (Z.lor (Z.lor (Z.lor (Z.lor ADD_INST (u32 (Z.shiftl (Z.b2z wide) 31)))
                                  (u32 (Z.shiftl (ADDShift_val shift) 22)))
                           (u32 (Z.shiftl imm 10)))
                    (u32 (Z.shiftl (GPReg_val source_reg) 5)))
             (GPReg_val dest_reg)).

Definition make_blr (reg : GPReg) : Z :=
  Z.lor BLR_INST (u32 (Z.shiftl (GPReg_val reg) 5)).

Definition write_movz (p : string) (header : DyldCacheHeader.t) (target : Z)
    (reg : GPReg) (wide : bool) (imm : Z) (shift : MOVZShift) : M Patcher unit :=
  inst <- lift (make_movz reg wide imm shift) ;;
  write_inst p header target inst.

Definition write_movz_incr (p : string) (header : DyldCacheHeader.t) (target : Z)
    (reg : GPReg) (wide : bool) (imm : Z) (shift : MOVZShift) : M Patcher Z :=
  inst <- lift (make_movz reg wide imm shift) ;;
  write_inst_incr p header target inst.

Definition write_nop (p : string) (header : DyldCacheHeader.t) (target : Z) : M Patcher unit :=
  write_inst p header target make_nop.

Definition write_nop_incr (p : string) (header : DyldCacheHeader.t) (target : Z)
  : M Patcher Z :=
  write_inst_incr p header target make_nop.

Definition write_ret (p : string) (header : DyldCacheHeader.t) (target : Z) : M Patcher unit :=
  write_inst p header target make_ret.

Definition write_ret_incr (p : string) (header : DyldCacheHeader.t) (target : Z)
  : M Patcher Z :=
  write_inst_incr p header target make_ret.

(** The address of candidate [i] of a scan. *)
Definition scan_addr (start_addr : Z) (rev : bool) (i : Z) : Z :=
  if rev then u64 (start_addr - u64 (i * INST_NUM_BYTES))
  else u64 (start_addr + u64 (i * INST_NUM_BYTES)).

(** The loop of [find_bl]: [n] candidates are left, [i] is the index of
    the next one. *)
Fixpoint find_bl_loop (n : nat) (i : Z) (start_addr target_addr : Z) (rev : bool)
  : M stream Z :=
  match n with
  | O => throw (out_of_range "no bl instruction found")
  | S n' =>
      let inst_addr := scan_addr start_addr rev i in
      inst <- read_u32_le ;;
      (if rev then seek_stream (- (INST_NUM_BYTES * 2)) ios_cur else ret tt) ;;;
      if (Z.land inst BL_INST_MASK =? BL_INST)
         && ((target_addr =? u64 (-1)) || (disas_bl inst_addr inst =? target_addr))
      then ret inst_addr
      else find_bl_loop n' (i + 1) start_addr target_addr rev
  end.

Definition find_bl (header : DyldCacheHeader.t) (start_addr target_addr : Z) (rev : bool)
    (inst_limit : Z) : M stream Z :=
  base <- lift (DyldCacheHeader.vm_addr_to_file_off header start_addr) ;;
  seek_stream base ios_beg ;;;
  find_bl_loop (Z.to_nat inst_limit) 0 start_addr target_addr rev.

(** The default arguments of [find_bl]. *)
Definition find_bl_default_target : Z := u64 (-1).
Definition find_default_inst_limit : Z := 0x400.

Definition find_bl_incr (header : DyldCacheHeader.t) (start_addr target_addr : Z)
    (rev : bool) (inst_limit : Z) : M stream Z :=
  a <- find_bl header start_addr target_addr rev inst_limit ;;
  ret (u64 (a + INST_NUM_BYTES)).

Fixpoint find_cbz_loop (n : nat) (i : Z) (start_addr : Z) (wide rev : bool) : M stream Z :=
  match n with
  | O => throw (out_of_range "no cbz instruction found")
  | S n' =>
      inst <- read_u32_le ;;
      (if rev then seek_stream (- (INST_NUM_BYTES * 2)) ios_cur else ret tt) ;;;
      if (Z.land inst CBZ_INST_MASK =? CBZ_INST) && Bool.eqb (bit_test 32 inst 31) wide
      then ret (scan_addr start_addr rev i)
      else find_cbz_loop n' (i + 1) start_addr wide rev
  end.

Definition find_cbz (header : DyldCacheHeader.t) (start_addr : Z) (wide rev : bool)
    (inst_limit : Z) : M stream Z :=
  base <- lift (DyldCacheHeader.vm_addr_to_file_off header start_addr) ;;
  seek_stream base ios_beg ;;;
  find_cbz_loop (Z.to_nat inst_limit) 0 start_addr wide rev.

Fixpoint find_blra_loop (n : nat) (i : Z) (start_addr : Z) (zero key_b rev : bool)
  : M stream Z :=
  match n with
  | O => throw (out_of_range "no blra instruction found")
  | S n' =>
      let inst_addr := scan_addr start_addr rev i in
      inst <- read_u32_le ;;
      (if rev then seek_stream (- (INST_NUM_BYTES * 2)) ios_cur else ret tt) ;;;
      if (Z.land inst BLRA_INST_MASK =? BLRA_INST)
         && Bool.eqb (bit_test 32 inst 24) zero && Bool.eqb (bit_test 32 inst 10) key_b
      then ret inst_addr
      else find_blra_loop n' (i + 1) start_addr zero key_b rev
  end.

Definition find_blra (header : DyldCacheHeader.t) (start_addr : Z) (zero key_b rev : bool)
    (inst_limit : Z) : M stream Z :=
  base <- lift (DyldCacheHeader.vm_addr_to_file_off header start_addr) ;;
  seek_stream base ios_beg ;;;
  find_blra_loop (Z.to_nat inst_limit) 0 start_addr zero key_b rev.

(** [write_adrp_add_incr]: [address] is the caller's cursor; the model
    returns its value after both instructions. *)
Definition write_adrp_add_incr (p : string) (header : DyldCacheHeader.t)
    (address target : Z) (reg : GPReg) : M Patcher Z :=
  let pc_page := Z.land address 0xFFFFFFFFFFFFF000 in
  let target_page := Z.land target 0xFFFFFFFFFFFFF000 in
  let low12 := u16 (Z.land target 0xFFF) in
  address1 <-
    (if pc_page <? target_page
     then
       let off_pages := u64 (target_page - pc_page) in
       if ADRP_MAX <? off_pages
       then throw (invalid_argument "target too far away")
       else inst <- lift (make_adrp (s32 (Z.shiftr off_pages 0xC)) reg) ;;
            write_inst_incr p header address inst
     else
       let off_pages := u64 (pc_page - target_page) in
       if ADRP_MAX <? off_pages
       then throw (invalid_argument "target too far away")
       else inst <- lift (make_adrp (s32 (u64 (- Z.shiftr off_pages 0xC))) reg) ;;
            write_inst_incr p header address inst) ;;
  inst <- lift (make_add low12 true reg reg ADDShift_0) ;;
  write_inst_incr p header address1 inst.

Definition write_blr (p : string) (header : DyldCacheHeader.t) (address : Z) (reg : GPReg)
  : M Patcher unit :=
  write_inst p header address (make_blr reg).

End Assembler.

(** ** patcher.hpp: commit and revert *)

(** The file system: the content of every file that exists, by path.  A
    file is known by the spelling of its path: the model follows runs in
    which different spellings are different files. *)
Abbreviation filesystem := (gmap string (list byte)).

Definition ORIG_BYTE_FILE_EXT : string := ".InfernoOriginalBytes".

Definition orig_bytes_path (p : string) : string := p +:+ ORIG_BYTE_FILE_EXT.

(** *** Text output and input of the sidecar *)

Definition hex_digit (d : Z) : byte :=
  nth (Z.to_nat d) (list_byte_of_string "0123456789abcdef") x00.

(** Most significant digit first; [fuel] bounds the number of digits. *)
Fixpoint to_hex_go (fuel : nat) (n : Z) (acc : list byte) : list byte :=
  match fuel with
  | O => acc
  | S fuel' =>
      let acc' := hex_digit (n mod 16) :: acc in
      if n / 16 =? 0 then acc' else to_hex_go fuel' (n / 16) acc'
  end.

(** [stream << std::hex << n] for an integer of at most 64 bits: the value
    is printed as the unsigned number with the same bits, in lower case,
    without prefix. *)
Definition to_hex (n : Z) : list byte := to_hex_go 16 (u64 n) [].

Definition hex_value (c : byte) : option Z :=
  let v := byte_to_Z c in
  if (48 <=? v) && (v <=? 57) then Some (v - 48)
  else if (97 <=? v) && (v <=? 102) then Some (v - 87)
  else if (65 <=? v) && (v <=? 70) then Some (v - 55)
  else None.

(** The longest run of hexadecimal digits at the head of [s]: its value on
    top of [acc], and how many digits it has. *)
Fixpoint hex_run (s : list byte) (acc : Z) (count : nat) : Z * nat :=
  match s with
  | [] => (acc, count)
  | c :: rest =>
      match hex_value c with
      | Some d => hex_run rest (16 * acc + d) (S count)
      | None => (acc, count)
      end
  end.

(** [strtoll(s, &end, 16)] on a token without leading white space: an
    optional sign, an optional [0x] prefix, then digits.  [None] when no
    conversion can be made; the value is not yet clamped. *)
Definition strtol16 (s : list byte) : option Z :=
  let '(negative, s1) :=
    match s with
    | c :: rest =>
        if Byte.eqb c "-"%byte then (true, rest)
        else if Byte.eqb c "+"%byte then (false, rest)
        else (false, s)
    | [] => (false, s)
    end in
  let s2 :=
    match s1 with
    | z :: x :: d :: rest =>
        if Byte.eqb z "0"%byte && (Byte.eqb x "x"%byte || Byte.eqb x "X"%byte)
           && bool_decide (is_Some (hex_value d))
        then d :: rest
        else s1
    | _ => s1
    end in
  let '(v, count) := hex_run s2 0 O in
  match count with
  | O => None
  | S _ => Some (if negative then - v else v)
  end.

(** [std::stoll(str, nullptr, 16)]. *)
Definition stoll16 (s : list byte) : Res Z :=
  match strtol16 s with
  | None => Throw (invalid_argument "stoll")
  | Some v =>
      if (v <? - 2 ^ 63) || (2 ^ 63 - 1 <? v) then Throw (out_of_range "stoll") else Ok v
  end.

(** [std::stoi(str, nullptr, 16)]. *)
Definition stoi16 (s : list byte) : Res Z :=
  match strtol16 s with
  | None => Throw (invalid_argument "stoi")
  | Some v =>
      if (v <? - 2 ^ 31) || (2 ^ 31 - 1 <? v) then Throw (out_of_range "stoi") else Ok v
  end.

(** [std::isspace] in the C locale. *)
Definition isspace (c : byte) : bool :=
  let v := byte_to_Z c in (v =? 32) || ((9 <=? v) && (v <=? 13)).

(** The words [stream >> line] extracts until the stream is exhausted;
    [cur] is the word being read. *)
Fixpoint tokens_go (s : list byte) (cur : list byte) : list (list byte) :=
  match s with
  | [] => match cur with [] => [] | _ => [cur] end
  | c :: rest =>
      if isspace c
      then match cur with
           | [] => tokens_go rest []
           | _ => cur :: tokens_go rest []
           end
      else tokens_go rest (cur ++ [c])
  end.

Definition tokens (s : list byte) : list (list byte) := tokens_go s [].

(** *** Writing through a file stream *)

(** The content of a file after [bytes] are written at offset [off]: bytes
    in the way are replaced, a file that is too short grows, and a gap
    past the old end reads as zeros.  A write of no bytes changes
    nothing, wherever the cursor is. *)
Definition write_at (content : list byte) (off : nat) (bytes : list byte) : list byte :=
  match bytes with
  | [] => content
  | _ => take off content ++ replicate (off - length content) x00 ++ bytes
           ++ drop (off + length bytes) content
  end.

(** [file.seekp(off)] followed by the test [!file]. *)
Definition seekp (off : Z) (what : string) : M stream unit := fun s =>
  if s_good s && (0 <=? off)
  then (Ok tt, {| s_data := s_data s; s_pos := off; s_good := true |})
  else (Throw (runtime_error what), {| s_data := s_data s; s_pos := s_pos s; s_good := false |}).

(** [file.write(bytes, n)] followed by the test [!file]. *)
Definition stream_write (bytes : list byte) (what : string) : M stream unit := fun s =>
  if s_good s
  then (Ok tt, {| s_data := write_at (s_data s) (Z.to_nat (s_pos s)) bytes;
                  s_pos := s_pos s + Z.of_nat (length bytes);
                  s_good := true |})
  else (Throw (runtime_error what), s).

(** *** Patcher::flush *)

(** The two streams open while one path is committed: the cache file and
    the text written to the sidecar so far. *)
Definition flush_state : Type := stream * list byte.

Definition on_cache_file {A : Type} (m : M stream A) : M flush_state A := fun st =>
  let '(r, cache_file) := m (fst st) in (r, (cache_file, snd st)).

Definition diff_put (text : list byte) : M flush_state unit := fun st =>
  (Ok tt, (fst st, snd st ++ text)).

Definition sidecar_line (off : Z) (orig_bytes : list byte) : list byte :=
  to_hex off ++ list_byte_of_string ": "
    ++ concat (map (fun b => to_hex (byte_to_Z b) ++ list_byte_of_string " ") orig_bytes)
    ++ ["010"%byte].

(** The body of the inner loop of [flush]. *)
Definition flush_entry (entry : Z * list byte) : M flush_state unit :=
  on_cache_file (seek_stream (fst entry) ios_beg) ;;;
  orig_bytes <- on_cache_file (read_stream (Z.of_nat (length (snd entry)))) ;;
  on_cache_file (seekp (fst entry) "failed to seek cache file") ;;;
  on_cache_file (stream_write (snd entry) "failed to write cache file bytes") ;;;
  diff_put (sidecar_line (fst entry) orig_bytes).

Fixpoint flush_entries (es : offset_map) : M flush_state unit :=
  match es with
  | [] => ret tt
  | entry :: rest => flush_entry entry ;;; flush_entries rest
  end.

(** One round of the outer loop: the path is opened for reading and
    writing, its sidecar is created or truncated, and both are flushed to
    the file system when the streams go out of scope, also on a throw. *)
Definition flush_path (p : string) (es : offset_map) : M filesystem unit := fun fs =>
  match fs !! p with
  | None => (Throw (runtime_error "failed to open cache file"), fs)
  | Some content =>
      let '(r, (cache_file, diff_file)) := flush_entries es (open_stream content, []) in
      (r, <[orig_bytes_path p := diff_file]> (<[p := s_data cache_file]> fs))
  end.

Fixpoint flush_queue (q : list (string * offset_map)) : M filesystem unit :=
  match q with
  | [] => ret tt
  | (p, es) :: rest => flush_path p es ;;; flush_queue rest
  end.

(** [Patcher::flush] is a [const] member: the queue is left as it is. *)
Definition Patcher_flush (pt : Patcher) : M filesystem unit := flush_queue (write_queue pt).

(** *** Patcher::revert *)

Definition ends_with_colon (line : list byte) : bool :=
  match last line with
  | Some c => Byte.eqb c ":"%byte
  | None => false
  end.

(** The loop [while (orig_bytes_file >> line)] over the words of the
    sidecar; the state is the file being restored. *)
Fixpoint revert_tokens (lines : list (list byte)) : M stream unit :=
  match lines with
  | [] => ret tt
  | line :: rest =>
      if ends_with_colon line
      then off <- Assembler.lift (stoll16 (removelast line)) ;;
           seekp off "failed to seek to offset (malformed revert file?)" ;;;
           revert_tokens rest
      else value <- Assembler.lift (stoi16 line) ;;
           let byte := Z.land value 0xFF in
           if negb (byte =? value)
           then throw (runtime_error "malformed revert file; byte too large")
           else stream_write [byte_of_Z byte]
                  "failed to restore a byte (malformed revert file?)" ;;;
                revert_tokens rest
  end.

Definition Patcher_revert (p : string) : M filesystem unit := fun fs =>
  match fs !! orig_bytes_path p with
  | None => (Ok tt, fs)
  | Some text =>
      match fs !! p with
      | None => (Throw (runtime_error "failed to open file"), fs)
      | Some content =>
          let '(r, file) := revert_tokens (tokens text) (open_stream content) in
          match r with
          | Ok _ => (Ok tt, delete (orig_bytes_path p) (<[p := s_data file]> fs))
          | Throw e => (Throw e, <[p := s_data file]> fs)
          end
      end
  end.

(** A patch session as the driver runs it: a fresh [Patcher], the writes
    staged one after the other, then [flush]. *)
Definition stage (writes : list (string * Z * list byte)) : Patcher :=
  fold_left (fun pt w => snd (Patcher_write (fst (fst w)) (snd (fst w)) (snd w) pt))
    writes Patcher_new.

(** ** What a commit and a revert compute

    The pure content of the two loops, used to state their properties:
    the file after the entries are written in order, the bytes each entry
    displaced, the text that records them, and the replay of a record. *)

Fixpoint patched (content : list byte) (es : offset_map) : list byte :=
  match es with
  | [] => content
  | (off, bytes) :: rest => patched (write_at content (Z.to_nat off) bytes) rest
  end.

Fixpoint displaced (content : list byte) (es : offset_map) : list (Z * list byte) :=
  match es with
  | [] => []
  | (off, bytes) :: rest =>
      (off, bytes_at content off (Z.of_nat (length bytes)))
        :: displaced (write_at content (Z.to_nat off) bytes) rest
  end.

Definition sidecar_text (records : list (Z * list byte)) : list byte :=
  concat (map (fun r => sidecar_line (fst r) (snd r)) records).

Fixpoint replay (records : list (Z * list byte)) (content : list byte) : list byte :=
  match records with
  | [] => content
  | (off, bytes) :: rest => replay rest (write_at content (Z.to_nat off) bytes)
  end.

(** An entry lies inside a file of [len] bytes. *)
Definition entry_in_bounds (len : Z) (e : Z * list byte) : bool :=
  (0 <=? fst e) && (fst e + Z.of_nat (length (snd e)) <=? len).

(** Every entry ends at or before the offset at which each later one
    starts. *)
Fixpoint entries_disjoint (es : offset_map) : bool :=
  match es with
  | [] => true
  | e :: rest =>
      forallb (fun e' => fst e + Z.of_nat (length (snd e)) <=? fst e') rest
      && entries_disjoint rest
  end.

(** The entries staged for a path, if any: those of the bucket whose key
    is equal to it as a path. *)
Fixpoint queue_lookup (q : list (string * offset_map)) (p : string) : option offset_map :=
  match q with
  | [] => None
  | (p', m) :: rest => if path_eqb p' p then Some m else queue_lookup rest p
  end.

(** The paths with staged writes, in queue order. *)
Definition staged_paths (q : list (string * offset_map)) : list string := map fst q.

(** A queue can be committed to [fs] and reverted from it: every staged
    file exists and is shorter than [2^63] bytes, its entries lie inside it
    and do not reach into one another, and no staged path is, as a path,
    the sidecar of a staged file. *)
Definition committable (fs : filesystem) (q : list (string * offset_map)) : bool :=
  forallb (fun pe =>
             match fs !! fst pe with
             | Some content =>
                 (Z.of_nat (length content) <? 2 ^ 63)
                 && forallb (entry_in_bounds (Z.of_nat (length content))) (snd pe)
                 && entries_disjoint (snd pe)
             | None => false
             end) q
  && forallb (fun p =>
                forallb (fun p' => negb (path_eqb p' (orig_bytes_path p)))
                  (staged_paths q))
       (staged_paths q).

(** ** A scan for the first BL

    [find_bl] as its description has it when no target is given: the
    address of the first candidate that matches the BL mask and value, read
    the same way, with no look at the branch target.  Candidate [i] is the
    instruction [4 * i] bytes after the start address in a forward scan and
    [4 * i] bytes before it in a reverse scan, as a 64-bit address. *)
Fixpoint find_first_bl_loop (n : nat) (i : Z) (start_addr : Z) (rev : bool) : M stream Z :=
  match n with
  | O => throw (out_of_range "no bl instruction found")
  | S n' =>
      inst <- read_u32_le ;;
      (if rev then seek_stream (- 8) ios_cur else ret tt) ;;;
      if Z.land inst 0xFC000000 =? 0x94000000
      then ret ((if rev then start_addr - 4 * i else start_addr + 4 * i) mod 2 ^ 64)
      else find_first_bl_loop n' (i + 1) start_addr rev
  end.

Definition find_first_bl (header : DyldCacheHeader.t) (start_addr : Z) (rev : bool)
    (inst_limit : Z) : M stream Z :=
  base <- Assembler.lift (DyldCacheHeader.vm_addr_to_file_off header start_addr) ;;
  seek_stream base ios_beg ;;;
  find_first_bl_loop (Z.to_nat inst_limit) 0 start_addr rev.

(** A header that maps the first 256 bytes of its file at address 0, and a
    file with [BL +8] at offset 3 and [BL -8] at offset 7. *)
Definition example_bl_header : DyldCacheHeader.t :=
  {| DyldCacheHeader.mappings :=
       [ {| DyldCacheHeader.base := 0; DyldCacheHeader.size := 0x100;
            DyldCacheHeader.file_off := 0 |} ];
     DyldCacheHeader.images := [];
     DyldCacheHeader.cache_base := 0;
     DyldCacheHeader.local_symbols_off := 0;
     DyldCacheHeader.local_symbols := DyldCacheHeader.LocalSymbolsInfo_default;
     DyldCacheHeader.subcaches := [];
     DyldCacheHeader.symbol_file_uuid := DyldUUID_default |}.

Definition example_bl_stream : stream :=
  open_stream ([x00; x00; x00] ++ [x02; x00; x00; x94] ++ [xfe; xff; xff; x97]
               ++ replicate 8 x00).

(** A file of three instructions: [NOP], [NOP], [BL +8]. *)
Definition example_nop_bl_stream : stream :=
  open_stream ([x1f; x20; x03; xd5] ++ [x1f; x20; x03; xd5] ++ [x02; x00; x00; x94]).

(** ** ARM64 semantics of ADRP and ADD (immediate)

    The reading of the two instructions that [write_adrp_add_incr] emits,
    after the A64 instruction set: [field inst lo len] is
    [inst<lo+len-1:lo>]. *)

Definition field (inst lo len : Z) : Z := (inst / 2 ^ lo) mod 2 ^ len.

(** [SignExtend] of a [len]-bit value. *)
Definition sign_extend_field (len v : Z) : Z :=
  if v <? 2 ^ (len - 1) then v else v - 2 ^ len.

(** ADRP: [op = 1], bits 28..24 are [10000]. *)
Definition is_adrp (inst : Z) : bool :=
  (field inst 31 1 =? 1) && (field inst 24 5 =? 16).

Definition adrp_rd (inst : Z) : Z := field inst 0 5.

(** The signed page offset [immhi:immlo]. *)
Definition adrp_page_offset (inst : Z) : Z :=
  sign_extend_field 21 (field inst 5 19 * 4 + field inst 29 2).

(** The value ADRP at address [pc] leaves in [Xd]. *)
Definition adrp_exec (inst pc : Z) : Z :=
  u64 (Z.land pc 0xFFFFFFFFFFFFF000 + adrp_page_offset inst * 4096).

(** ADD (immediate), 64-bit: [sf = 1], [op = 0], [S = 0], bits 28..23 are
    [100010]. *)
Definition is_add_imm64 (inst : Z) : bool := field inst 23 9 =? 290.

Definition add_imm_rd (inst : Z) : Z := field inst 0 5.
Definition add_imm_rn (inst : Z) : Z := field inst 5 5.

(** The value ADD (immediate) leaves in [Xd] when [Xn] holds [xn]. *)
Definition add_imm_exec (inst xn : Z) : Z :=
  let imm12 := field inst 10 12 in
  u64 (xn + (if field inst 22 1 =? 1 then imm12 * 4096 else imm12)).

(** The 4 KiB page of an address. *)
Definition page_of (addr : Z) : Z := Z.land addr 0xFFFFFFFFFFFFF000.

(** ** The fields of a cache header, read on their own

    What the description of the layout calls the UUID field, the image
    directory and the subcache directory: each is read from a fixed
    offset of the file, whatever was read before. *)

Definition u32_at (content : list byte) (off : Z) : Z := le_to_Z (bytes_at content off 4).

Definition read_uuid_at (off : Z) : M stream DyldUUID :=
  seek_stream off ios_beg ;;; DyldUUID_read.

Definition read_image_dir (dir_off : Z) : M stream (list DyldCacheHeader.Image) :=
  seek_stream dir_off ios_beg ;;;
  image_off <- read_u32_le ;;
  image_count <- read_u32_le ;;
  if negb (image_off =? 0) && negb (image_count =? 0)
  then seek_stream image_off ios_beg ;;;
       for_loop (Z.to_nat image_count) 0 (fun _ => DyldCacheHeader.Image_read)
  else ret [].

(** An inline suffix is the NUL-padded 32-byte field after the entry's
    [vm_off]; a legacy suffix is ["."] and the 1-based index. *)
Definition read_subcache_entry (inline : bool) (index : Z) : M stream DyldCacheHeader.Subcache :=
  seek_stream 16 ios_cur ;;;
  v <- read_u64_le ;;
  sfx <- (if inline then read_cstrn 32
          else ret ("." +:+ pretty (Z.to_N (u32 (index + 1))))) ;;
  ret {| DyldCacheHeader.vm_off := v; DyldCacheHeader.suffix := sfx |}.

Definition read_subcache_dir (dir_off : Z) (inline : bool)
  : M stream (list DyldCacheHeader.Subcache) :=
  seek_stream dir_off ios_beg ;;;
  subcache_off <- read_u32_le ;;
  subcache_count <- read_u32_le ;;
  if negb (subcache_off =? 0) && negb (subcache_count =? 0)
  then seek_stream subcache_off ios_beg ;;;
       for_loop (Z.to_nat subcache_count) 0 (read_subcache_entry inline)
  else ret [].

(** [put off bytes content]: [content] with [bytes] laid over it at [off],
    to build sample files field by field. *)
Definition put (off : nat) (bytes content : list byte) : list byte :=
  write_at content off bytes.

(** A synthetic Main header in the split layout: offset field [0x1D0], no
    mappings, [cache_base = 0x180000000], a symbol-file UUID of sixteen
    [11] bytes at [0x190], one image at [0x1C0] whose path, at [0x240],
    is [/usr/lib/dyld], and one subcache at [0x188] with the inline suffix
    [.01]. *)
Definition split_header_bytes : list byte :=
  put 0x10 [xd0; x01; x00; x00]
  (put 0xE0 [x00; x00; x00; x80; x01; x00; x00; x00]
  (put 0x190 (replicate 16 x11)
  (put 0x1C0 [x00; x02; x00; x00; x01; x00; x00; x00]
  (put 0x188 [x60; x02; x00; x00; x01; x00; x00; x00]
  (put 0x200 [x00; x00; x00; x80; x01; x00; x00; x00]
  (put 0x218 [x40; x02; x00; x00]
  (put 0x240 (list_byte_of_string "/usr/lib/dyld")
  (put 0x270 [x00; x00; x00; x40]
  (put 0x278 (list_byte_of_string ".01")
  (replicate 0x2A0 x00)))))))))).

(** A synthetic Main header in the legacy layout: offset field [0x180], one
    image declared at [0x18], and bytes at [0x188], [0x190] and [0x1C0]
    that a parser of the split layout would take for a subcache
    directory, a UUID and an image directory. *)
Definition legacy_header_bytes : list byte :=
  put 0x10 [x80; x01; x00; x00]
  (put 0xE0 [x00; x00; x00; x80; x01; x00; x00; x00]
  (put 0x18 [x00; x02; x00; x00; x01; x00; x00; x00]
  (put 0x190 (replicate 16 x11)
  (put 0x1C0 [x00; x02; x00; x00; x07; x00; x00; x00]
  (put 0x188 [x60; x02; x00; x00; x01; x00; x00; x00]
  (put 0x200 [x00; x00; x00; x80; x01; x00; x00; x00]
  (put 0x218 [x40; x02; x00; x00]
  (put 0x240 (list_byte_of_string "/usr/lib/dyld")
  (replicate 0x2A0 x00))))))))).

(** The legacy header again, declaring no image at all. *)
Definition legacy_header_no_images : list byte :=
  put 0x10 [x80; x01; x00; x00]
  (put 0xE0 [x00; x00; x00; x80; x01; x00; x00; x00]
  (replicate 0x2A0 x00)).

(** The split header, declaring no image at all. *)
Definition split_header_no_images : list byte :=
  put 0x10 [xd0; x01; x00; x00]
  (put 0xE0 [x00; x00; x00; x80; x01; x00; x00; x00]
  (replicate 0x2A0 x00)).

(** A computation that, run on a good stream, returns normally only with
    the stream still good and the file as it was. *)
Definition stable {A : Type} (m : M stream A) : Prop :=
  forall s a s', s_good s = true -> m s = (Ok a, s') ->
                 s_data s' = s_data s /\ s_good s' = true.

(** A header that maps 256 MiB of its file at address [0x180000000]. *)
Definition example_text_header : DyldCacheHeader.t :=
  {| DyldCacheHeader.mappings :=
       [ {| DyldCacheHeader.base := 0x180000000; DyldCacheHeader.size := 0x10000000;
            DyldCacheHeader.file_off := 0 |} ];
     DyldCacheHeader.images := [];
     DyldCacheHeader.cache_base := 0x180000000;
     DyldCacheHeader.local_symbols_off := 0;
     DyldCacheHeader.local_symbols := DyldCacheHeader.LocalSymbolsInfo_default;
     DyldCacheHeader.subcaches := [];
     DyldCacheHeader.symbol_file_uuid := DyldUUID_default |}.

(** A header that maps 256 bytes of its file at address [2^32]. *)
Definition example_high_header : DyldCacheHeader.t :=
  {| DyldCacheHeader.mappings :=
       [ {| DyldCacheHeader.base := 0x100000000; DyldCacheHeader.size := 0x100;
            DyldCacheHeader.file_off := 0 |} ];
     DyldCacheHeader.images := [];
     DyldCacheHeader.cache_base := 0;
     DyldCacheHeader.local_symbols_off := 0;
     DyldCacheHeader.local_symbols := DyldCacheHeader.LocalSymbolsInfo_default;
     DyldCacheHeader.subcaches := [];
     DyldCacheHeader.symbol_file_uuid := DyldUUID_default |}.

(** ** Predicates used in the proofs *)

(** The characters [to_hex] prints. *)
Definition hex_char (c : byte) : Prop := exists d, 0 <= d < 16 /\ c = hex_digit d.

(** [hex_run] reads a numeral: the digits [ds] denote [n]. *)
Definition numeral (ds : list byte) (n : Z) : Prop :=
  ds <> [] /\ Forall hex_char ds /\
  forall rest a k, hex_run (ds ++ rest) a k =
                   hex_run rest (a * 16 ^ Z.of_nat (length ds) + n) (k + length ds)%nat.

(** The words of a sidecar line: the offset with its colon, then one word
    per byte. *)
Definition byte_words (bs : list byte) : list (list byte) :=
  map (fun b => to_hex (byte_to_Z b)) bs.

Definition record_words (r : Z * list byte) : list (list byte) :=
  (to_hex (fst r) ++ [":"%byte]) :: byte_words (snd r).

(** Every record lies inside a file of [len] bytes. *)
Definition records_in_bounds (len : Z) (records : list (Z * list byte)) : Prop :=
  Forall (fun r => 0 <= fst r /\ fst r + Z.of_nat (length (snd r)) <= len) records.

(** What [committable] asks of one path of the queue, and of the paths
    together. *)
Definition path_ok (fs : filesystem) (pe : string * offset_map) : Prop :=
  exists c, fs !! fst pe = Some c /\ Z.of_nat (length c) < 2 ^ 63 /\
            forallb (entry_in_bounds (Z.of_nat (length c))) (snd pe) = true /\
            entries_disjoint (snd pe) = true.

Definition no_sidecar_staged (q : list (string * offset_map)) : Prop :=
  forall p p', p ∈ staged_paths q -> p' ∈ staged_paths q -> p' <> orig_bytes_path p.

(** ** Sample inputs *)

(** A file of the eight bytes [00] to [07]. *)
Definition file_0_to_7 : list byte := [x00; x01; x02; x03; x04; x05; x06; x07].

(** The authenticated rebase [0x8001000000001234], stored little-endian at
    offset 8 of a file, and an analyser whose Main cache has
    [cache_base = 0x180000000]. *)
Definition fixup_stream : stream :=
  open_stream (replicate 8 x00 ++ [x34; x12; x00; x00; x00; x00; x01; x80]).

Definition fixup_analyser : CacheAnalyser.t :=
  {| CacheAnalyser.main_cache :=
       ("dyld_shared_cache_arm64e"%string,
        {| DyldCacheHeader.mappings := [];
           DyldCacheHeader.images := [];
           DyldCacheHeader.cache_base := 0x180000000;
           DyldCacheHeader.local_symbols_off := 0;
           DyldCacheHeader.local_symbols := DyldCacheHeader.LocalSymbolsInfo_default;
           DyldCacheHeader.subcaches := [];
           DyldCacheHeader.symbol_file_uuid := DyldUUID_default |});
     CacheAnalyser.sub_caches := [];
     CacheAnalyser.symbols_cache := None |}.

(** The plain bind [0x8000000000001234] and an authenticated bind, each at
    offset 0 of a file. *)
Definition plain_bind_stream : stream :=
  open_stream [x34; x12; x00; x00; x00; x00; x00; x80].

Definition auth_bind_stream : stream :=
  open_stream [x34; x12; x00; x00; x00; x00; x01; xc0].

(** What the parser makes of [split_header_bytes]. *)
Definition split_header_parsed : DyldCacheHeader.t :=
  {| DyldCacheHeader.mappings := [];
     DyldCacheHeader.images :=
       [ {| DyldCacheHeader.image_base := 0x180000000;
            DyldCacheHeader.path := "/usr/lib/dyld" |} ];
     DyldCacheHeader.cache_base := 0x180000000;
     DyldCacheHeader.local_symbols_off := 0;
     DyldCacheHeader.local_symbols := DyldCacheHeader.LocalSymbolsInfo_default;
     DyldCacheHeader.subcaches :=
       [ {| DyldCacheHeader.vm_off := 0x40000000; DyldCacheHeader.suffix := ".01" |} ];
     DyldCacheHeader.symbol_file_uuid := replicate 16 x11 |}.

(** ** More of the sources

    The parts of the sources that the first part leaves out, and the
    notions used to state their properties. *)

(** *** patcher.hpp: looking into the staging buffer *)

(** [std::map::find] on an [offset_map]. *)
Fixpoint offset_map_find (k : Z) (m : offset_map) : option (list byte) :=
  match m with
  | [] => None
  | (k', v) :: rest => if k =? k' then Some v else offset_map_find k rest
  end.

(** The bytes staged for a path and offset, if any. *)
Definition staged_bytes (pt : Patcher) (p : string) (file_off : Z) : option (list byte) :=
  match queue_lookup (write_queue pt) p with
  | Some m => offset_map_find file_off m
  | None => None
  end.

(** Staging a sequence of writes on top of a buffer that already holds
    some ([stage] is the case of the empty buffer). *)
Definition stage_from (pt : Patcher) (writes : list (string * Z * list byte)) : Patcher :=
  fold_left (fun pt w => snd (Patcher_write (fst (fst w)) (snd (fst w)) (snd w) pt))
    writes pt.

(** The bytes of the first write of a sequence that goes to a path and
    offset, the paths compared as paths. *)
Fixpoint first_write (writes : list (string * Z * list byte)) (p : string) (file_off : Z)
  : option (list byte) :=
  match writes with
  | [] => None
  | (p', off', bytes) :: rest =>
      if path_eqb p' p && (off' =? file_off) then Some bytes
      else first_write rest p file_off
  end.

(** [has_relative_path]: the path has an element after its root
    directory.  The paths without one are the empty path and the spellings
    [/], [//], ... of the bare root directory, which libstdc++ hashes apart
    although they compare equal. *)
Definition has_relative_path (p : string) : bool :=
  match path_names false EmptyString p with
  | [] => false
  | _ => true
  end.

(** The keys of an [offset_map] ascend strictly, as the iteration of a
    [std::map] does. *)
Fixpoint keys_above (k : Z) (m : offset_map) : bool :=
  match m with
  | [] => true
  | (k', _) :: rest => (k <? k') && keys_above k' rest
  end.

Definition keys_ascending (m : offset_map) : bool :=
  match m with
  | [] => true
  | (k, _) :: rest => keys_above k rest
  end.

(** Every path of a queue has its offsets in ascending order. *)
Definition queue_ascending (q : list (string * offset_map)) : bool :=
  forallb (fun pe => keys_ascending (snd pe)) q.

(** *** cache.hpp: address resolution *)

(** The test of [vm_addr_to_file_off] on one mapping. *)
Definition mapping_contains (m : DyldCacheHeader.Mapping) (vm_addr : Z) : bool :=
  (DyldCacheHeader.base m <=? vm_addr)
  && (vm_addr <? u64 (DyldCacheHeader.base m + DyldCacheHeader.size m)).

(** A mapping whose fields are 64-bit values, whose address range does not
    wrap around [2^64] and whose file range stays below [2^63]. *)
Definition mapping_regular (m : DyldCacheHeader.Mapping) : bool :=
  (0 <=? DyldCacheHeader.base m) && (0 <=? DyldCacheHeader.size m)
  && (0 <=? DyldCacheHeader.file_off m)
  && (DyldCacheHeader.base m + DyldCacheHeader.size m <? 2 ^ 64)
  && (DyldCacheHeader.file_off m + DyldCacheHeader.size m <? 2 ^ 63).

(** *** analyser.hpp: per-image view *)

Module Image.

(** [CacheAnalyser::Image]: the path and header are those of the cache
    member that holds the image. *)
Record t : Type := mkImage {
  path : string;
  header : DyldCacheHeader.t;
  file_off : Z;
  vm_addr : Z;
  symbols : gmap string Z;
  objc_classes : gmap string Z
}.

(** [resolve_sym(variants...)]: the template needs at least one name;
    the error names the first one. *)
Fixpoint resolve_variants (syms : gmap string Z) (variants : list string) : option Z :=
  match variants with
  | [] => None
  | v :: rest =>
      match syms !! v with
      | Some a => Some a
      | None => resolve_variants syms rest
      end
  end.

Definition resolve_sym (img : t) (variant : string) (variants : list string) : Res Z :=
  match resolve_variants (symbols img) (variant :: variants) with
  | Some a => Ok a
  | None => Throw (out_of_range "symbol not found")
  end.

Definition resolve_objc_class (img : t) (name : string) : Res Z :=
  match objc_classes img !! name with
  | Some a => Ok a
  | None => Throw (out_of_range "Objective-C class not found")
  end.

End Image.

(** *** analyser.hpp: the constructor of the cache tree *)

(** [std::ifstream file(path)] followed by the construction of a header
    from it; [what] is the error for a file that cannot be opened. *)
Definition parse_file (fs : filesystem) (p : string) (type : DyldCacheHeader.Type_)
    (main_cache_base : Z) (what : string) : Res DyldCacheHeader.t :=
  match fs !! p with
  | None => Throw (runtime_error what)
  | Some content => fst (DyldCacheHeader.parse type main_cache_base (open_stream content))
  end.

(** The loop over [main_header.subcaches]. *)
Fixpoint open_subcaches (fs : filesystem) (base_path : string) (main_cache_base : Z)
    (subs : list DyldCacheHeader.Subcache) : Res (list CacheAnalyser.Entry) :=
  match subs with
  | [] => Ok []
  | subcache :: rest =>
      let sub_path := base_path +:+ DyldCacheHeader.suffix subcache in
      match parse_file fs sub_path DyldCacheHeader.Sub main_cache_base
              "failed to open subcache" with
      | Throw e => Throw e
      | Ok h =>
          match open_subcaches fs base_path main_cache_base rest with
          | Throw e => Throw e
          | Ok entries => Ok ((sub_path, h) :: entries)
          end
      end
  end.

(** [CacheAnalyser(base_path)]. *)
Definition CacheAnalyser_new (fs : filesystem) (base_path : string) : Res CacheAnalyser.t :=
  match parse_file fs base_path DyldCacheHeader.Main 0 "failed to open main cache file" with
  | Throw e => Throw e
  | Ok main_header =>
      match open_subcaches fs base_path (DyldCacheHeader.cache_base main_header)
              (DyldCacheHeader.subcaches main_header) with
      | Throw e => Throw e
      | Ok subs =>
          if DyldUUID_bool (DyldCacheHeader.symbol_file_uuid main_header)
          then
            let sub_path := base_path +:+ ".symbols" in
            match parse_file fs sub_path DyldCacheHeader.Symbols
                    (DyldCacheHeader.cache_base main_header)
                    "failed to open symbols subcache" with
            | Throw e => Throw e
            | Ok h =>
                Ok {| CacheAnalyser.main_cache := (base_path, main_header);
                      CacheAnalyser.sub_caches := subs;
                      CacheAnalyser.symbols_cache := Some (sub_path, h) |}
            end
          else
            Ok {| CacheAnalyser.main_cache := (base_path, main_header);
                  CacheAnalyser.sub_caches := subs;
                  CacheAnalyser.symbols_cache := None |}
      end
  end.

(** The path a subcache of [base_path] is opened at. *)
Definition subcache_path (base_path : string) (subcache : DyldCacheHeader.Subcache) : string :=
  base_path +:+ DyldCacheHeader.suffix subcache.

(** A file system with a split main cache [cache], its subcache
    [cache.01] and its symbols file [cache.symbols]. *)
Definition example_cache_tree : filesystem :=
  {[ "cache"%string := split_header_bytes;
     "cache.01"%string := split_header_bytes;
     "cache.symbols"%string := split_header_bytes ]}.

(** *** ARM64 readings of the other instructions the assembler handles

    After the A64 instruction set, in the style of the readings of ADRP
    and ADD above. *)

(** MOVZ: bits 30..23 are [10 100101]; [sf] selects the 64-bit form,
    [hw] the halfword the 16-bit immediate goes to.  The 32-bit form has
    two halfwords only: a word with [sf = 0] and [hw] of 2 or 3 is
    undefined, not a MOVZ. *)
Definition movz_sf (inst : Z) : Z := field inst 31 1.
Definition movz_hw (inst : Z) : Z := field inst 21 2.
Definition is_movz (inst : Z) : bool :=
  (field inst 23 8 =? 0xA5) && ((movz_sf inst =? 1) || (movz_hw inst <? 2)).
Definition movz_imm16 (inst : Z) : Z := field inst 5 16.
Definition movz_rd (inst : Z) : Z := field inst 0 5.

(** The value MOVZ leaves in [Rd]. *)
Definition movz_exec (inst : Z) : Z := movz_imm16 inst * 2 ^ (16 * movz_hw inst).

(** ADD (immediate) of either width: bits 30..23 are [0 0 100010]. *)
Definition is_add_imm (inst : Z) : bool := field inst 23 8 =? 0x22.
Definition add_imm_sf (inst : Z) : Z := field inst 31 1.
Definition add_imm_sh (inst : Z) : Z := field inst 22 1.
Definition add_imm12 (inst : Z) : Z := field inst 10 12.

(** BL: the target is the address of the instruction plus four times
    the signed 26-bit immediate. *)
Definition bl_target (pc inst : Z) : Z :=
  u64 (pc + 4 * sign_extend_field 26 (field inst 0 26)).

(** BLR: [1101011 0001 11111 000000 Rn 00000]. *)
Definition is_blr (inst : Z) : bool :=
  (field inst 10 22 =? 0x358FC0) && (field inst 0 5 =? 0).
Definition blr_rn (inst : Z) : Z := field inst 5 5.

(** RET (to X30) is a single word. *)
Definition is_ret (inst : Z) : bool := inst =? 0xD65F03C0.

(** *** assembler.hpp: the three scans, side by side *)

(** Which instruction a scan looks for, with the arguments that select
    it. *)
Inductive scanner : Type :=
| Scan_cbz (wide : bool)
| Scan_bl (target_addr : Z)
| Scan_blra (zero key_b : bool).

Definition scan (sc : scanner) (header : DyldCacheHeader.t) (start_addr : Z) (rev : bool)
    (inst_limit : Z) : M stream Z :=
  match sc with
  | Scan_cbz wide => Assembler.find_cbz header start_addr wide rev inst_limit
  | Scan_bl target_addr => Assembler.find_bl header start_addr target_addr rev inst_limit
  | Scan_blra zero key_b => Assembler.find_blra header start_addr zero key_b rev inst_limit
  end.

(** The test each loop makes on the candidate read at [inst_addr]. *)
Definition scan_test (sc : scanner) (inst_addr inst : Z) : bool :=
  match sc with
  | Scan_cbz wide =>
      (Z.land inst Assembler.CBZ_INST_MASK =? Assembler.CBZ_INST)
      && Bool.eqb (bit_test 32 inst 31) wide
  | Scan_bl target_addr =>
      (Z.land inst Assembler.BL_INST_MASK =? Assembler.BL_INST)
      && ((target_addr =? u64 (-1)) || (Assembler.disas_bl inst_addr inst =? target_addr))
  | Scan_blra zero key_b =>
      (Z.land inst Assembler.BLRA_INST_MASK =? Assembler.BLRA_INST)
      && Bool.eqb (bit_test 32 inst 24) zero && Bool.eqb (bit_test 32 inst 10) key_b
  end.

(** The text of the [std::out_of_range] each scan ends with. *)
Definition scan_miss (sc : scanner) : string :=
  match sc with
  | Scan_cbz _ => "no cbz instruction found"
  | Scan_bl _ => "no bl instruction found"
  | Scan_blra _ _ => "no blra instruction found"
  end.

(** The common shape of the three loops. *)
Fixpoint scan_loop (sc : scanner) (n : nat) (i : Z) (start_addr : Z) (rev : bool)
  : M stream Z :=
  match n with
  | O => throw (out_of_range (scan_miss sc))
  | S n' =>
      inst <- read_u32_le ;;
      (if rev then seek_stream (- (Assembler.INST_NUM_BYTES * 2)) ios_cur else ret tt) ;;;
      if scan_test sc (Assembler.scan_addr start_addr rev i) inst
      then ret (Assembler.scan_addr start_addr rev i)
      else scan_loop sc n' (i + 1) start_addr rev
  end.

(** The address of candidate [j] of a scan that starts at [start_addr]:
    [4 * j] bytes further in a forward scan, [4 * j] bytes back in a reverse
    scan, as a 64-bit address. *)
Definition candidate_addr (start_addr : Z) (rev : bool) (j : Z) : Z :=
  (if rev then start_addr - 4 * j else start_addr + 4 * j) mod 2 ^ 64.

(** The file offset of candidate [j] of a scan that starts at [base]. *)
Definition candidate_off (base : Z) (rev : bool) (j : Z) : Z :=
  if rev then base - 4 * j else base + 4 * j.

(** The candidates [0 .. i] of a scan can all be read from a file of
    [len] bytes, and in a reverse scan the stream can step back after
    each of them. *)
Definition scan_window (base : Z) (rev : bool) (i : Z) (len : Z) : bool :=
  if rev then (4 * i + 4 <=? base) && (base + 4 <=? len)
  else (0 <=? base) && (base + 4 * (i + 1) <=? len).

(** A file of sixteen bytes: a NOP, [CBZ W0], [CBZ X1] and a RET. *)
Definition example_scan_stream : stream :=
  open_stream ([x1f; x20; x03; xd5] ++ [x40; x00; x00; x34] ++ [x41; x00; x00; xb4]
               ++ [xc0; x03; x5f; xd6]).

(** *** parse.hpp: C strings *)

(** The bytes before the first NUL. *)
Fixpoint until_nul (bs : list byte) : list byte :=
  match bs with
  | [] => []
  | b :: rest => if Byte.eqb b x00 then [] else b :: until_nul rest
  end.

Definition has_nul (bs : list byte) : bool := existsb (fun b => Byte.eqb b x00) bs.

(** [std::string::empty]. *)
Definition string_empty (s : string) : bool :=
  match s with
  | EmptyString => true
  | String _ _ => false
  end.

(** *** main.cpp: the command line *)

Module PatcherCLI.

(** The flag bits and the path; [default] is the state the constructor
    starts from. *)
Record t : Type := mkCLI {
  help : bool;
  revert_only : bool;
  dry_run : bool;
  unredact_logs : bool;
  cache_path : string
}.

Definition default : t :=
  {| help := false; revert_only := false; dry_run := false; unredact_logs := false;
     cache_path := "" |}.

(** [std::filesystem::path::empty]. *)
Definition path_empty (p : string) : bool := string_empty p.

Definition check_mutually_exclusive (cli : t) : Res unit :=
  if revert_only cli && dry_run cli
  then Throw (runtime_error "--revert and --dry-run are mutually exclusive")
  else Ok tt.

(** The loop over [argv[1 .. argc - 1]] and the test after it. *)
Fixpoint parse_params (params : list string) (cli : t) : Res t :=
  match params with
  | [] =>
      if path_empty (cache_path cli)
      then Throw (runtime_error "missing DYLD_CACHE_PATH parameter")
      else Ok cli
  | param :: rest =>
      if String.eqb param "-h" || String.eqb param "--help"
      then Ok {| help := true; revert_only := revert_only cli; dry_run := dry_run cli;
                 unredact_logs := unredact_logs cli; cache_path := cache_path cli |}
      else if negb (revert_only cli)
              && (String.eqb param "-r" || String.eqb param "--revert")
      then
        let cli' := {| help := help cli; revert_only := true; dry_run := dry_run cli;
                       unredact_logs := unredact_logs cli;
                       cache_path := cache_path cli |} in
        match check_mutually_exclusive cli' with
        | Throw e => Throw e
        | Ok _ => parse_params rest cli'
        end
      else if negb (dry_run cli)
              && (String.eqb param "-n" || String.eqb param "--dry-run")
      then
        let cli' := {| help := help cli; revert_only := revert_only cli; dry_run := true;
                       unredact_logs := unredact_logs cli;
                       cache_path := cache_path cli |} in
        match check_mutually_exclusive cli' with
        | Throw e => Throw e
        | Ok _ => parse_params rest cli'
        end
      else if negb (unredact_logs cli) && String.eqb param "--unredact-logs"
      then parse_params rest
             {| help := help cli; revert_only := revert_only cli; dry_run := dry_run cli;
                unredact_logs := true; cache_path := cache_path cli |}
      else if path_empty (cache_path cli)
      then parse_params rest
             {| help := help cli; revert_only := revert_only cli; dry_run := dry_run cli;
                unredact_logs := unredact_logs cli; cache_path := param |}
      else Throw (runtime_error "unexpected combination of parameters")
  end.

(** [PatcherCLI(argc, argv)], with [argv] the whole argument vector:
    [argc] is its length and [argv[0]] the name of the program. *)
Definition new (argv : list string) : Res t :=
  let argc := Z.of_nat (length argv) in
  if argc <? 2 then Throw (runtime_error "inadequate parameters (expected at least 1)")
  else if 5 <? argc then Throw (runtime_error "superfluous parameters (expected at most 3)")
  else parse_params (tl argv) default.

End PatcherCLI.

(** *** main.cpp: the patches *)

(** [SpringBoardFoundationPatches::apply]: the method is made to return
    true. *)
Definition SpringBoardFoundationPatches_apply (image : Image.t) : M Patcher unit :=
  should_use_xpc_service_for_rendering <-
    Assembler.lift
      (Image.resolve_sym image "+[SBFCARenderer shouldUseXPCServiceForRendering]" []) ;;
  cursor <- Assembler.write_movz_incr (Image.path image) (Image.header image)
              should_use_xpc_service_for_rendering R0 false 1 MOVZShift_0 ;;
  Assembler.write_ret (Image.path image) (Image.header image) cursor.

(** [LibSystemTracePatches::apply]. *)
Definition LibSystemTracePatches_apply (image : Image.t) : M Patcher unit :=
  address <- Assembler.lift (Image.resolve_sym image "__os_trace_is_development_build" []) ;;
  cursor <- Assembler.write_movz_incr (Image.path image) (Image.header image)
              address R0 false 1 MOVZShift_0 ;;
  Assembler.write_ret (Image.path image) (Image.header image) cursor.

(** [NeutrinoCorePatches::apply]: the arguments are evaluated in the order
    of the three declarations, then the five instructions are staged at
    the cursor. *)
Definition NeutrinoCorePatches_apply (objc_image image : Image.t) : M Patcher unit :=
  objc_alloc_init <- Assembler.lift (Image.resolve_sym objc_image "_objc_alloc_init" []) ;;
  nu_sw_renderer <- Assembler.lift (Image.resolve_objc_class image "NUSoftwareRenderer") ;;
  address <- Assembler.lift
               (Image.resolve_sym image
                  "-[NUDevice_iOS _newRendererWithCIContextOptions:error:]"
                  ["-[NUDevice_iOS _newRendererWithOptions:error:]"]) ;;
  address1 <- Assembler.write_adrp_add_incr (Image.path image) (Image.header image)
                address nu_sw_renderer R0 ;;
  address2 <- Assembler.write_adrp_add_incr (Image.path image) (Image.header image)
                address1 objc_alloc_init R1 ;;
  Assembler.write_blr (Image.path image) (Image.header image) address2 R1.

(** *** main.cpp: the revert loop of [run] *)

(** [for (const auto &cache : analyser.caches) Patcher::revert(cache.first)]. *)
Fixpoint revert_all (paths : list string) : M filesystem unit :=
  match paths with
  | [] => ret tt
  | p :: rest => Patcher_revert p ;;; revert_all rest
  end.

(** An image in a cache file [cache] that maps 256 bytes at address 0,
    with the method patched by [SpringBoardFoundationPatches] at [0x40]. *)
Definition example_sbf_image : Image.t :=
  {| Image.path := "cache";
     Image.header := example_bl_header;
     Image.file_off := 0;
     Image.vm_addr := 0;
     Image.symbols := {[ "+[SBFCARenderer shouldUseXPCServiceForRendering]"%string := 0x40 ]};
     Image.objc_classes := ∅ |}.

(** The two images [NeutrinoCorePatches] works on, in a cache file that
    maps 256 MiB at [0x180000000]. *)
Definition example_objc_image : Image.t :=
  {| Image.path := "cache";
     Image.header := example_text_header;
     Image.file_off := 0x1000;
     Image.vm_addr := 0x180001000;
     Image.symbols := {[ "_objc_alloc_init"%string := 0x180001234 ]};
     Image.objc_classes := ∅ |}.

Definition example_neutrino_image : Image.t :=
  {| Image.path := "cache";
     Image.header := example_text_header;
     Image.file_off := 0x200000;
     Image.vm_addr := 0x180200000;
     Image.symbols :=
       {[ "-[NUDevice_iOS _newRendererWithOptions:error:]"%string := 0x180200100 ]};
     Image.objc_classes := {[ "NUSoftwareRenderer"%string := 0x180345678 ]} |}.

(** A file system on the way from the committed state of a queue back to
    the original [fs]: what is neither a staged file nor the sidecar of
    one is as in [fs], and every staged file is either still patched,
    with its sidecar, or restored, without it. *)
Definition reverting (fs : filesystem) (q : list (string * offset_map)) (fsk : filesystem)
  : Prop :=
  (forall k, (forall p, p ∈ staged_paths q -> k <> p /\ k <> orig_bytes_path p) ->
             fsk !! k = fs !! k) /\
  (forall p es c, (p, es) ∈ q -> fs !! p = Some c ->
     (fsk !! p = Some (patched c es) /\
      fsk !! orig_bytes_path p = Some (sidecar_text (displaced c es))) \/
     (fsk !! p = Some c /\ fsk !! orig_bytes_path p = None)).

(** *** macho.hpp *)

(** Pure code that may throw, in sequence. *)
Definition rbind {A B : Type} (r : Res A) (k : A -> Res B) : Res B :=
  match r with
  | Ok a => k a
  | Throw e => Throw e
  end.

Notation "x <~ r ;; k" := (rbind r (fun x => k))
  (at level 100, r at next level, right associativity).

(** A loop that carries a value from round to round. *)
Fixpoint loop_fold {S A : Type} (n : nat) (body : A -> M S A) (a : A) : M S A :=
  match n with
  | O => ret a
  | S n' => a' <- body a ;; loop_fold n' body a'
  end.

(** [emplace] on a map keyed by strings: a key that is present keeps its
    value.  The value is built from the stream before the call in the
    models below, as an implementation that constructs the node first
    does. *)
Definition map_emplace {V : Type} (k : string) (v : V) (m : gmap string V) : gmap string V :=
  match m !! k with
  | Some _ => m
  | None => <[k := v]> m
  end.

Definition MH_MAGIC_64 : Z := 0xFEEDFACF.
Definition LC_SYMTAB : Z := 0x2.
Definition LC_SEGMENT_64 : Z := 0x19.

Module LoadCommandHeader.

Record t : Type := mkLoadCommandHeader {
  cmd : Z;
  cmdsize : Z
}.

Definition read : M stream t :=
  c <- read_u32_le ;;
  sz <- read_u32_le ;;
  ret {| cmd := c; cmdsize := sz |}.

(** [sizeof(cmd)]. *)
Definition size : Z := 8.

End LoadCommandHeader.

Module MachSection.

Record t : Type := mkSection {
  vm_addr : Z;
  vm_size : Z;
  file_off : Z;
  align : Z;
  reloc_off : Z;
  reloc_count : Z;
  flags : Z
}.

Definition read : M stream t :=
  va <- read_u64_le ;;
  vs <- read_u64_le ;;
  fo <- read_u32_le ;;
  al <- read_u32_le ;;
  ro <- read_u32_le ;;
  rc <- read_u32_le ;;
  fl <- read_u32_le ;;
  seek_stream 12 ios_cur ;;;
  ret {| vm_addr := va; vm_size := vs; file_off := fo; align := al; reloc_off := ro;
         reloc_count := rc; flags := fl |}.

End MachSection.

Module Segment.

Record t : Type := mkSegment {
  vm_addr : Z;
  vm_size : Z;
  file_off : Z;
  file_size : Z;
  max_prot : Z;
  init_prot : Z;
  flags : Z;
  sections : gmap string MachSection.t
}.

Definition read : M stream t :=
  va <- read_u64_le ;;
  vs <- read_u64_le ;;
  fo <- read_u64_le ;;
  fsz <- read_u64_le ;;
  mp <- read_u32_le ;;
  ip <- read_u32_le ;;
  sect_count <- read_u32_le ;;
  fl <- read_u32_le ;;
  sects <- loop_fold (Z.to_nat sect_count)
             (fun sections =>
                sect_name <- read_cstrn 16 ;;
                seek_stream 16 ios_cur ;;;
                sect <- MachSection.read ;;
                ret (map_emplace sect_name sect sections)) ∅ ;;
  ret {| vm_addr := va; vm_size := vs; file_off := fo; file_size := fsz; max_prot := mp;
         init_prot := ip; flags := fl; sections := sects |}.

Definition find_section (seg : t) (name : string) : Res MachSection.t :=
  match sections seg !! name with
  | Some sect => Ok sect
  | None => Throw (out_of_range "cannot find section")
  end.

End Segment.

Module SymTabCommand.

Record t : Type := mkSymTabCommand {
  sym_off : Z;
  sym_count : Z;
  str_off : Z;
  str_size : Z
}.

Definition read : M stream t :=
  so <- read_u32_le ;;
  sc <- read_u32_le ;;
  sto <- read_u32_le ;;
  sts <- read_u32_le ;;
  ret {| sym_off := so; sym_count := sc; str_off := sto; str_size := sts |}.

End SymTabCommand.

Module MachHeader.

Record t : Type := mkMachHeader {
  magic : Z;
  cpu_type : Z;
  segments : gmap string Segment.t;
  symtab : option SymTabCommand.t
}.

(** One round of the loop over the load commands; the state is the
    segments and the symbol table command found so far. *)
Definition load_command (st : gmap string Segment.t * option SymTabCommand.t)
  : M stream (gmap string Segment.t * option SymTabCommand.t) :=
  cmd <- LoadCommandHeader.read ;;
  pos <- tellg ;;
  let cmd_end_pos :=
    pos + s64 (u64 (LoadCommandHeader.cmdsize cmd - LoadCommandHeader.size)) in
  st' <- (if LoadCommandHeader.cmd cmd =? LC_SYMTAB
          then sc <- SymTabCommand.read ;; ret (fst st, Some sc)
          else if LoadCommandHeader.cmd cmd =? LC_SEGMENT_64
          then seg_name <- read_cstrn 16 ;;
               seg <- Segment.read ;;
               ret (map_emplace seg_name seg (fst st), snd st)
          else ret st) ;;
  seek_stream cmd_end_pos ios_beg ;;;
  ret st'.

(** [MachHeader(stream)]: both members of the initialiser list are read
    before the magic is looked at. *)
Definition read : M stream t :=
  mg <- read_u32_le ;;
  ct <- read_u32_le ;;
  if negb (mg =? MH_MAGIC_64) then throw (runtime_error "invalid magic")
  else
    seek_stream 8 ios_cur ;;;
    ncmds <- read_u32_le ;;
    seek_stream 12 ios_cur ;;;
    st <- loop_fold (Z.to_nat ncmds) load_command (∅, None) ;;
    ret {| magic := mg; cpu_type := ct; segments := fst st; symtab := snd st |}.

Definition find_segment (h : t) (name : string) : Res Segment.t :=
  match segments h !! name with
  | Some seg => Ok seg
  | None => Throw (out_of_range "cannot find segment")
  end.

Definition find_section (h : t) (seg_name sect_name : string) : Res MachSection.t :=
  seg <~ find_segment h seg_name ;;
  Segment.find_section seg sect_name.

End MachHeader.

(** *** nlist.hpp *)

Module NList.

Record t : Type := mkNList {
  strx : Z;
  type_flags : Z;
  sect : Z;
  desc : Z;
  value : Z
}.

Definition read : M stream t :=
  sx <- read_u32_le ;;
  tf <- read_u8 ;;
  se <- read_u8 ;;
  de <- read_u16_le ;;
  va <- read_u64_le ;;
  ret {| strx := sx; type_flags := tf; sect := se; desc := de; value := va |}.

(** [Type::Section]. *)
Definition Section : Z := 0x7.

(** [type_flags.bits.type]: the bit-fields are laid out from the least
    significant bit on, so [type] is the three bits after [ext]. *)
Definition type (n : t) : Z := bit_extract 8 (type_flags n) 1 3.

(** [sizeof(NList)]. *)
Definition size : Z := 16.

End NList.

(** *** analyser.hpp: find_image *)

(** The two streams open during the loop over the symbol table: the file
    with the entries and the file with the strings. *)
Definition on_symtab_file {A : Type} (m : M stream A) : M (stream * stream) A := fun st =>
  let '(r, symtab_file) := m (fst st) in (r, (symtab_file, snd st)).

Definition on_str_file {A : Type} (m : M stream A) : M (stream * stream) A := fun st =>
  let '(r, str_file) := m (snd st) in (r, (fst st, str_file)).

(** [name.empty() || name == "<redacted>"]. *)
Definition unnamed (name : string) : bool :=
  string_empty name || String.eqb name "<redacted>".



(** One round of the loop over the symbol table of the image. *)
Definition symtab_round (str_off : Z) (symbols : gmap string Z)
  : M (stream * stream) (gmap string Z) :=
  sym_entry <- on_symtab_file NList.read ;;
  if NList.strx sym_entry =? 0 then ret symbols
  else if negb (NList.type sym_entry =? NList.Section) then ret symbols
  else
    on_str_file (seek_stream (str_off + NList.strx sym_entry) ios_beg) ;;;
    name <- on_str_file read_cstr ;;
    if unnamed name then ret symbols
    else ret (map_emplace name (NList.value sym_entry) symbols).

(** One round of the loop over the local symbols of the image. *)
Definition local_symbol_round (symbols_off strings_off : Z) (symbols : gmap string Z)
  : M stream (gmap string Z) :=
  nlist <- NList.read ;;
  if NList.strx nlist =? 0 then ret symbols
  else if negb (NList.type nlist =? NList.Section) then ret symbols
  else
    prev_pos <- tellg ;;
    seek_stream (symbols_off + strings_off + NList.strx nlist) ios_beg ;;;
    name <- read_cstr ;;
    seek_stream prev_pos ios_beg ;;;
    if unnamed name then ret symbols
    else ret (map_emplace name (NList.value nlist) symbols).

(** The loop over the class list: [n] rounds are left, [cur_off] is the
    offset of the next pointer. *)
Fixpoint objc_class_loop (a : CacheAnalyser.t) (fs : filesystem) (image_base : Z)
    (class_list_header : DyldCacheHeader.t) (n : nat) (cur_off : Z)
    (objc_classes : gmap string Z) : M stream (gmap string Z) :=
  match n with
  | O => ret objc_classes
  | S n' =>
      class_addr <- CacheAnalyser.read_ptr_at a image_base cur_off ;;
      class_ro_off <- Assembler.lift
        (DyldCacheHeader.vm_addr_to_file_off class_list_header (u64 (class_addr + 0x20))) ;;
      class_ro_addr <- CacheAnalyser.read_ptr_at a image_base class_ro_off ;;
      class_name_off <- Assembler.lift
        (DyldCacheHeader.vm_addr_to_file_off class_list_header (u64 (class_ro_addr + 0x18))) ;;
      class_name_addr <- CacheAnalyser.read_ptr_at a image_base class_name_off ;;
      found <- Assembler.lift (CacheAnalyser.find_entry_from_vm_addr a class_name_addr) ;;
      class_name <- Assembler.lift
        (fst ((seek_stream (fst found) ios_beg ;;; read_cstr)
                (CacheAnalyser.ifstream_open fs (fst (snd found))))) ;;
      objc_class_loop a fs image_base class_list_header n' (cur_off + 8)
        (map_emplace class_name class_addr objc_classes)
  end.

(** The symbols of the image's own symbol table. *)
Definition find_image_symtab (a : CacheAnalyser.t) (fs : filesystem)
    (image_header : MachHeader.t) (linkedit_base : Z) : Res (gmap string Z) :=
  match MachHeader.symtab image_header with
  | None => Ok ∅
  | Some symtab =>
      symtab_found <~ CacheAnalyser.find_entry_from_vm_addr a
                        (u64 (linkedit_base + SymTabCommand.sym_off symtab)) ;;
      str_found <~ CacheAnalyser.find_entry_from_vm_addr a
                     (u64 (linkedit_base + SymTabCommand.str_off symtab)) ;;
      fst ((on_symtab_file (seek_stream (fst symtab_found) ios_beg) ;;;
            loop_fold (Z.to_nat (SymTabCommand.sym_count symtab))
              (symtab_round (fst str_found)) ∅)
             (CacheAnalyser.ifstream_open fs (fst (snd symtab_found)),
              CacheAnalyser.ifstream_open fs (fst (snd str_found))))
  end.

(** The local symbols of the image, added to [symbols]. *)
Definition find_image_local_symbols (a : CacheAnalyser.t) (fs : filesystem)
    (image_base : Z) (symbols : gmap string Z) : Res (gmap string Z) :=
  let symbols_cache :=
    match CacheAnalyser.symbols_cache a with
    | Some entry => entry
    | None => CacheAnalyser.main_cache a
    end in
  let symbols_off := DyldCacheHeader.local_symbols_off (snd symbols_cache) in
  let local_symbols := DyldCacheHeader.local_symbols (snd symbols_cache) in
  match DyldCacheHeader.entries local_symbols !! image_base with
  | None => Ok symbols
  | Some symbols_entry =>
      fst ((seek_stream
              (symbols_off + DyldCacheHeader.nlist_off local_symbols
               + DyldCacheHeader.nlist_start_index symbols_entry * NList.size) ios_beg ;;;
            loop_fold (Z.to_nat (DyldCacheHeader.nlist_count symbols_entry))
              (local_symbol_round symbols_off (DyldCacheHeader.strings_off local_symbols))
              symbols)
             (CacheAnalyser.ifstream_open fs (fst symbols_cache)))
  end.

(** The Objective-C classes of the image. *)
Definition find_image_objc_classes (a : CacheAnalyser.t) (fs : filesystem)
    (image_header : MachHeader.t) (image_base : Z) : Res (gmap string Z) :=
  class_list <~ MachHeader.find_section image_header "__DATA_CONST" "__objc_classlist" ;;
  found <~ CacheAnalyser.find_entry_from_vm_addr a (MachSection.vm_addr class_list) ;;
  let class_list_off := fst found in
  let end_off := class_list_off + s64 (MachSection.vm_size class_list) in
  fst (objc_class_loop a fs image_base (snd (snd found))
         (Z.to_nat ((end_off - class_list_off + 7) / 8)) class_list_off ∅
         (CacheAnalyser.ifstream_open fs (fst (snd found)))).

(** [CacheAnalyser::find_image]. *)
Definition find_image (a : CacheAnalyser.t) (fs : filesystem) (image_match : IImageMatch)
    (with_objc_classes : bool) : Res Image.t :=
  let main_cache := CacheAnalyser.main_cache a in
  match List.find (fun image => matches image_match (DyldCacheHeader.path image))
          (DyldCacheHeader.images (snd main_cache)) with
  | None => Throw (out_of_range "image not found")
  | Some image =>
      let image_base := DyldCacheHeader.image_base image in
      found <~ CacheAnalyser.find_entry_from_vm_addr a image_base ;;
      let image_off := fst found in
      let image_cache_entry := snd found in
      image_header <~ fst ((seek_stream image_off ios_beg ;;; MachHeader.read)
                             (CacheAnalyser.ifstream_open fs (fst image_cache_entry))) ;;
      linkedit <~ MachHeader.find_segment image_header "__LINKEDIT" ;;
      let linkedit_base := u64 (Segment.vm_addr linkedit - Segment.file_off linkedit) in
      symbols <~ find_image_symtab a fs image_header linkedit_base ;;
      symbols <~ find_image_local_symbols a fs image_base symbols ;;
      objc_classes <~ (if with_objc_classes
                       then find_image_objc_classes a fs image_header image_base
                       else Ok ∅) ;;
      Ok {| Image.path := fst image_cache_entry;
            Image.header := snd image_cache_entry;
            Image.file_off := image_off;
            Image.vm_addr := image_base;
            Image.symbols := symbols;
            Image.objc_classes := objc_classes |}
  end.

(** A cache of one file, [cache], that maps its 512 bytes at address
    [0x1000] and holds one image, [/usr/lib/libobjc.A.dylib], at its
    start: a Mach-O header with two load commands, the segment
    [__LINKEDIT] (addresses from [0x1100], file offsets from [0x100]) and a
    symbol table of two entries at file offset [0x100] with its strings at
    [0x140].  The first entry names [_objc_alloc_init] at [0x1234], the
    second is redacted. *)
Definition example_image_file : list byte :=
  put 0x00 [xcf; xfa; xed; xfe; x0c; x00; x00; x01]
  (put 0x10 [x02; x00; x00; x00]
  (put 0x20 [x19; x00; x00; x00; x48; x00; x00; x00]
  (put 0x28 (list_byte_of_string "__LINKEDIT")
  (put 0x38 [x00; x11; x00; x00; x00; x00; x00; x00]
  (put 0x40 [x00; x01; x00; x00; x00; x00; x00; x00]
  (put 0x48 [x00; x01; x00; x00; x00; x00; x00; x00]
  (put 0x50 [x00; x01; x00; x00; x00; x00; x00; x00]
  (put 0x68 [x02; x00; x00; x00; x18; x00; x00; x00]
  (put 0x70 [x00; x01; x00; x00; x02; x00; x00; x00; x40; x01; x00; x00; x20; x00; x00; x00]
  (put 0x100 [x01; x00; x00; x00; x0f; x01; x00; x00; x34; x12; x00; x00; x00; x00; x00; x00]
  (put 0x110 [x12; x00; x00; x00; x0e; x01; x00; x00; x78; x56; x00; x00; x00; x00; x00; x00]
  (put 0x141 (list_byte_of_string "_objc_alloc_init")
  (put 0x152 (list_byte_of_string "<redacted>")
  (replicate 0x200 x00)))))))))))))).

Definition example_image_fs : filesystem := {[ "cache"%string := example_image_file ]}.

Definition example_image_analyser : CacheAnalyser.t :=
  {| CacheAnalyser.main_cache :=
       ("cache"%string,
        {| DyldCacheHeader.mappings :=
             [ {| DyldCacheHeader.base := 0x1000; DyldCacheHeader.size := 0x200;
                  DyldCacheHeader.file_off := 0 |} ];
           DyldCacheHeader.images :=
             [ {| DyldCacheHeader.image_base := 0x1000;
                  DyldCacheHeader.path := "/usr/lib/libobjc.A.dylib" |} ];
           DyldCacheHeader.cache_base := 0x1000;
           DyldCacheHeader.local_symbols_off := 0;
           DyldCacheHeader.local_symbols := DyldCacheHeader.LocalSymbolsInfo_default;
           DyldCacheHeader.subcaches := [];
           DyldCacheHeader.symbol_file_uuid := DyldUUID_default |});
     CacheAnalyser.sub_caches := [];
     CacheAnalyser.symbols_cache := None |}.

(** What [find_image] makes of the example. *)
Definition example_found_image : Image.t :=
  {| Image.path := "cache";
     Image.header := snd (CacheAnalyser.main_cache example_image_analyser);
     Image.file_off := 0;
     Image.vm_addr := 0x1000;
     Image.symbols := {[ "_objc_alloc_init"%string := 0x1234 ]};
     Image.objc_classes := ∅ |}.

(** * Part II: properties *)

(** ** Overwriting a range of a file *)

Section WriteAt.

Implicit Types (c b : list byte) (o k : nat).

Lemma write_at_in_bounds c o b :
  (o + length b <= length c)%nat ->
  write_at c o b = take o c ++ b ++ drop (o + length b) c.
Proof.
  intros H. unfold write_at. destruct b as [|x b].
  - simpl. rewrite Nat.add_0_r. symmetry. apply take_drop.
  - replace (o - length c)%nat with 0%nat by lia. reflexivity.
Qed.

Lemma length_write_at c o b :
  (o + length b <= length c)%nat -> length (write_at c o b) = length c.
Proof.
  intros H. rewrite write_at_in_bounds by done.
  rewrite !length_app, length_take, length_drop. lia.
Qed.

Lemma lookup_write_at c o b k :
  (o + length b <= length c)%nat ->
  write_at c o b !! k =
    if decide (o <= k < o + length b)%nat then b !! (k - o)%nat else c !! k.
Proof.
  intros H. rewrite write_at_in_bounds by done.
  destruct (decide (k < o)%nat) as [Hlt|Hge].
  - rewrite lookup_app_l by (rewrite length_take; lia).
    rewrite lookup_take_lt by done. case_decide; [lia|done].
  - rewrite lookup_app_r by (rewrite length_take; lia).
    rewrite length_take. replace (o `min` length c)%nat with o by lia.
    destruct (decide (k - o < length b)%nat) as [Hin|Hout].
    + rewrite lookup_app_l by done. case_decide; [done|lia].
    + rewrite lookup_app_r by lia. rewrite lookup_drop.
      case_decide; [lia|]. f_equal. lia.
Qed.

Lemma write_at_comm c o1 b1 o2 b2 :
  (o1 + length b1 <= o2)%nat -> (o2 + length b2 <= length c)%nat ->
  write_at (write_at c o1 b1) o2 b2 = write_at (write_at c o2 b2) o1 b1.
Proof.
  intros H1 H2. apply list_eq. intros k.
  rewrite !lookup_write_at by (rewrite ?length_write_at; lia).
  repeat case_decide; try lia; reflexivity.
Qed.

Lemma write_at_overwrite c o b b' :
  length b = length b' -> (o + length b <= length c)%nat ->
  write_at (write_at c o b) o b' = write_at c o b'.
Proof.
  intros Hl H. apply list_eq. intros k.
  rewrite !lookup_write_at by (rewrite ?length_write_at; lia).
  repeat case_decide; try lia; reflexivity.
Qed.

Lemma write_at_self c o n :
  (o + n <= length c)%nat -> write_at c o (take n (drop o c)) = c.
Proof.
  intros H. apply list_eq. intros k.
  assert (length (take n (drop o c)) = n) as Hl
    by (rewrite length_take, length_drop; lia).
  rewrite lookup_write_at by lia. rewrite Hl.
  case_decide; [|done].
  rewrite lookup_take_lt by lia. rewrite lookup_drop. f_equal. lia.
Qed.

(** Bytes written one after the other land where one write of all of
    them puts them. *)
Lemma write_at_cons c o x b :
  (o + S (length b) <= length c)%nat ->
  write_at (write_at c o [x]) (S o) b = write_at c o (x :: b).
Proof.
  intros H. apply list_eq. intros k.
  rewrite !lookup_write_at by (rewrite ?length_write_at; simpl; lia).
  simpl length.
  repeat case_decide; try lia; try reflexivity.
  - replace (k - o)%nat with (S (k - S o)) by lia. reflexivity.
  - replace (k - o)%nat with 0%nat by lia. reflexivity.
Qed.

Lemma bytes_at_length c (p n : Z) :
  0 <= p -> 0 <= n -> p + n <= Z.of_nat (length c) ->
  Z.of_nat (length (bytes_at c p n)) = n.
Proof.
  intros Hp Hn H. unfold bytes_at. rewrite length_take, length_drop. lia.
Qed.

End WriteAt.

(** ** Hexadecimal text: what is printed is read back *)

Section Hex.

Ltac hex_cases H :=
  let d := fresh "d" in
  let Hd := fresh "Hd" in
  destruct H as (d & Hd & ->);
  assert (d = 0 \/ d = 1 \/ d = 2 \/ d = 3 \/ d = 4 \/ d = 5 \/ d = 6 \/ d = 7 \/
          d = 8 \/ d = 9 \/ d = 10 \/ d = 11 \/ d = 12 \/ d = 13 \/ d = 14 \/ d = 15)
    as Hcases by lia;
  repeat (destruct Hcases as [-> | Hcases]); try subst d.

Lemma hex_value_digit d : 0 <= d < 16 -> hex_value (hex_digit d) = Some d.
Proof.
  intros Hd.
  assert (d = 0 \/ d = 1 \/ d = 2 \/ d = 3 \/ d = 4 \/ d = 5 \/ d = 6 \/ d = 7 \/
          d = 8 \/ d = 9 \/ d = 10 \/ d = 11 \/ d = 12 \/ d = 13 \/ d = 14 \/ d = 15)
    as Hcases by lia.
  repeat (destruct Hcases as [-> | Hcases]); try subst d; reflexivity.
Qed.

Lemma hex_char_value c : hex_char c -> exists d, 0 <= d < 16 /\ hex_value c = Some d.
Proof.
  intros (d & Hd & ->). exists d. split; [done|]. by apply hex_value_digit.
Qed.

Lemma hex_char_not_space c : hex_char c -> isspace c = false.
Proof. intros H. hex_cases H; reflexivity. Qed.

Lemma hex_char_not_colon c : hex_char c -> Byte.eqb c ":"%byte = false.
Proof. intros H. hex_cases H; reflexivity. Qed.

Lemma hex_char_not_sign c :
  hex_char c -> Byte.eqb c "-"%byte = false /\ Byte.eqb c "+"%byte = false.
Proof. intros H. hex_cases H; split; reflexivity. Qed.

Lemma hex_char_not_x c :
  hex_char c -> Byte.eqb c "x"%byte = false /\ Byte.eqb c "X"%byte = false.
Proof. intros H. hex_cases H; split; reflexivity. Qed.

Lemma numeral_digit d : 0 <= d < 16 -> numeral [hex_digit d] d.
Proof.
  intros Hd. split; [done|]. split.
  - constructor; [by exists d | constructor].
  - intros rest a k. simpl. rewrite hex_value_digit by done.
    f_equal; lia.
Qed.

Lemma numeral_snoc ds n d :
  numeral ds n -> 0 <= d < 16 -> numeral (ds ++ [hex_digit d]) (16 * n + d).
Proof.
  intros (Hne & Hall & Hrun) Hd. split; [|split].
  - destruct ds; done.
  - apply Forall_app. split; [done|]. constructor; [by exists d | constructor].
  - intros rest a k. rewrite <- app_assoc. rewrite Hrun. simpl.
    rewrite hex_value_digit by done.
    rewrite length_app. simpl.
    replace (Z.of_nat (length ds + 1)) with (Z.of_nat (length ds) + 1) by lia.
    rewrite Z.pow_add_r by lia.
    f_equal; lia.
Qed.

Lemma to_hex_go_numeral fuel : forall n acc,
  0 <= n < 16 ^ Z.of_nat fuel -> (0 < fuel)%nat ->
  exists ds, to_hex_go fuel n acc = ds ++ acc /\ numeral ds n.
Proof.
  induction fuel as [|fuel IH]; intros n acc Hn Hf; [lia|].
  simpl to_hex_go.
  assert (0 <= n mod 16 < 16) as Hmod by (apply Z.mod_pos_bound; lia).
  destruct (n / 16 =? 0) eqn:Hq.
  - apply Z.eqb_eq in Hq.
    exists [hex_digit (n mod 16)]. split; [done|].
    replace n with (n mod 16) at 2 by (pose proof (Z.div_mod n 16); lia).
    by apply numeral_digit.
  - apply Z.eqb_neq in Hq.
    assert (0 <= n / 16 < 16 ^ Z.of_nat fuel) as Hdiv.
    { split; [apply Z.div_pos; lia|].
      apply Z.div_lt_upper_bound; [lia|].
      replace (Z.of_nat (S fuel)) with (1 + Z.of_nat fuel) in Hn by lia.
      rewrite Z.pow_add_r in Hn by lia. lia. }
    assert (0 < fuel)%nat as Hf'.
    { destruct fuel; [|lia]. simpl in Hdiv. lia. }
    destruct (IH (n / 16) (hex_digit (n mod 16) :: acc) Hdiv Hf') as (ds & Heq & Hnum).
    exists (ds ++ [hex_digit (n mod 16)]). split.
    + rewrite Heq. rewrite <- app_assoc. reflexivity.
    + replace n with (16 * (n / 16) + n mod 16) at 2
        by (pose proof (Z.div_mod n 16); lia).
      by apply numeral_snoc.
Qed.

Lemma to_hex_numeral n : 0 <= n < 2 ^ 64 -> numeral (to_hex n) n.
Proof.
  intros Hn. unfold to_hex, u64, wrap.
  rewrite Z.mod_small by lia.
  destruct (to_hex_go_numeral 16 n []) as (ds & Heq & Hnum); [simpl; lia | lia |].
  rewrite Heq, app_nil_r. exact Hnum.
Qed.

(** A numeral is converted by [strtoll] to the number it denotes. *)
Lemma strtol16_numeral ds n : numeral ds n -> strtol16 ds = Some n.
Proof.
  intros (Hne & Hall & Hrun). unfold strtol16.
  destruct ds as [|c ds]; [done|].
  pose proof (Forall_inv Hall) as Hc.
  destruct (hex_char_not_sign c Hc) as [-> ->].
  assert ((match c :: ds with
           | z :: x :: d :: rest =>
               if Byte.eqb z "0"%byte && (Byte.eqb x "x"%byte || Byte.eqb x "X"%byte)
                  && bool_decide (is_Some (hex_value d))
               then d :: rest
               else c :: ds
           | _ => c :: ds
           end) = c :: ds) as ->.
  { destruct ds as [|x [|d rest]]; try reflexivity.
    pose proof (Forall_inv (Forall_inv_tail Hall)) as Hx.
    destruct (hex_char_not_x x Hx) as [-> ->].
    rewrite andb_false_r. reflexivity. }
  specialize (Hrun [] 0 0%nat). rewrite app_nil_r in Hrun. rewrite Hrun.
  simpl hex_run. simpl length. simpl. f_equal.
Qed.

Lemma stoll16_to_hex n : 0 <= n < 2 ^ 63 -> stoll16 (to_hex n) = Ok n.
Proof.
  intros Hn. unfold stoll16.
  rewrite (strtol16_numeral _ n) by (apply to_hex_numeral; lia).
  replace (n <? - 2 ^ 63) with false by lia.
  replace (2 ^ 63 - 1 <? n) with false by lia. reflexivity.
Qed.

Lemma stoi16_to_hex n : 0 <= n < 2 ^ 31 -> stoi16 (to_hex n) = Ok n.
Proof.
  intros Hn. unfold stoi16.
  rewrite (strtol16_numeral _ n) by (apply to_hex_numeral; lia).
  replace (n <? - 2 ^ 31) with false by lia.
  replace (2 ^ 31 - 1 <? n) with false by lia. reflexivity.
Qed.

End Hex.

(** ** Revert: the words of a sidecar and their replay *)

Section Revert.

Lemma byte_to_Z_bounds b : 0 <= byte_to_Z b < 256.
Proof. unfold byte_to_Z. pose proof (Byte.to_N_bounded b). lia. Qed.

Lemma byte_of_to_Z b : byte_of_Z (byte_to_Z b) = b.
Proof.
  unfold byte_of_Z, u8, wrap. rewrite Z.mod_small by apply byte_to_Z_bounds.
  unfold byte_to_Z. rewrite N2Z.id, Byte.of_to_N. reflexivity.
Qed.

Lemma bind_run {S A B : Type} (m : M S A) (k : A -> M S B) (s : S) :
  bind m k s = match m s with
               | (Ok a, s') => k a s'
               | (Throw e, s') => (Throw e, s')
               end.
Proof. reflexivity. Qed.

Lemma ret_run {S A : Type} (a : A) (s : S) : ret a s = (Ok a, s).
Proof. reflexivity. Qed.

Lemma stream_write_good bs what c p :
  stream_write bs what {| s_data := c; s_pos := p; s_good := true |} =
  (Ok tt, {| s_data := write_at c (Z.to_nat p) bs;
             s_pos := p + Z.of_nat (length bs);
             s_good := true |}).
Proof. reflexivity. Qed.

Lemma seekp_good off what c p :
  0 <= off ->
  seekp off what {| s_data := c; s_pos := p; s_good := true |} =
  (Ok tt, {| s_data := c; s_pos := off; s_good := true |}).
Proof.
  intros H. unfold seekp. simpl. replace (0 <=? off) with true by lia. reflexivity.
Qed.

Lemma tokens_go_space sp rest :
  isspace sp = true -> tokens_go (sp :: rest) [] = tokens_go rest [].
Proof. intros H. simpl. rewrite H. reflexivity. Qed.

Lemma tokens_go_word w : forall sp rest cur,
  Forall (fun c => isspace c = false) w -> isspace sp = true -> cur ++ w <> [] ->
  tokens_go (w ++ sp :: rest) cur = (cur ++ w) :: tokens_go rest [].
Proof.
  induction w as [|c w IH]; intros sp rest cur Hw Hsp Hne; simpl.
  - rewrite Hsp. rewrite app_nil_r in *. destruct cur; [done|reflexivity].
  - rewrite (Forall_inv Hw).
    rewrite (IH sp rest (cur ++ [c])); [|by eapply Forall_inv_tail|done|].
    + rewrite <- app_assoc. reflexivity.
    + destruct cur; done.
Qed.

Lemma numeral_no_space ds n : numeral ds n -> Forall (fun c => isspace c = false) ds.
Proof.
  intros (_ & Hall & _). eapply Forall_impl; [exact Hall|].
  intros c Hc. by apply hex_char_not_space.
Qed.

Lemma tokens_go_bytes bs : forall rest,
  tokens_go (concat (map (fun b => to_hex (byte_to_Z b) ++ list_byte_of_string " ") bs)
               ++ rest) [] =
  byte_words bs ++ tokens_go rest [].
Proof.
  induction bs as [|b bs IH]; intros rest; [reflexivity|].
  simpl concat. rewrite <- !app_assoc. simpl app at 2.
  assert (numeral (to_hex (byte_to_Z b)) (byte_to_Z b)) as Hnum.
  { apply to_hex_numeral. pose proof (byte_to_Z_bounds b). lia. }
  rewrite tokens_go_word; [|by eapply numeral_no_space|reflexivity|].
  - simpl. rewrite IH. reflexivity.
  - simpl. by destruct Hnum as (Hne & _).
Qed.

Lemma tokens_go_line off orig rest :
  0 <= off < 2 ^ 64 ->
  tokens_go (sidecar_line off orig ++ rest) [] =
  (to_hex off ++ [":"%byte]) :: byte_words orig ++ tokens_go rest [].
Proof.
  intros Hoff. unfold sidecar_line.
  pose proof (to_hex_numeral off Hoff) as Hnum.
  change (list_byte_of_string ": ") with ([":"%byte] ++ [" "%byte]).
  rewrite <- !app_assoc.
  rewrite (app_assoc (to_hex off) [":"%byte]).
  simpl app at 3.
  rewrite tokens_go_word.
  - simpl app at 1. f_equal.
    rewrite tokens_go_bytes. f_equal.
  - apply Forall_app. split; [by eapply numeral_no_space|].
    constructor; [reflexivity|constructor].
  - reflexivity.
  - simpl. destruct (to_hex off); done.
Qed.

Lemma tokens_sidecar_text records :
  Forall (fun r => 0 <= fst r < 2 ^ 64) records ->
  tokens (sidecar_text records) = concat (map record_words records).
Proof.
  unfold tokens, sidecar_text.
  induction records as [|[off orig] records IH]; intros Hall; [reflexivity|].
  simpl concat. rewrite tokens_go_line by apply (Forall_inv Hall).
  rewrite IH by (by eapply Forall_inv_tail). reflexivity.
Qed.

Lemma ends_with_colon_offset ds : ends_with_colon (ds ++ [":"%byte]) = true.
Proof. unfold ends_with_colon. rewrite last_snoc. reflexivity. Qed.

Lemma ends_with_colon_numeral ds n : numeral ds n -> ends_with_colon ds = false.
Proof.
  intros (Hne & Hall & _). unfold ends_with_colon.
  destruct (last ds) as [c|] eqn:Hlast; [|reflexivity].
  apply last_Some in Hlast as [l' ->].
  apply Forall_app in Hall as [_ Hc].
  apply hex_char_not_colon. by apply (Forall_inv Hc).
Qed.

Lemma write_at_nil c o : write_at c o [] = c.
Proof. reflexivity. Qed.

(** The bytes of a record are written one by one from the cursor. *)
Lemma revert_tokens_bytes bs : forall more c p,
  0 <= p -> p + Z.of_nat (length bs) <= Z.of_nat (length c) ->
  revert_tokens (byte_words bs ++ more) {| s_data := c; s_pos := p; s_good := true |} =
  revert_tokens more {| s_data := write_at c (Z.to_nat p) bs;
                        s_pos := p + Z.of_nat (length bs);
                        s_good := true |}.
Proof.
  induction bs as [|b bs IH]; intros more c p Hp Hin.
  - simpl. rewrite Z.add_0_r. reflexivity.
  - simpl length in Hin.
    pose proof (byte_to_Z_bounds b) as Hb.
    assert (numeral (to_hex (byte_to_Z b)) (byte_to_Z b)) as Hnum
      by (apply to_hex_numeral; lia).
    simpl app. simpl revert_tokens.
    rewrite (ends_with_colon_numeral _ _ Hnum).
    rewrite stoi16_to_hex by lia.
    rewrite bind_run. simpl Assembler.lift. rewrite ret_run.
    change 255 with (Z.ones 8). rewrite Z.land_ones by lia.
    rewrite Z.mod_small by (change (2 ^ 8) with 256; lia).
    rewrite Z.eqb_refl. change (negb true) with false. cbv beta iota.
    rewrite bind_run, stream_write_good. rewrite byte_of_to_Z.
    rewrite IH.
    + f_equal. f_equal.
      * replace (Z.to_nat (p + Z.of_nat (length [b]))) with (S (Z.to_nat p))
          by (simpl; lia).
        apply write_at_cons. simpl. lia.
      * simpl length. lia.
    + simpl. lia.
    + rewrite length_write_at by (simpl; lia). simpl length. lia.
Qed.

Lemma revert_tokens_record off orig more c p :
  0 <= off < 2 ^ 63 -> off + Z.of_nat (length orig) <= Z.of_nat (length c) ->
  revert_tokens (record_words (off, orig) ++ more)
    {| s_data := c; s_pos := p; s_good := true |} =
  revert_tokens more {| s_data := write_at c (Z.to_nat off) orig;
                        s_pos := off + Z.of_nat (length orig);
                        s_good := true |}.
Proof.
  intros Hoff Hin. unfold record_words. simpl fst. simpl snd.
  simpl app. simpl revert_tokens.
  rewrite ends_with_colon_offset, removelast_last.
  rewrite stoll16_to_hex by lia.
  rewrite bind_run. simpl Assembler.lift. rewrite ret_run.
  rewrite bind_run, seekp_good by lia.
  apply revert_tokens_bytes; lia.
Qed.

Lemma revert_tokens_records records : forall c p,
  Z.of_nat (length c) < 2 ^ 63 ->
  records_in_bounds (Z.of_nat (length c)) records ->
  exists p',
    revert_tokens (concat (map record_words records))
      {| s_data := c; s_pos := p; s_good := true |} =
    (Ok tt, {| s_data := replay records c; s_pos := p'; s_good := true |}).
Proof.
  induction records as [|[off orig] records IH]; intros c p Hlen Hall.
  - exists p. reflexivity.
  - pose proof (Forall_inv Hall) as [H0 H1]. simpl in H0, H1.
    change (concat (map record_words ((off, orig) :: records)))
      with (record_words (off, orig) ++ concat (map record_words records)).
    rewrite revert_tokens_record by lia.
    assert (length (write_at c (Z.to_nat off) orig) = length c) as Hl
      by (apply length_write_at; lia).
    simpl replay. apply IH; rewrite Hl; [done|by eapply Forall_inv_tail].
Qed.

End Revert.

(** ** Commit: the loop of [flush] computes [patched] and [displaced] *)

Section Flush.

Lemma flush_entry_ok c pos d off bs :
  0 <= off -> off + Z.of_nat (length bs) <= Z.of_nat (length c) ->
  flush_entry (off, bs) ({| s_data := c; s_pos := pos; s_good := true |}, d) =
    (Ok tt,
     ({| s_data := write_at c (Z.to_nat off) bs;
         s_pos := off + Z.of_nat (length bs);
         s_good := true |},
      d ++ sidecar_line off (bytes_at c off (Z.of_nat (length bs))))).
Proof.
  intros Hoff Hin.
  unfold flush_entry, bind, on_cache_file, seek_stream, read_stream, seekp,
    stream_write, diff_put. simpl.
  replace (off <? 0) with false by lia. simpl.
  rewrite bytes_at_length by lia.
  rewrite Z.ltb_irrefl. simpl.
  replace (0 <=? off) with true by lia. simpl. reflexivity.
Qed.

Lemma flush_entries_ok es : forall c pos d,
  forallb (entry_in_bounds (Z.of_nat (length c))) es = true ->
  exists pos',
    flush_entries es ({| s_data := c; s_pos := pos; s_good := true |}, d) =
      (Ok tt,
       ({| s_data := patched c es; s_pos := pos'; s_good := true |},
        d ++ sidecar_text (displaced c es))).
Proof.
  induction es as [|[off bs] es IH]; intros c pos d Hb; simpl.
  - exists pos. unfold ret, sidecar_text. simpl. rewrite app_nil_r. reflexivity.
  - simpl in Hb. apply andb_true_iff in Hb as [He Hb].
    unfold entry_in_bounds in He. simpl in He.
    apply andb_true_iff in He as [H0 H1].
    apply Z.leb_le in H0. apply Z.leb_le in H1.
    unfold bind at 1. rewrite flush_entry_ok by lia.
    assert (length (write_at c (Z.to_nat off) bs) = length c) as Hlen
      by (apply length_write_at; lia).
    destruct (IH (write_at c (Z.to_nat off) bs) (off + Z.of_nat (length bs))
                (d ++ sidecar_line off (bytes_at c off (Z.of_nat (length bs)))))
      as [pos' Hrun].
    { rewrite Hlen. exact Hb. }
    exists pos'. rewrite Hrun. unfold sidecar_text. simpl.
    rewrite <- app_assoc. reflexivity.
Qed.

End Flush.

(** ** A commit followed by a revert, on one file *)

Section RoundTrip.

Lemma in_bounds_cons len off bs es :
  forallb (entry_in_bounds len) ((off, bs) :: es) = true ->
  0 <= off /\ off + Z.of_nat (length bs) <= len /\
  forallb (entry_in_bounds len) es = true.
Proof.
  simpl. unfold entry_in_bounds at 1. simpl. intros H.
  apply andb_true_iff in H as [H H2]. apply andb_true_iff in H as [H0 H1].
  apply Z.leb_le in H0. apply Z.leb_le in H1. done.
Qed.

Lemma length_patched es : forall c,
  forallb (entry_in_bounds (Z.of_nat (length c))) es = true ->
  length (patched c es) = length c.
Proof.
  induction es as [|[off bs] es IH]; intros c Hb; [reflexivity|].
  apply in_bounds_cons in Hb as (H0 & H1 & Hb). simpl.
  assert (length (write_at c (Z.to_nat off) bs) = length c) as Hl
    by (apply length_write_at; lia).
  rewrite IH; rewrite Hl; done.
Qed.

(** The records keep the offset and the size of their entries. *)
Lemma displaced_shape es : forall c,
  forallb (entry_in_bounds (Z.of_nat (length c))) es = true ->
  Forall2 (fun e r => fst r = fst e /\ length (snd r) = length (snd e))
    es (displaced c es).
Proof.
  induction es as [|[off bs] es IH]; intros c Hb; [constructor|].
  apply in_bounds_cons in Hb as (H0 & H1 & Hb). simpl. constructor.
  - simpl. split; [done|].
    apply Nat2Z.inj. apply bytes_at_length; lia.
  - apply IH. rewrite length_write_at by lia. done.
Qed.

Lemma displaced_in_bounds es c :
  forallb (entry_in_bounds (Z.of_nat (length c))) es = true ->
  records_in_bounds (Z.of_nat (length c)) (displaced c es).
Proof.
  intros Hb. pose proof (displaced_shape es c Hb) as Hs.
  unfold records_in_bounds.
  assert (Forall (fun e => 0 <= fst e /\
             fst e + Z.of_nat (length (snd e)) <= Z.of_nat (length c)) es) as He.
  { apply Forall_forall. intros e Hin.
    rewrite forallb_forall in Hb. specialize (Hb e).
    rewrite <- list_elem_of_In in Hb. specialize (Hb Hin).
    unfold entry_in_bounds in Hb. apply andb_true_iff in Hb as [? ?]. lia. }
  clear Hb. induction Hs as [|e r es rs [Ho Hl] Hs IH]; [constructor|].
  constructor.
  - pose proof (Forall_inv He). rewrite Ho, Hl. done.
  - apply IH. by eapply Forall_inv_tail.
Qed.

Lemma replay_write_at_comm records : forall x o orig,
  records_in_bounds (Z.of_nat (length x)) records ->
  Forall (fun r => Z.of_nat o + Z.of_nat (length orig) <= fst r) records ->
  replay records (write_at x o orig) = write_at (replay records x) o orig.
Proof.
  induction records as [|[o' b'] records IH]; intros x o orig Hb Hd; [reflexivity|].
  pose proof (Forall_inv Hb) as [H0 H1]. pose proof (Forall_inv Hd) as H2.
  simpl in H0, H1, H2. simpl replay.
  rewrite write_at_comm by lia.
  apply IH.
  - rewrite length_write_at by lia. by eapply Forall_inv_tail.
  - by eapply Forall_inv_tail.
Qed.

(** The records of a commit, replayed in the order of the sidecar over
    the patched file, give back the file, provided no entry reaches into
    a later one. *)
Lemma replay_displaced es : forall c,
  forallb (entry_in_bounds (Z.of_nat (length c))) es = true ->
  entries_disjoint es = true ->
  replay (displaced c es) (patched c es) = c.
Proof.
  induction es as [|[off bs] es IH]; intros c Hb Hd; [reflexivity|].
  pose proof Hb as Hb0.
  apply in_bounds_cons in Hb as (H0 & H1 & Hb).
  simpl in Hd. apply andb_true_iff in Hd as [Hlater Hd].
  set (c1 := write_at c (Z.to_nat off) bs).
  assert (length c1 = length c) as Hl1 by (apply length_write_at; lia).
  assert (Z.of_nat (length (bytes_at c off (Z.of_nat (length bs))))
          = Z.of_nat (length bs)) as Hlo by (apply bytes_at_length; lia).
  cbn [displaced patched replay]. fold c1.
  rewrite replay_write_at_comm.
  - rewrite IH by (rewrite ?Hl1; done).
    unfold c1. rewrite write_at_overwrite by lia.
    unfold bytes_at. rewrite Nat2Z.id. apply write_at_self. lia.
  - rewrite length_patched by (rewrite Hl1; done).
    apply displaced_in_bounds. rewrite Hl1. done.
  - pose proof (displaced_shape es c1) as Hs. rewrite Hl1 in Hs.
    specialize (Hs Hb).
    rewrite forallb_forall in Hlater.
    assert (Forall (fun e => off + Z.of_nat (length bs) <= fst e) es) as He.
    { apply Forall_forall. intros e Hin. apply list_elem_of_In in Hin.
      specialize (Hlater e Hin). simpl in Hlater. lia. }
    clear -Hs He Hlo H0.
    induction Hs as [|e r es rs [Ho Hl] Hs IHs]; [constructor|].
    constructor.
    + pose proof (Forall_inv He) as H. simpl in H. rewrite Ho. lia.
    + apply IHs. by eapply Forall_inv_tail.
Qed.

End RoundTrip.

(** ** Commit and revert on the file system *)

Section FileSystem.

Lemma string_length_app (a b : string) :
  String.length (a +:+ b) = (String.length a + String.length b)%nat.
Proof. induction a as [|x a IH]; simpl; [reflexivity|]. by rewrite IH. Qed.

Lemma orig_bytes_path_ne p : orig_bytes_path p <> p.
Proof.
  intros H. apply (f_equal String.length) in H.
  unfold orig_bytes_path in H. rewrite string_length_app in H.
  simpl in H. lia.
Qed.

Lemma orig_bytes_path_inj p : forall q,
  orig_bytes_path p = orig_bytes_path q -> p = q.
Proof.
  unfold orig_bytes_path.
  induction p as [|a p IH]; intros [|b q] H; simpl in H.
  - reflexivity.
  - apply (f_equal String.length) in H. simpl in H.
    rewrite string_length_app in H. simpl in H. lia.
  - apply (f_equal String.length) in H. simpl in H.
    rewrite string_length_app in H. simpl in H. lia.
  - injection H as -> H. f_equal. by apply IH.
Qed.

Lemma flush_path_ok (fs : filesystem) p es c :
  fs !! p = Some c ->
  forallb (entry_in_bounds (Z.of_nat (length c))) es = true ->
  flush_path p es fs =
    (Ok tt, <[orig_bytes_path p := sidecar_text (displaced c es)]>
              (<[p := patched c es]> fs)).
Proof.
  intros Hp Hb. unfold flush_path. rewrite Hp.
  destruct (flush_entries_ok es c 0 [] Hb) as [pos' Hrun].
  unfold open_stream. rewrite Hrun. reflexivity.
Qed.

Lemma revert_ok (fs : filesystem) p c records :
  fs !! p = Some c ->
  fs !! orig_bytes_path p = Some (sidecar_text records) ->
  Z.of_nat (length c) < 2 ^ 63 ->
  records_in_bounds (Z.of_nat (length c)) records ->
  Patcher_revert p fs =
    (Ok tt, delete (orig_bytes_path p) (<[p := replay records c]> fs)).
Proof.
  intros Hp Hs Hlen Hb. unfold Patcher_revert. rewrite Hs, Hp.
  rewrite tokens_sidecar_text.
  - destruct (revert_tokens_records records c 0 Hlen Hb) as [p' Hrun].
    unfold open_stream. rewrite Hrun. reflexivity.
  - eapply Forall_impl; [exact Hb|]. simpl. intros r [? ?]. lia.
Qed.

Lemma no_revert_without_sidecar (fs : filesystem) p :
  fs !! orig_bytes_path p = None -> Patcher_revert p fs = (Ok tt, fs).
Proof. intros H. unfold Patcher_revert. by rewrite H. Qed.

Lemma committable_spec fs q :
  committable fs q = true -> Forall (path_ok fs) q /\ no_sidecar_staged q.
Proof.
  unfold committable. intros H. apply andb_true_iff in H as [H1 H2]. split.
  - apply Forall_forall. intros pe Hin. rewrite forallb_forall in H1.
    apply list_elem_of_In in Hin. specialize (H1 pe Hin).
    unfold path_ok, offset_map in *.
    destruct (fs !! fst pe) as [c|]; [|discriminate H1].
    exists c. apply andb_true_iff in H1 as [H1 Hd].
    apply andb_true_iff in H1 as [Hl Hb]. apply Z.ltb_lt in Hl.
    split_and!; done.
  - intros p p' Hp Hp'. rewrite forallb_forall in H2.
    apply list_elem_of_In in Hp. specialize (H2 p Hp).
    rewrite forallb_forall in H2. apply list_elem_of_In in Hp'.
    specialize (H2 p' Hp'). apply negb_true_iff in H2.
    intros ->. unfold path_eqb in H2. by apply bool_decide_eq_false in H2.
Qed.

(** The outer loop of [flush]: every staged file ends up patched, with
    its sidecar next to it, and nothing else changes. *)
Lemma flush_queue_ok q : forall (fs : filesystem),
  NoDup (staged_paths q) -> Forall (path_ok fs) q -> no_sidecar_staged q ->
  exists fs1 : filesystem,
    flush_queue q fs = (Ok tt, fs1) /\
    (forall k, (forall p, p ∈ staged_paths q -> k <> p /\ k <> orig_bytes_path p) ->
               fs1 !! k = fs !! k) /\
    (forall p es c, (p, es) ∈ q -> fs !! p = Some c ->
                    fs1 !! p = Some (patched c es) /\
                    fs1 !! orig_bytes_path p = Some (sidecar_text (displaced c es))).
Proof.
  induction q as [|[p es] q IH]; intros fs Hnd Hok Hns.
  - exists fs. split; [reflexivity|]. split; [done|].
    intros p es c Hin. by apply elem_of_nil in Hin.
  - simpl in Hnd. apply NoDup_cons in Hnd as [Hnotin Hnd].
    pose proof (Forall_inv Hok) as (c & Hc & Hlen & Hb & Hd). simpl in Hc, Hb, Hd.
    apply Forall_inv_tail in Hok.
    set (fs' := <[orig_bytes_path p := sidecar_text (displaced c es)]>
                  (<[p := patched c es]> fs)).
    assert (forall p', p' ∈ staged_paths q -> fs' !! p' = fs !! p') as Hframe.
    { intros p' Hp'. unfold fs'.
      rewrite lookup_insert_ne.
      - rewrite lookup_insert_ne; [done|]. intros ->. done.
      - intros Heq. apply (Hns p p'); [left | right; done | done]. }
    assert (no_sidecar_staged q) as Hns'.
    { intros a b Ha Hb'. apply Hns; by right. }
    destruct (IH fs' Hnd) as (fs1 & Hrun & Hother & Hstaged); [|done|].
    { apply Forall_forall. intros [p' es'] Hin.
      rewrite Forall_forall in Hok. destruct (Hok _ Hin) as (c' & Hc' & Hrest).
      exists c'. split; [|done]. simpl. simpl in Hc'.
      rewrite Hframe; [done|].
      apply list_elem_of_fmap. exists (p', es'). done. }
    exists fs1. split; [|split].
    + simpl. rewrite bind_run. rewrite (flush_path_ok fs p es c Hc Hb).
      fold fs'. exact Hrun.
    + intros k Hk. rewrite Hother.
      * destruct (Hk p) as [Hk1 Hk2]; [left|]. unfold fs'.
        rewrite lookup_insert_ne by done. by rewrite lookup_insert_ne.
      * intros p' Hp'. apply Hk. by right.
    + intros p' es' c' Hin Hc'. apply elem_of_cons in Hin as [Heq|Hin].
      * injection Heq as -> ->. rewrite Hc in Hc'. injection Hc' as <-.
        rewrite (Hother p), (Hother (orig_bytes_path p)).
        -- unfold fs'. rewrite lookup_insert_eq.
           rewrite lookup_insert_ne by apply orig_bytes_path_ne.
           by rewrite lookup_insert_eq.
        -- intros p' Hp'. split.
           ++ intros Heq. symmetry in Heq. revert Heq.
              apply Hns; [left | by right].
           ++ intros Heq. apply orig_bytes_path_inj in Heq. by subst.
        -- intros p' Hp'. split; [by intros <- |].
           apply Hns; [by right | left].
      * assert (p' ∈ staged_paths q) as Hp'.
        { apply list_elem_of_fmap. exists (p', es'). done. }
        apply (Hstaged p' es' c' Hin). rewrite Hframe; done.
Qed.

End FileSystem.

Section Staging.

Lemma path_eqb_true p q : path_eqb p q = true <-> path_key p = path_key q.
Proof. unfold path_eqb. apply bool_decide_eq_true. Qed.

Lemma path_eqb_false p q : path_eqb p q = false <-> path_key p <> path_key q.
Proof. unfold path_eqb. apply bool_decide_eq_false. Qed.

Lemma path_eqb_refl p : path_eqb p p = true.
Proof. by apply path_eqb_true. Qed.

(** Two paths that are not equal as paths are not spelled the same. *)
Lemma path_eqb_false_ne p q : path_eqb p q = false -> p <> q.
Proof. intros H ->. by rewrite path_eqb_refl in H. Qed.

Lemma staged_paths_emplace p k v q :
  staged_paths (queue_emplace p k v q) =
    if decide (path_key p ∈ map path_key (staged_paths q))
    then staged_paths q else staged_paths q ++ [p].
Proof.
  unfold staged_paths.
  induction q as [|[p' m] q IH]; cbn [queue_emplace map fst].
  - rewrite decide_False; [reflexivity|]. apply not_elem_of_nil.
  - destruct (path_eqb p' p) eqn:Hpp; cbn [map fst].
    + apply path_eqb_true in Hpp.
      rewrite decide_True; [reflexivity|]. rewrite Hpp. left.
    + apply path_eqb_false in Hpp. rewrite IH.
      destruct (decide (path_key p ∈ map path_key (map fst q))) as [Hin|Hnin].
      * rewrite decide_True; [reflexivity|by right].
      * rewrite decide_False; [reflexivity|].
        intros [Heq|Hin]%elem_of_cons; [by symmetry in Heq|done].
Qed.

(** No two buckets have keys that are equal as paths. *)
Lemma staged_keys_NoDup_emplace p k v q :
  NoDup (map path_key (staged_paths q)) ->
  NoDup (map path_key (staged_paths (queue_emplace p k v q))).
Proof.
  intros Hnd. rewrite staged_paths_emplace. case_decide; [done|].
  rewrite map_app. apply NoDup_app. split; [done|]. split.
  - intros x Hx [->|Hn]%elem_of_cons; [done|]. by apply elem_of_nil in Hn.
  - apply NoDup_singleton.
Qed.

Lemma fold_write_NoDup writes : forall pt,
  NoDup (map path_key (staged_paths (write_queue pt))) ->
  NoDup (map path_key (staged_paths (write_queue
    (fold_left (fun pt w => snd (Patcher_write (fst (fst w)) (snd (fst w)) (snd w) pt))
       writes pt)))).
Proof.
  induction writes as [|[[p k] v] writes IH]; intros pt Hnd; [done|].
  simpl. apply IH. simpl. by apply staged_keys_NoDup_emplace.
Qed.

Lemma stage_keys_NoDup writes :
  NoDup (map path_key (staged_paths (write_queue (stage writes)))).
Proof. apply fold_write_NoDup. simpl. apply NoDup_nil_2. Qed.

(** The paths of a staging buffer are pairwise distinct. *)
Lemma stage_NoDup writes : NoDup (staged_paths (write_queue (stage writes))).
Proof. exact (NoDup_fmap_1 path_key _ (stage_keys_NoDup writes)). Qed.

(** The outcome of a commit does not depend on the order in which the
    buckets are visited. *)
Lemma flush_queue_any_order q q' (fs : filesystem) :
  q ≡ₚ q' -> NoDup (staged_paths q) -> Forall (path_ok fs) q -> no_sidecar_staged q ->
  flush_queue q' fs = flush_queue q fs.
Proof.
  intros Hperm Hnd Hok Hns.
  assert (staged_paths q ≡ₚ staged_paths q') as Hpaths
    by (unfold staged_paths; by apply fmap_Permutation).
  assert (NoDup (staged_paths q')) as Hnd' by (by rewrite <- Hpaths).
  assert (Forall (path_ok fs) q') as Hok' by (by rewrite <- Hperm).
  assert (no_sidecar_staged q') as Hns'.
  { intros p p' Hp Hp'. rewrite <- Hpaths in Hp, Hp'. by apply Hns. }
  destruct (flush_queue_ok q fs Hnd Hok Hns) as (fs1 & Hrun & Hother & Hstaged).
  destruct (flush_queue_ok q' fs Hnd' Hok' Hns') as (fs1' & Hrun' & Hother' & Hstaged').
  rewrite Hrun, Hrun'. f_equal. apply map_eq. intros k.
  destruct (decide (k ∈ staged_paths q)) as [Hk|Hk].
  - apply list_elem_of_fmap in Hk as ([p es] & -> & Hin). simpl.
    rewrite Forall_forall in Hok.
    destruct (Hok _ Hin) as (c & Hc & _). simpl in Hc.
    destruct (Hstaged p es c Hin Hc) as [-> _].
    rewrite Hperm in Hin. by destruct (Hstaged' p es c Hin Hc) as [-> _].
  - destruct (decide (k ∈ map orig_bytes_path (staged_paths q))) as [Hside|Hnot].
    + apply list_elem_of_fmap in Hside as (p & -> & Hp).
      apply list_elem_of_fmap in Hp as ([p0 es] & -> & Hin). simpl.
      rewrite Forall_forall in Hok.
      destruct (Hok _ Hin) as (c & Hc & _). simpl in Hc.
      destruct (Hstaged p0 es c Hin Hc) as [_ ->].
      rewrite Hperm in Hin. by destruct (Hstaged' p0 es c Hin Hc) as [_ ->].
    + rewrite Hother, Hother'; [done| |].
      * intros p Hp. rewrite <- Hpaths in Hp. split.
        -- intros ->. done.
        -- intros ->. apply Hnot. apply list_elem_of_fmap. by exists p.
      * intros p Hp. split.
        -- intros ->. done.
        -- intros ->. apply Hnot. apply list_elem_of_fmap. by exists p.
Qed.

End Staging.

(** C1 (as amended): for every file system and every sequence of staged
    writes whose queue is [committable] -- each staged file exists, its
    entries lie inside it and none reaches into a later one, and no staged
    file is the sidecar of another -- the commit succeeds, and afterwards
    [Patcher::revert] of any staged file succeeds, gives that file its
    content from before the commit, and deletes its sidecar.  The entries
    of a file are those of all the writes to its path, under whatever
    spelling: writes to [d//f] and to [d/f] are staged for one file. *)
Theorem commit_revert_round_trip (writes : list (string * Z * list byte)) (fs : filesystem) :
  committable fs (write_queue (stage writes)) = true ->
  exists fs1 : filesystem,
    Patcher_flush (stage writes) fs = (Ok tt, fs1) /\
    forall p, In p (staged_paths (write_queue (stage writes))) ->
      exists fs2 : filesystem,
        Patcher_revert p fs1 = (Ok tt, fs2) /\
        fs2 !! p = fs !! p /\
        fs2 !! orig_bytes_path p = None.
Proof.
  intros Hc. apply committable_spec in Hc as [Hok Hns].
  destruct (flush_queue_ok _ fs (stage_NoDup writes) Hok Hns)
    as (fs1 & Hrun & _ & Hstaged).
  exists fs1. split; [exact Hrun|].
  intros p Hp. apply list_elem_of_In in Hp.
  apply list_elem_of_fmap in Hp as ([p' es] & -> & Hin). simpl.
  rewrite Forall_forall in Hok.
  destruct (Hok _ Hin) as (c & Hc & Hlen & Hb & Hd). simpl in Hc, Hb, Hd.
  destruct (Hstaged p' es c Hin Hc) as [Hfile Hside].
  eexists. split.
  - apply (revert_ok fs1 p' (patched c es) (displaced c es) Hfile Hside).
    + rewrite length_patched by done. done.
    + rewrite length_patched by done. by apply displaced_in_bounds.
  - rewrite replay_displaced by done. split.
    + rewrite lookup_delete_ne by apply orig_bytes_path_ne.
      rewrite lookup_insert_eq. by rewrite Hc.
    + apply lookup_delete_eq.
Qed.

Lemma commit_revert_round_trip_witness :
  exists fs1 : filesystem,
    Patcher_flush (stage [("d//f"%string, 0, [xa0; xa1]); ("d/f"%string, 4, [xb0; xb1])])
      {[ "d//f"%string := file_0_to_7 ]} = (Ok tt, fs1) /\
    forall p, In p (staged_paths (write_queue
                (stage [("d//f"%string, 0, [xa0; xa1]); ("d/f"%string, 4, [xb0; xb1])]))) ->
      exists fs2 : filesystem,
        Patcher_revert p fs1 = (Ok tt, fs2) /\
        fs2 !! p = ({[ "d//f"%string := file_0_to_7 ]} : filesystem) !! p /\
        fs2 !! orig_bytes_path p = None.
Proof.
  apply (commit_revert_round_trip
           [("d//f"%string, 0, [xa0; xa1]); ("d/f"%string, 4, [xb0; xb1])]
           {[ "d//f"%string := file_0_to_7 ]}).
  vm_compute. reflexivity.
Defined.

(** Two writes that overlap are not committable when they go to two
    spellings of one path either: they share a bucket. *)
Lemma spellings_share_a_bucket (fs : filesystem) :
  write_queue (stage [("d//f"%string, 0, [xa0; xa1; xa2; xa3]);
                      ("d/f"%string, 2, [xb0; xb1; xb2; xb3])])
    = [("d//f"%string, [(0, [xa0; xa1; xa2; xa3]); (2, [xb0; xb1; xb2; xb3])])] /\
  committable fs (write_queue (stage [("d//f"%string, 0, [xa0; xa1; xa2; xa3]);
                                      ("d/f"%string, 2, [xb0; xb1; xb2; xb3])])) = false.
Proof.
  assert (write_queue (stage [("d//f"%string, 0, [xa0; xa1; xa2; xa3]);
                              ("d/f"%string, 2, [xb0; xb1; xb2; xb3])])
          = [("d//f"%string, [(0, [xa0; xa1; xa2; xa3]); (2, [xb0; xb1; xb2; xb3])])]) as ->
    by (vm_compute; reflexivity).
  split; [reflexivity|].
  unfold committable. cbn [forallb fst snd].
  destruct (fs !! "d//f"%string) as [c|]; [|reflexivity].
  change (entries_disjoint [(0, [xa0; xa1; xa2; xa3]); (2, [xb0; xb1; xb2; xb3])])
    with false.
  rewrite !andb_false_r. reflexivity.
Qed.

(** C1 (as stated) fails when staged ranges overlap: with the eight bytes
    [00 .. 07] in [C] and the writes [0 -> a0 a1 a2 a3] and
    [2 -> b0 b1 b2 b3], commit and revert both succeed, but the revert
    leaves [a2 a3] at offsets 2 and 3 instead of [02 03]. *)
Lemma commit_revert_overlap_counterexample :
  let fs : filesystem := {[ "C"%string := file_0_to_7 ]} in
  let pt := stage [("C"%string, 0, [xa0; xa1; xa2; xa3]);
                   ("C"%string, 2, [xb0; xb1; xb2; xb3])] in
  fst (Patcher_flush pt fs) = Ok tt /\
  fst (Patcher_revert "C" (snd (Patcher_flush pt fs))) = Ok tt /\
  snd (Patcher_revert "C" (snd (Patcher_flush pt fs))) !! "C"%string
    = Some [x00; x01; xa2; xa3; x04; x05; x06; x07] /\
  snd (Patcher_revert "C" (snd (Patcher_flush pt fs))) !! "C"%string <> fs !! "C"%string.
Proof.
  vm_compute. repeat split; try reflexivity. discriminate.
Qed.

Section SameKey.

Lemma offset_map_emplace_twice k v1 v2 m :
  offset_map_emplace k v2 (offset_map_emplace k v1 m) = offset_map_emplace k v1 m.
Proof.
  induction m as [|[k' v'] m IH]; simpl.
  - rewrite Z.ltb_irrefl, Z.eqb_refl. reflexivity.
  - destruct (k <? k') eqn:Hlt; simpl.
    + rewrite Z.ltb_irrefl, Z.eqb_refl. reflexivity.
    + destruct (k =? k') eqn:Heq; simpl.
      * rewrite Hlt, Heq. reflexivity.
      * rewrite Hlt, Heq, IH. reflexivity.
Qed.

Lemma queue_emplace_twice p k v1 v2 q :
  queue_emplace p k v2 (queue_emplace p k v1 q) = queue_emplace p k v1 q.
Proof.
  induction q as [|[p' m] q IH]; simpl.
  - rewrite path_eqb_refl. simpl. rewrite Z.ltb_irrefl, Z.eqb_refl. reflexivity.
  - destruct (path_eqb p' p) eqn:Hp; simpl; rewrite Hp.
    + rewrite offset_map_emplace_twice. reflexivity.
    + rewrite IH. reflexivity.
Qed.

Lemma bytes_at_write_at c off b :
  0 <= off -> off + Z.of_nat (length b) <= Z.of_nat (length c) ->
  bytes_at (write_at c (Z.to_nat off) b) off (Z.of_nat (length b)) = b.
Proof.
  intros H0 H1. unfold bytes_at. rewrite write_at_in_bounds by lia.
  rewrite drop_app_length' by (rewrite length_take; lia).
  rewrite Nat2Z.id. apply take_app_length.
Qed.

(** [patched] is the replay of the entries. *)
Lemma patched_replay es : forall c, patched c es = replay es c.
Proof. induction es as [|[off bs] es IH]; intros c; [reflexivity|apply IH]. Qed.

(** A second commit over the patched file finds the staged bytes where
    the first one found the original ones, and leaves the file as it
    is. *)
Lemma commit_again es : forall c,
  forallb (entry_in_bounds (Z.of_nat (length c))) es = true ->
  entries_disjoint es = true ->
  displaced (patched c es) es = es /\ patched (patched c es) es = patched c es.
Proof.
  induction es as [|[off bs] es IH]; intros c Hb Hd; [done|].
  apply in_bounds_cons in Hb as (H0 & H1 & Hb).
  simpl in Hd. apply andb_true_iff in Hd as [Hlater Hd].
  set (c1 := write_at c (Z.to_nat off) bs).
  assert (length c1 = length c) as Hl1 by (apply length_write_at; lia).
  assert (forallb (entry_in_bounds (Z.of_nat (length c1))) es = true) as Hb1
    by (rewrite Hl1; done).
  destruct (IH c1 Hb1 Hd) as [IHd IHp].
  assert (patched c1 es = write_at (patched c es) (Z.to_nat off) bs) as Hc'.
  { rewrite !patched_replay. unfold c1. apply replay_write_at_comm.
    - unfold records_in_bounds. apply Forall_forall. intros e Hin.
      rewrite forallb_forall in Hb. apply list_elem_of_In in Hin.
      specialize (Hb e Hin). unfold entry_in_bounds in Hb.
      apply andb_true_iff in Hb as [? ?]. lia.
    - apply Forall_forall. intros e Hin. rewrite forallb_forall in Hlater.
      apply list_elem_of_In in Hin. specialize (Hlater e Hin). simpl in Hlater. lia. }
  assert (length (patched c es) = length c) as Hlp by (by apply length_patched).
  assert (write_at (patched c1 es) (Z.to_nat off) bs = patched c1 es) as Hsame.
  { rewrite Hc'. apply write_at_overwrite; [done|lia]. }
  cbn [patched displaced]. fold c1. rewrite Hsame, IHd, IHp. split; [|done].
  f_equal. f_equal. rewrite Hc'. apply bytes_at_write_at; lia.
Qed.

End SameKey.

(** C5 (as amended): when two writes are staged at the same path and
    offset, the later one is dropped -- the queue is the one the earlier
    write alone leaves -- and a commit of the two puts the bytes of the
    earlier write at that offset. *)
Theorem same_key_first_write_wins (pt : Patcher) (p : string) (off : Z)
    (b1 b2 : list byte) (fs : filesystem) (c : list byte) :
  fs !! p = Some c -> 0 <= off -> off + Z.of_nat (length b1) <= Z.of_nat (length c) ->
  snd (Patcher_write p off b2 (snd (Patcher_write p off b1 pt)))
    = snd (Patcher_write p off b1 pt) /\
  exists (fs1 : filesystem) (c1 : list byte),
    Patcher_flush (stage [(p, off, b1); (p, off, b2)]) fs = (Ok tt, fs1) /\
    fs1 !! p = Some c1 /\
    bytes_at c1 off (Z.of_nat (length b1)) = b1.
Proof.
  intros Hc H0 H1. split.
  - simpl. rewrite queue_emplace_twice. reflexivity.
  - assert (stage [(p, off, b1); (p, off, b2)] = {| write_queue := [(p, [(off, b1)])] |})
      as ->.
    { unfold stage. simpl. rewrite path_eqb_refl. simpl.
      rewrite Z.ltb_irrefl, Z.eqb_refl. reflexivity. }
    assert (forallb (entry_in_bounds (Z.of_nat (length c))) [(off, b1)] = true) as Hb.
    { simpl. unfold entry_in_bounds. simpl.
      replace (0 <=? off) with true by lia.
      replace (off + Z.of_nat (length b1) <=? Z.of_nat (length c)) with true by lia.
      reflexivity. }
    eexists. exists (write_at c (Z.to_nat off) b1). split; [|split].
    + unfold Patcher_flush. simpl. rewrite bind_run.
      rewrite (flush_path_ok fs p [(off, b1)] c Hc Hb). reflexivity.
    + simpl. rewrite lookup_insert_ne by apply orig_bytes_path_ne.
      apply lookup_insert_eq.
    + by apply bytes_at_write_at.
Qed.

Lemma same_key_first_write_wins_witness :
  snd (Patcher_write "C" 4 [x02] (snd (Patcher_write "C" 4 [x01] Patcher_new)))
    = snd (Patcher_write "C" 4 [x01] Patcher_new) /\
  exists (fs1 : filesystem) (c1 : list byte),
    Patcher_flush (stage [("C"%string, 4, [x01]); ("C"%string, 4, [x02])])
      {[ "C"%string := replicate 8 x00 ]} = (Ok tt, fs1) /\
    fs1 !! "C"%string = Some c1 /\
    bytes_at c1 4 (Z.of_nat (length [x01])) = [x01].
Proof.
  apply (same_key_first_write_wins Patcher_new "C" 4 [x01] [x02]
           {[ "C"%string := replicate 8 x00 ]} (replicate 8 x00)).
  - reflexivity.
  - lia.
  - simpl. lia.
Defined.

(** C5 (as stated) fails: after the writes [4 -> 01] and then [4 -> 02] to
    the same path, the queue holds [01], not [02], and the committed byte
    at offset 4 is [01]. *)
Lemma same_key_later_write_counterexample :
  let pt := stage [("C"%string, 4, [x01]); ("C"%string, 4, [x02])] in
  let fs : filesystem := {[ "C"%string := replicate 8 x00 ]} in
  write_queue pt = [("C"%string, [(4, [x01])])] /\
  write_queue pt <> [("C"%string, [(4, [x02])])] /\
  fst (Patcher_flush pt fs) = Ok tt /\
  (fun c => bytes_at c 4 1) <$> (snd (Patcher_flush pt fs) !! "C"%string) = Some [x01] /\
  (fun c => bytes_at c 4 1) <$> (snd (Patcher_flush pt fs) !! "C"%string) <> Some [x02].
Proof.
  vm_compute. repeat split; try reflexivity; discriminate.
Qed.

(** C7 (as amended): on a 16-byte file of [aa] bytes, the single staged
    write [4 -> 1f 20 03 d5] commits; the sidecar then holds exactly the
    line [4: aa aa aa aa ] -- every byte, the last one too, is followed by
    a space -- and a newline; the revert restores the sixteen [aa] bytes
    and removes the sidecar. *)
Theorem scenario_patch_revert_cycle (p : string) (fs : filesystem) :
  fs !! p = Some (replicate 16 xaa) ->
  exists fs1 fs2 : filesystem,
    Patcher_flush (stage [(p, 4, [x1f; x20; x03; xd5])]) fs = (Ok tt, fs1) /\
    fs1 !! orig_bytes_path p
      = Some (list_byte_of_string "4: aa aa aa aa " ++ ["010"%byte]) /\
    Patcher_revert p fs1 = (Ok tt, fs2) /\
    fs2 !! p = Some (replicate 16 xaa) /\
    fs2 !! orig_bytes_path p = None.
Proof.
  intros Hc.
  set (es := [(4, [x1f; x20; x03; xd5])] : offset_map).
  set (c := replicate 16 xaa) in *.
  assert (stage [(p, 4, [x1f; x20; x03; xd5])] = {| write_queue := [(p, es)] |}) as ->
    by reflexivity.
  assert (forallb (entry_in_bounds (Z.of_nat (length c))) es = true) as Hb by reflexivity.
  set (fs1 := <[orig_bytes_path p := sidecar_text (displaced c es)]>
                (<[p := patched c es]> fs)).
  assert (fs1 !! p = Some (patched c es)) as Hfile.
  { unfold fs1. rewrite lookup_insert_ne by apply orig_bytes_path_ne.
    apply lookup_insert_eq. }
  assert (fs1 !! orig_bytes_path p = Some (sidecar_text (displaced c es))) as Hside
    by apply lookup_insert_eq.
  exists fs1. eexists. split; [|split; [|split; [|split]]].
  - unfold Patcher_flush. simpl. rewrite bind_run.
    rewrite (flush_path_ok fs p es c Hc Hb). reflexivity.
  - rewrite Hside. reflexivity.
  - apply (revert_ok fs1 p (patched c es) (displaced c es) Hfile Hside).
    + vm_compute. reflexivity.
    + repeat constructor; vm_compute; discriminate.
  - rewrite lookup_delete_ne by apply orig_bytes_path_ne.
    rewrite lookup_insert_eq. reflexivity.
  - apply lookup_delete_eq.
Qed.

Lemma scenario_patch_revert_cycle_witness :
  exists fs1 fs2 : filesystem,
    Patcher_flush (stage [("C"%string, 4, [x1f; x20; x03; xd5])])
      {[ "C"%string := replicate 16 xaa ]} = (Ok tt, fs1) /\
    fs1 !! orig_bytes_path "C"
      = Some (list_byte_of_string "4: aa aa aa aa " ++ ["010"%byte]) /\
    Patcher_revert "C" fs1 = (Ok tt, fs2) /\
    fs2 !! "C"%string = Some (replicate 16 xaa) /\
    fs2 !! orig_bytes_path "C" = None.
Proof.
  apply (scenario_patch_revert_cycle "C" {[ "C"%string := replicate 16 xaa ]}).
  reflexivity.
Defined.

(** C7 (as stated) fails: the sidecar of the scenario is not the line
    [4: aa aa aa aa] followed directly by a newline; it is one byte longer,
    with a space before the newline. *)
Lemma scenario_sidecar_counterexample :
  let fs : filesystem := {[ "C"%string := replicate 16 xaa ]} in
  let fs1 := snd (Patcher_flush (stage [("C"%string, 4, [x1f; x20; x03; xd5])]) fs) in
  fs1 !! orig_bytes_path "C"
    <> Some (list_byte_of_string "4: aa aa aa aa" ++ ["010"%byte]) /\
  fs1 !! orig_bytes_path "C"
    = Some (list_byte_of_string "4: aa aa aa aa " ++ ["010"%byte]).
Proof.
  vm_compute. split; [discriminate|reflexivity].
Qed.

(** C9 (as amended): a commit on a [Patcher] on which no write has been
    staged since its construction returns normally and leaves the file
    system as it is, whatever files exist: no file is opened, created,
    truncated or written.  A commit does not empty the staging buffer:
    for every sequence of staged writes whose queue is [committable], a
    second commit with no write staged in between succeeds as the first
    one did, writes the same bytes to every staged file, which it leaves
    as the first commit left it, and rewrites every sidecar, which then
    records the staged bytes where it recorded the bytes of the file from
    before the first commit. *)
Theorem flush_empty_and_repeated (writes : list (string * Z * list byte)) (fs : filesystem) :
  Patcher_flush Patcher_new fs = (Ok tt, fs) /\
  Patcher_flush (stage []) fs = (Ok tt, fs) /\
  (committable fs (write_queue (stage writes)) = true ->
   exists fs1 fs2 : filesystem,
     Patcher_flush (stage writes) fs = (Ok tt, fs1) /\
     Patcher_flush (stage writes) fs1 = (Ok tt, fs2) /\
     forall p es, In (p, es) (write_queue (stage writes)) ->
       exists c : list byte,
         fs !! p = Some c /\
         fs1 !! p = Some (patched c es) /\
         fs1 !! orig_bytes_path p = Some (sidecar_text (displaced c es)) /\
         fs2 !! p = Some (patched c es) /\
         fs2 !! orig_bytes_path p = Some (sidecar_text es)).
Proof.
  split; [reflexivity|]. split; [reflexivity|].
  intros Hc. apply committable_spec in Hc as [Hok Hns].
  set (q := write_queue (stage writes)) in *.
  destruct (flush_queue_ok q fs (stage_NoDup writes) Hok Hns)
    as (fs1 & Hrun1 & _ & Hstaged1).
  assert (Forall (path_ok fs1) q) as Hok1.
  { apply Forall_forall. intros [p es] Hin.
    rewrite Forall_forall in Hok.
    destruct (Hok _ Hin) as (c & Hc & Hlen & Hb & Hd). simpl in Hc, Hb, Hd.
    destruct (Hstaged1 p es c Hin Hc) as [Hfile _].
    exists (patched c es). simpl. rewrite length_patched by done. done. }
  destruct (flush_queue_ok q fs1 (stage_NoDup writes) Hok1 Hns)
    as (fs2 & Hrun2 & _ & Hstaged2).
  exists fs1, fs2. split; [exact Hrun1|]. split; [exact Hrun2|].
  intros p es Hin. apply list_elem_of_In in Hin.
  rewrite Forall_forall in Hok.
  destruct (Hok _ Hin) as (c & Hc & Hlen & Hb & Hd). simpl in Hc, Hb, Hd.
  destruct (Hstaged1 p es c Hin Hc) as [Hfile1 Hside1].
  destruct (Hstaged2 p es (patched c es) Hin Hfile1) as [Hfile2 Hside2].
  destruct (commit_again es c Hb Hd) as [Hdis Hpat].
  rewrite Hdis in Hside2. rewrite Hpat in Hfile2.
  exists c. done.
Qed.

Lemma flush_empty_and_repeated_witness :
  exists fs1 fs2 : filesystem,
    Patcher_flush (stage [("C"%string, 0, [xa0; xa1]); ("C"%string, 4, [xb0; xb1])])
      {[ "C"%string := file_0_to_7 ]} = (Ok tt, fs1) /\
    Patcher_flush (stage [("C"%string, 0, [xa0; xa1]); ("C"%string, 4, [xb0; xb1])])
      fs1 = (Ok tt, fs2) /\
    forall p es,
      In (p, es) (write_queue
                    (stage [("C"%string, 0, [xa0; xa1]); ("C"%string, 4, [xb0; xb1])])) ->
      exists c : list byte,
        ({[ "C"%string := file_0_to_7 ]} : filesystem) !! p = Some c /\
        fs1 !! p = Some (patched c es) /\
        fs1 !! orig_bytes_path p = Some (sidecar_text (displaced c es)) /\
        fs2 !! p = Some (patched c es) /\
        fs2 !! orig_bytes_path p = Some (sidecar_text es).
Proof.
  apply (proj2 (proj2 (flush_empty_and_repeated
           [("C"%string, 0, [xa0; xa1]); ("C"%string, 4, [xb0; xb1])]
           {[ "C"%string := file_0_to_7 ]}))).
  vm_compute. reflexivity.
Defined.

(** C9 (as stated) fails for a buffer with no write staged since the last
    commit: [flush] does not empty the queue, so a second commit opens [C]
    again and truncates and rewrites its sidecar, which then records the
    patched bytes [1f] instead of the original [aa]. *)
Lemma flush_twice_counterexample :
  let fs : filesystem := {[ "C"%string := replicate 8 xaa ]} in
  let pt := stage [("C"%string, 4, [x1f])] in
  let fs1 := snd (Patcher_flush pt fs) in
  let fs2 := snd (Patcher_flush pt fs1) in
  fst (Patcher_flush pt fs) = Ok tt /\
  fst (Patcher_flush pt fs1) = Ok tt /\
  fs1 !! orig_bytes_path "C" = Some (list_byte_of_string "4: aa " ++ ["010"%byte]) /\
  fs2 !! orig_bytes_path "C" = Some (list_byte_of_string "4: 1f " ++ ["010"%byte]) /\
  fs2 !! orig_bytes_path "C" <> fs1 !! orig_bytes_path "C".
Proof.
  cbv zeta. split; [vm_compute; reflexivity|]. split; [vm_compute; reflexivity|].
  split; [vm_compute; reflexivity|]. split; [vm_compute; reflexivity|].
  vm_compute. discriminate.
Qed.

(** ** Bit fields *)

Section Bits.

Lemma wrap_small w x : 0 <= x < 2 ^ w -> wrap w x = x.
Proof. intros H. unfold wrap. by apply Z.mod_small. Qed.

Lemma make_bit_mask_ones w s l :
  0 <= s -> 0 <= l -> s + l <= w ->
  make_bit_mask w s l = Z.shiftl (Z.ones l) s.
Proof.
  intros Hs Hl Hw. unfold make_bit_mask.
  replace (Z.shiftl 1 l - 1) with (Z.ones l) by (unfold Z.ones; lia).
  apply wrap_small. rewrite Z.shiftl_mul_pow2 by lia.
  rewrite Z.ones_equiv.
  assert (0 < 2 ^ l) by (apply Z.pow_pos_nonneg; lia).
  assert (0 < 2 ^ s) by (apply Z.pow_pos_nonneg; lia).
  assert (2 ^ l * 2 ^ s <= 2 ^ w).
  { rewrite <- Z.pow_add_r by lia. apply Z.pow_le_mono_r; lia. }
  nia.
Qed.

(** [bit_extract] is the field of [l] bits that starts at bit [s]. *)
Lemma bit_extract_div_mod w v s l :
  0 <= v < 2 ^ w -> 0 <= s -> 0 <= l -> s + l <= w ->
  bit_extract w v s l = (v / 2 ^ s) mod 2 ^ l.
Proof.
  intros Hv Hs Hl Hw. unfold bit_extract.
  rewrite make_bit_mask_ones by lia.
  rewrite Z.shiftr_land, Z.shiftr_shiftl_l, Z.sub_diag, Z.shiftl_0_r by lia.
  rewrite Z.land_ones, Z.shiftr_div_pow2 by lia.
  apply wrap_small.
  assert (0 < 2 ^ l) by (apply Z.pow_pos_nonneg; lia).
  pose proof (Z.mod_pos_bound (v / 2 ^ s) (2 ^ l)).
  assert (2 ^ l <= 2 ^ w) by (apply Z.pow_le_mono_r; lia).
  lia.
Qed.

Lemma bit_test_testbit w v i :
  0 <= i < w -> bit_test w v i = Z.testbit v i.
Proof.
  intros Hi. unfold bit_test.
  rewrite make_bit_mask_ones by lia.
  change (Z.ones 1) with 1.
  assert (forall b m, 0 < m -> Z.testbit (Z.b2z b) m = false) as Hhigh.
  { intros [] m Hm; simpl; [|apply Z.bits_0].
    apply Z.bits_above_log2; simpl; lia. }
  assert (Z.land v (Z.shiftl 1 i) = Z.shiftl (Z.b2z (Z.testbit v i)) i) as ->.
  { apply Z.bits_inj'. intros n Hn.
    rewrite Z.land_spec, !Z.shiftl_spec by lia.
    destruct (Z.lt_trichotomy n i) as [Hlt|[->|Hgt]].
    - rewrite !(Z.testbit_neg_r _ (n - i)) by lia. apply andb_false_r.
    - rewrite Z.sub_diag. rewrite Z.b2z_bit0. change 1 with (Z.b2z true).
      rewrite Z.b2z_bit0. apply andb_true_r.
    - change 1 with (Z.b2z true). rewrite !Hhigh by lia. apply andb_false_r. }
  destruct (Z.testbit v i); simpl Z.b2z.
  - rewrite Z.shiftl_mul_pow2 by lia.
    assert (0 < 2 ^ i) by (apply Z.pow_pos_nonneg; lia).
    replace (1 * 2 ^ i =? 0) with false by lia. reflexivity.
  - rewrite Z.shiftl_0_l. reflexivity.
Qed.

Lemma le_to_Z_bounds bs : 0 <= le_to_Z bs < 256 ^ Z.of_nat (length bs).
Proof.
  induction bs as [|b bs IH]; [simpl; lia|].
  simpl le_to_Z. simpl length.
  replace (Z.of_nat (S (length bs))) with (1 + Z.of_nat (length bs)) by lia.
  rewrite Z.pow_add_r by lia.
  assert (0 <= byte_to_Z b < 256).
  { unfold byte_to_Z. pose proof (Byte.to_N_bounded b). lia. }
  lia.
Qed.

End Bits.

Section ReadPtr.

Lemma seek_stream_beg_good off c p :
  0 <= off ->
  seek_stream off ios_beg {| s_data := c; s_pos := p; s_good := true |} =
  (Ok tt, {| s_data := c; s_pos := off; s_good := true |}).
Proof.
  intros H. unfold seek_stream. simpl. replace (off <? 0) with false by lia. reflexivity.
Qed.

Lemma read_stream_good n c p :
  0 <= n -> Z.of_nat (length (bytes_at c p n)) = n ->
  read_stream n {| s_data := c; s_pos := p; s_good := true |} =
  (Ok (bytes_at c p n), {| s_data := c; s_pos := p + n; s_good := true |}).
Proof.
  intros Hn Hl. unfold read_stream. simpl. rewrite Hl, Z.ltb_irrefl. reflexivity.
Qed.

End ReadPtr.

(** C2: [read_ptr_at] on a stream that holds the eight bytes [bs], read
    little-endian as the fixup word [w], at offset [off].  With bit 63
    clear the target is [w mod 2^36]; with bits 63 and 62 set the call
    throws (authenticated bind); with bit 63 set, bit 62 clear and the
    nineteen bits from bit 32 all zero it throws (plain bind); otherwise
    the target is [w mod 2^32].  A target [V] is returned as it is when
    [V > image_base], and as the 64-bit sum of [V] and the Main cache's
    [cache_base] otherwise. *)
Theorem read_ptr_at_fixup (a : CacheAnalyser.t) (image_base off : Z)
    (s : stream) (bs : list byte) :
  s_good s = true -> 0 <= off ->
  bytes_at (s_data s) off 8 = bs -> length bs = 8%nat ->
  let w := le_to_Z bs in
  let main_base := DyldCacheHeader.cache_base (snd (CacheAnalyser.main_cache a)) in
  let rebased V := if image_base <? V then V else (V + main_base) mod 2 ^ 64 in
  0 <= w < 2 ^ 64 /\
  fst (CacheAnalyser.read_ptr_at a image_base off s) =
    if Z.testbit w 63
    then if Z.testbit w 62
         then Throw (runtime_error "stumbled upon auth_bind pointer")
         else if (w / 2 ^ 32) mod 2 ^ 19 =? 0
              then Throw (runtime_error "stumbled upon bind pointer")
              else Ok (rebased (w mod 2 ^ 32))
    else Ok (rebased (w mod 2 ^ 36)).
Proof.
  intros Hgood Hoff Hbs Hlen w main_base rebased.
  assert (0 <= w < 2 ^ 64) as Hw.
  { pose proof (le_to_Z_bounds bs) as H. rewrite Hlen in H. exact H. }
  split; [exact Hw|].
  destruct s as [c p g]. simpl in Hgood, Hbs. subst g.
  unfold CacheAnalyser.read_ptr_at.
  rewrite bind_run, seek_stream_beg_good by done.
  unfold read_u64_le. rewrite !bind_run.
  rewrite read_stream_good by (rewrite ?Hbs, ?Hlen; lia).
  rewrite ret_run, Hbs. fold w.
  rewrite !bit_test_testbit by lia.
  rewrite !bit_extract_div_mod by lia.
  change (2 ^ 0) with 1. rewrite Z.div_1_r.
  fold main_base. unfold u64, wrap.
  destruct (Z.testbit w 63); [destruct (Z.testbit w 62)|]; try reflexivity.
  destruct ((w / 2 ^ 32) mod 2 ^ 19 =? 0); reflexivity.
Qed.

Lemma read_ptr_at_fixup_witness :
  fst (CacheAnalyser.read_ptr_at fixup_analyser 0x1000 8 fixup_stream) = Ok 0x1234.
Proof.
  pose proof (read_ptr_at_fixup fixup_analyser 0x1000 8 fixup_stream
                [x34; x12; x00; x00; x00; x00; x01; x80]) as H.
  destruct H as [_ H]; [reflexivity | lia | reflexivity | reflexivity |].
  rewrite H. vm_compute. reflexivity.
Defined.

(** The two rejected kinds of fixup word: a plain bind and an
    authenticated bind. *)
Example read_ptr_at_rejects_binds :
  fst (CacheAnalyser.read_ptr_at fixup_analyser 0x1000 0 plain_bind_stream)
    = Throw (runtime_error "stumbled upon bind pointer") /\
  fst (CacheAnalyser.read_ptr_at fixup_analyser 0x1000 0 auth_bind_stream)
    = Throw (runtime_error "stumbled upon auth_bind pointer").
Proof. split; vm_compute; reflexivity. Qed.

(** ** Framework matchers *)

Section Matchers.

Lemma substring_skip pre : forall t n,
  String.substring (String.length pre) n (pre +:+ t) = String.substring 0 n t.
Proof. induction pre as [|a pre IH]; intros t n; simpl; [reflexivity|apply IH]. Qed.

Lemma prefix_split e : forall t, String.prefix e t = true -> exists r, t = e +:+ r.
Proof.
  induction e as [|a e IH]; intros t H.
  - by exists t.
  - destruct t as [|b t]; [discriminate|]. simpl in H.
    destruct (ascii_dec a b) as [->|]; [|discriminate].
    destruct (IH t H) as [r ->]. by exists r.
Qed.

Lemma append_inv_head (s a b : string) : s +:+ a = s +:+ b -> a = b.
Proof. apply String.app_inj. Qed.

Lemma prefix_app e r : String.prefix e (e +:+ r) = true.
Proof.
  induction e as [|a e IH]; [by destruct r|]. simpl.
  destruct (ascii_dec a a); [exact IH|done].
Qed.

(** A comparison of the [length e] characters after [pre] with [e] is a
    prefix test on what follows [pre]; it does not throw. *)
Lemma substr_is_at pre t e :
  substr_is (pre +:+ t) (String.length pre) (String.length e) e
    = Ok (String.prefix e t).
Proof.
  unfold substr_is, substr.
  rewrite string_length_app.
  replace (String.length pre + String.length t <? String.length pre)%nat with false
    by (symmetry; apply Nat.ltb_ge; lia).
  rewrite substring_skip. f_equal.
  destruct (String.prefix e t) eqn:Hp.
  - apply String.eqb_eq. by apply prefix_correct.
  - apply String.eqb_neq. intros Heq. apply prefix_correct in Heq. congruence.
Qed.

Lemma substr_is_at' s pre t e pos n :
  s = pre +:+ t -> pos = String.length pre -> n = String.length e ->
  substr_is s pos n e = Ok (String.prefix e t).
Proof. intros -> -> ->. apply substr_is_at. Qed.

Lemma string_app_assoc (a b c : string) : (a +:+ b) +:+ c = a +:+ (b +:+ c).
Proof.
  induction a as [|x a IH]; [reflexivity|].
  change (String x ((a +:+ b) +:+ c) = String x (a +:+ (b +:+ c))).
  by rewrite IH.
Qed.

(** [matches_with_base] answers [true] exactly on the strings that start
    with one of the two shapes. *)
Lemma matches_with_base_iff name base str :
  matches_with_base name base str = true <->
  exists rest,
    str = base +:+ name +:+ FRAMEWORK_EXT +:+ name +:+ rest \/
    str = base +:+ name +:+ FRAMEWORK_EXT +:+ VERSIONS_A +:+ name +:+ rest.
Proof.
  unfold matches_with_base.
  rewrite (substr_is_at' str "" str base) by reflexivity.
  destruct (String.prefix base str) eqn:H1; simpl and_then.
  2:{ split; [discriminate|]. intros [rest [-> | ->]]; by rewrite prefix_app in H1. }
  apply prefix_split in H1 as [t1 ->].
  rewrite (substr_is_at' _ base t1 name) by reflexivity.
  destruct (String.prefix name t1) eqn:H2; simpl and_then.
  2:{ split; [discriminate|].
      intros [rest [Heq | Heq]]; apply append_inv_head in Heq; subst t1;
        by rewrite prefix_app in H2. }
  apply prefix_split in H2 as [t2 ->].
  rewrite (substr_is_at' _ (base +:+ name) t2 FRAMEWORK_EXT)
    by (rewrite ?string_app_assoc, ?string_length_app; reflexivity).
  destruct (String.prefix FRAMEWORK_EXT t2) eqn:H3; simpl and_then.
  2:{ split; [discriminate|].
      intros [rest [Heq | Heq]]; do 2 apply append_inv_head in Heq; subst t2;
        by rewrite prefix_app in H3. }
  apply prefix_split in H3 as [t3 ->].
  rewrite (substr_is_at' _ (base +:+ name +:+ FRAMEWORK_EXT) t3 name)
    by (rewrite ?string_app_assoc, ?string_length_app; unfold FRAMEWORK_EXT_SIZE; lia
        || reflexivity).
  rewrite (substr_is_at' _ (base +:+ name +:+ FRAMEWORK_EXT) t3 VERSIONS_A)
    by (rewrite ?string_app_assoc, ?string_length_app; unfold FRAMEWORK_EXT_SIZE; lia
        || reflexivity).
  destruct (String.prefix name t3) eqn:H4; simpl or_else.
  { split; [intros _|reflexivity].
    apply prefix_split in H4 as [t4 ->]. exists t4. by left. }
  destruct (String.prefix VERSIONS_A t3) eqn:H5; simpl and_then.
  2:{ split; [discriminate|].
      intros [rest [Heq | Heq]]; do 3 apply append_inv_head in Heq; subst t3;
        by rewrite prefix_app in H4 || by rewrite prefix_app in H5. }
  apply prefix_split in H5 as [t5 ->].
  rewrite (substr_is_at' _ (base +:+ name +:+ FRAMEWORK_EXT +:+ VERSIONS_A) t5 name)
    by (rewrite ?string_app_assoc, ?string_length_app;
        unfold FRAMEWORK_EXT_SIZE, VERSIONS_A_SIZE; lia || reflexivity).
  destruct (String.prefix name t5) eqn:H6.
  - split; [intros _|reflexivity].
    apply prefix_split in H6 as [t6 ->]. exists t6. by right.
  - split; [discriminate|].
    intros [rest [Heq | Heq]]; do 3 apply append_inv_head in Heq.
    + rewrite Heq in H4. by rewrite prefix_app in H4.
    + apply append_inv_head in Heq. subst. by rewrite prefix_app in H6.
Qed.

End Matchers.

(** C6 (as amended): for every framework name [N], the public-framework
    matcher answers [true] exactly on the strings that start with
    [/System/Library/Frameworks/N.framework/N] or with
    [/System/Library/Frameworks/N.framework/Versions/A/N], and the
    private-framework matcher likewise under
    [/System/Library/PrivateFrameworks/]; whatever follows the final [N] is
    not looked at. *)
Theorem framework_matchers_match_by_prefix (N str : string) :
  (matches (FrameworkMatch N) str = true <->
   exists rest,
     str = "/System/Library/Frameworks/" +:+ N +:+ ".framework/" +:+ N +:+ rest \/
     str = "/System/Library/Frameworks/" +:+ N +:+ ".framework/" +:+ "Versions/A/"
             +:+ N +:+ rest) /\
  (matches (PrivateFrameworkMatch N) str = true <->
   exists rest,
     str = "/System/Library/PrivateFrameworks/" +:+ N +:+ ".framework/" +:+ N +:+ rest \/
     str = "/System/Library/PrivateFrameworks/" +:+ N +:+ ".framework/" +:+ "Versions/A/"
             +:+ N +:+ rest).
Proof. split; apply matches_with_base_iff. Qed.

Lemma framework_matchers_match_by_prefix_witness :
  matches (FrameworkMatch "CoreImage")
    "/System/Library/Frameworks/CoreImage.framework/Versions/A/CoreImage" = true.
Proof.
  apply (proj1 (framework_matchers_match_by_prefix "CoreImage"
    "/System/Library/Frameworks/CoreImage.framework/Versions/A/CoreImage")).
  exists ""%string. right. reflexivity.
Defined.

(** C6 (as stated) fails: the public matcher for [CoreImage] accepts an
    install path that goes on after the final name, which has neither of
    the two shapes. *)
Lemma framework_matcher_exact_counterexample :
  let str := "/System/Library/Frameworks/CoreImage.framework/CoreImageExtra"%string in
  matches (FrameworkMatch "CoreImage") str = true /\
  str <> "/System/Library/Frameworks/CoreImage.framework/CoreImage"%string /\
  str <> "/System/Library/Frameworks/CoreImage.framework/Versions/A/CoreImage"%string.
Proof. cbv zeta. split; [reflexivity|]. split; discriminate. Qed.

Section Scan.

(** The address the scans compute for candidate [i], written out. *)
Lemma scan_addr_explicit start_addr rev i :
  Assembler.scan_addr start_addr rev i =
    (if rev then start_addr - 4 * i else start_addr + 4 * i) mod 2 ^ 64.
Proof.
  unfold Assembler.scan_addr, u64, wrap, Assembler.INST_NUM_BYTES. destruct rev.
  - rewrite Zminus_mod_idemp_r. f_equal. lia.
  - rewrite Zplus_mod_idemp_r. f_equal. lia.
Qed.

(** With the sentinel as target the loop of [find_bl] is the loop that
    only tests the mask. *)
Lemma find_bl_loop_no_target start_addr rev n : forall i s,
  Assembler.find_bl_loop n i start_addr (2 ^ 64 - 1) rev s
    = find_first_bl_loop n i start_addr rev s.
Proof.
  induction n as [|n IH]; intros i s; [reflexivity|].
  cbn [Assembler.find_bl_loop find_first_bl_loop]. rewrite !bind_run.
  destruct (read_u32_le s) as [[inst|e] s3]; [|reflexivity].
  rewrite !bind_run.
  change (- (Assembler.INST_NUM_BYTES * 2)) with (- 8).
  set (back := if rev then seek_stream (- 8) ios_cur else ret tt).
  destruct (back s3) as [[[]|e] s4]; [|reflexivity].
  replace (2 ^ 64 - 1 =? u64 (-1)) with true by reflexivity.
  rewrite orb_true_l, andb_true_r.
  change Assembler.BL_INST_MASK with 0xFC000000.
  change Assembler.BL_INST with 0x94000000.
  destruct (Z.land inst 0xFC000000 =? 0x94000000); [|apply IH].
  rewrite scan_addr_explicit. reflexivity.
Qed.

End Scan.

(** C10: [find_bl] with [target_addr = 2^64 - 1], the default, never
    compares branch targets: on every stream, with every header, start
    address, direction and limit, it is the scan for the first instruction
    that matches the BL mask and value, and it answers with the address of
    that instruction, [4 * i] bytes after the start address for candidate
    [i] of a forward scan and [4 * i] bytes before it in a reverse scan.
    So a search for the target [2^64 - 1] cannot tell a BL that branches
    there from any other BL: in the stream [example_bl_stream], scanned
    from address 3, it answers 3, where a BL to address 11 sits, although
    the BL at address 7 is the one that branches to [2^64 - 1].  Over two
    NOPs and a BL it answers 8 from address 0, and scanning
    [example_bl_stream] in reverse from address 11 it answers 7. *)
Theorem find_bl_no_target_is_first_bl :
  (forall header start_addr rev inst_limit s,
     Assembler.find_bl header start_addr (2 ^ 64 - 1) rev inst_limit s
       = find_first_bl header start_addr rev inst_limit s) /\
  Assembler.find_bl_default_target = 2 ^ 64 - 1 /\
  Assembler.disas_bl 3 0x94000002 = 11 /\
  Assembler.disas_bl 7 0x97FFFFFE = 2 ^ 64 - 1 /\
  fst (Assembler.find_bl example_bl_header 3 (2 ^ 64 - 1) false 0x400 example_bl_stream)
    = Ok 3 /\
  fst (Assembler.find_bl example_bl_header 3 11 false 0x400 example_bl_stream) = Ok 3 /\
  fst (Assembler.find_bl example_bl_header 7 (2 ^ 64 - 1) false 0x400 example_bl_stream)
    = Ok 7 /\
  fst (Assembler.find_bl example_bl_header 0 (2 ^ 64 - 1) false 0x400 example_nop_bl_stream)
    = Ok 8 /\
  fst (Assembler.find_bl example_bl_header 11 (2 ^ 64 - 1) true 0x400 example_bl_stream)
    = Ok 7 /\
  fst (find_first_bl example_bl_header 0 false 0x400 example_nop_bl_stream) = Ok 8 /\
  fst (find_first_bl example_bl_header 11 true 0x400 example_bl_stream) = Ok 7.
Proof.
  split; [|repeat split; vm_compute; reflexivity].
  intros header start_addr rev inst_limit s.
  unfold Assembler.find_bl, find_first_bl.
  rewrite !bind_run.
  destruct (Assembler.lift _ s) as [[base|e] s1]; [|reflexivity].
  rewrite !bind_run.
  destruct (seek_stream base ios_beg s1) as [[[]|e] s2]; [|reflexivity].
  apply find_bl_loop_no_target.
Qed.

(** ** Encoding ADRP and ADD *)

Section Encoding.

Lemma land_shiftl_mask x m k :
  0 <= k -> Z.land x (Z.shiftl m k) = Z.shiftl (Z.land (Z.shiftr x k) m) k.
Proof.
  intros Hk. apply Z.bits_inj'. intros n Hn.
  rewrite Z.land_spec.
  destruct (Z.lt_ge_cases n k) as [Hlt|Hge].
  - rewrite !Z.shiftl_spec_low by lia. apply andb_false_r.
  - rewrite !Z.shiftl_spec_high by lia.
    rewrite Z.land_spec, Z.shiftr_spec by lia.
    do 2 f_equal. lia.
Qed.

Lemma page_of_eq x : 0 <= x < 2 ^ 64 -> page_of x = x - x mod 4096.
Proof.
  intros Hx. unfold page_of.
  change 0xFFFFFFFFFFFFF000 with (Z.shiftl (Z.ones 52) 12).
  rewrite land_shiftl_mask by lia.
  rewrite Z.land_ones, Z.shiftr_div_pow2, Z.shiftl_mul_pow2 by lia.
  change (2 ^ 12) with 4096.
  rewrite Z.mod_small.
  - pose proof (Z.div_mod x 4096). lia.
  - split; [apply Z.div_pos; lia|].
    apply Z.div_lt_upper_bound; lia.
Qed.

Lemma lor_add_mul c k b :
  0 <= c -> 0 <= k -> 0 <= b < 2 ^ k -> Z.lor (c * 2 ^ k) b = c * 2 ^ k + b.
Proof.
  intros Hc Hk Hb.
  rewrite <- Z.lxor_lor, <- Z.add_nocarry_lxor; try reflexivity.
  all: apply Z.bits_inj'; intros n Hn; rewrite Z.land_spec, Z.bits_0.
  all: rewrite <- Z.shiftl_mul_pow2 by lia.
  all: destruct (Z.lt_ge_cases n k) as [Hlt|Hge];
    [rewrite Z.shiftl_spec_low by lia; reflexivity|].
  all: destruct (Z.eq_dec b 0) as [->|Hnz];
    [rewrite Z.bits_0; apply andb_false_r|].
  all: rewrite (Z.bits_above_log2 b n); [apply andb_false_r|lia|].
  all: apply Z.log2_lt_pow2; [lia|].
  all: apply Z.lt_le_trans with (2 ^ k); [lia|apply Z.pow_le_mono_r; lia].
Qed.

(** The field of [len] bits at [lo] of a word put together from a high
    part, the field and a low part. *)
Lemma field_of_parts hi v low lo len :
  0 <= lo -> 0 <= len -> 0 <= hi -> 0 <= v < 2 ^ len -> 0 <= low < 2 ^ lo ->
  field (hi * 2 ^ (lo + len) + v * 2 ^ lo + low) lo len = v.
Proof.
  intros Hlo Hlen Hhi Hv Hlow. unfold field.
  rewrite Z.pow_add_r by lia.
  replace (hi * (2 ^ lo * 2 ^ len) + v * 2 ^ lo + low)
    with ((hi * 2 ^ len + v) * 2 ^ lo + low) by ring.
  assert (0 < 2 ^ lo) by (apply Z.pow_pos_nonneg; lia).
  rewrite Z.div_add_l by lia.
  rewrite Z.div_small by lia. rewrite Z.add_0_r.
  rewrite Z.add_comm, Z.mod_add by lia. apply Z.mod_small. lia.
Qed.

Lemma GPReg_val_bounds reg : 0 <= GPReg_val reg < 16.
Proof. destruct reg; simpl; lia. Qed.

Lemma byte_to_of_Z x : byte_to_Z (byte_of_Z x) = x mod 256.
Proof.
  unfold byte_of_Z, byte_to_Z, u8, wrap. change (2 ^ 8) with 256.
  pose proof (Z.mod_pos_bound x 256 ltac:(lia)) as Hb.
  destruct (Byte.of_N (Z.to_N (x mod 256))) as [b|] eqn:Hof.
  - apply Byte.to_of_N in Hof. rewrite Hof. lia.
  - pose proof (Byte.to_of_N_option_map (Z.to_N (x mod 256))) as H.
    rewrite Hof in H. simpl in H.
    replace (Z.to_N (x mod 256) <=? 255)%N with true in H; [discriminate|].
    symmetry. apply N.leb_le. lia.
Qed.

(** The four bytes staged for an instruction are its little-endian
    encoding. *)
Lemma le_to_Z_u32_to_bytes inst :
  0 <= inst < 2 ^ 32 -> le_to_Z (Assembler.u32_to_bytes inst) = inst.
Proof.
  intros H. unfold Assembler.u32_to_bytes. simpl le_to_Z.
  rewrite !byte_to_of_Z.
  change 255 with (Z.ones 8). rewrite !Z.land_ones, !Z.shiftr_div_pow2 by lia.
  change (2 ^ 8) with 256. change (2 ^ 16) with 65536. change (2 ^ 24) with 16777216.
  rewrite !Z.mod_mod by lia.
  pose proof (Z.div_mod inst 256 ltac:(lia)).
  pose proof (Z.div_mod (inst / 256) 256 ltac:(lia)).
  pose proof (Z.div_mod (inst / 256 / 256) 256 ltac:(lia)).
  rewrite !Z.div_div in * by lia.
  change (256 * 256 * 256) with 16777216 in *. change (256 * 256) with 65536 in *.
  assert (inst / 16777216 < 256) by (apply Z.div_lt_upper_bound; lia).
  assert (0 <= inst / 16777216) by (apply Z.div_pos; lia).
  rewrite (Z.mod_small (inst / 16777216)) by lia.
  lia.
Qed.

End Encoding.

Section Adrp.

Lemma mod_neg_range x m : - m <= x < 0 -> x mod m = x + m.
Proof.
  intros H. rewrite <- (Z.mod_add x 1 m) by lia.
  rewrite Z.mul_1_l. apply Z.mod_small. lia.
Qed.

Lemma u32_small x : 0 <= x < 2 ^ 32 -> u32 x = x.
Proof. apply wrap_small. Qed.

Lemma u64_small x : 0 <= x < 2 ^ 64 -> u64 x = x.
Proof. apply wrap_small. Qed.

(** The word [make_adrp] builds, field by field. *)
Lemma make_adrp_value off reg :
  - 0xFFFFF <= off <= 0xFFFFF ->
  let u := off mod 2 ^ 32 in
  Assembler.make_adrp off reg =
    Ok (0x90000000 + (u mod 4) * 2 ^ 29 + ((u / 4) mod 2 ^ 19) * 2 ^ 5 + GPReg_val reg).
Proof.
  intros Hoff u. unfold Assembler.make_adrp.
  change Assembler.ADRP_IMM_MAX with 0xFFFFF.
  destruct (Z.ltb_spec 0xFFFFF off) as [?|_]; [lia|].
  destruct (Z.ltb_spec off (Z.opp 0xFFFFF)) as [?|_]; [lia|].
  simpl orb. cbv iota.
  assert (0 <= u < 2 ^ 32) as Hu by (apply Z.mod_pos_bound; lia).
  change (u32 off) with u.
  rewrite !bit_extract_div_mod by lia.
  change (2 ^ 0) with 1. rewrite Z.div_1_r.
  change (2 ^ 2) with 4.
  assert (0 <= u mod 4 < 4) as Hlo by (apply Z.mod_pos_bound; lia).
  assert (0 <= (u / 4) mod 2 ^ 19 < 2 ^ 19) as Hhi by (apply Z.mod_pos_bound; lia).
  pose proof (GPReg_val_bounds reg) as Hreg.
  set (lo := u mod 4) in *. set (hi := (u / 4) mod 2 ^ 19) in *.
  clearbody lo hi. clear Hu. clearbody u.
  rewrite !Z.shiftl_mul_pow2 by lia.
  rewrite !u32_small by lia.
  f_equal.
  assert (Z.lor Assembler.ADRP_INST (lo * 2 ^ 29) = (144 + lo * 32) * 2 ^ 24) as ->.
  { assert (lo = 0 \/ lo = 1 \/ lo = 2 \/ lo = 3) as Hc by lia.
    destruct Hc as [-> | [-> | [-> | ->]]]; reflexivity. }
  rewrite lor_add_mul by lia.
  replace ((144 + lo * 32) * 2 ^ 24 + hi * 2 ^ 5)
    with (((144 + lo * 32) * 2 ^ 19 + hi) * 2 ^ 5) by lia.
  rewrite lor_add_mul by lia.
  lia.
Qed.

(** Read back as ADRP, the word has the register and the page offset it
    was built from. *)
Lemma make_adrp_decode off reg :
  - 0xFFFFF <= off <= 0xFFFFF ->
  exists inst,
    Assembler.make_adrp off reg = Ok inst /\ 0 <= inst < 2 ^ 32 /\
    is_adrp inst = true /\ adrp_rd inst = GPReg_val reg /\
    adrp_page_offset inst = off.
Proof.
  intros Hoff. eexists. split; [by apply make_adrp_value|].
  set (u := off mod 2 ^ 32).
  assert (0 <= u < 2 ^ 32) as Hu by (apply Z.mod_pos_bound; lia).
  set (lo := u mod 4). set (hi := (u / 4) mod 2 ^ 19).
  assert (0 <= lo < 4) as Hlo by (apply Z.mod_pos_bound; lia).
  assert (0 <= hi < 2 ^ 19) as Hhi by (apply Z.mod_pos_bound; lia).
  pose proof (GPReg_val_bounds reg) as Hreg.
  set (r := GPReg_val reg) in *.
  assert (u mod 2 ^ 21 = lo + 4 * hi) as Hu21.
  { change (2 ^ 21) with (4 * 2 ^ 19). apply Z.rem_mul_r; lia. }
  assert (u mod 2 ^ 21 = off mod 2 ^ 21) as Hoff21.
  { unfold u. destruct (Z.lt_ge_cases off 0).
    - rewrite (mod_neg_range off (2 ^ 32)) by lia.
      rewrite (mod_neg_range off (2 ^ 21)) by lia.
      replace (off + 2 ^ 32) with (off + 2 ^ 21 + 2047 * 2 ^ 21) by lia.
      rewrite Z.mod_add by lia. apply Z.mod_small. lia.
    - rewrite (Z.mod_small off (2 ^ 32)) by lia. reflexivity. }
  split; [lia|]. split; [|split].
  - unfold is_adrp.
    replace (0x90000000 + lo * 2 ^ 29 + hi * 2 ^ 5 + r)
      with (0 * 2 ^ (31 + 1) + 1 * 2 ^ 31 + (2 ^ 28 + lo * 2 ^ 29 + hi * 2 ^ 5 + r))
      at 1 by lia.
    rewrite field_of_parts by lia.
    replace (0x90000000 + lo * 2 ^ 29 + hi * 2 ^ 5 + r)
      with ((4 + lo) * 2 ^ (24 + 5) + 16 * 2 ^ 24 + (hi * 2 ^ 5 + r)) by lia.
    rewrite field_of_parts by lia. reflexivity.
  - unfold adrp_rd.
    replace (0x90000000 + lo * 2 ^ 29 + hi * 2 ^ 5 + r)
      with ((75497472 + lo * 2 ^ 24 + hi) * 2 ^ (0 + 5) + r * 2 ^ 0 + 0) by lia.
    apply field_of_parts; lia.
  - unfold adrp_page_offset.
    replace (0x90000000 + lo * 2 ^ 29 + hi * 2 ^ 5 + r)
      with ((144 + lo * 32) * 2 ^ (5 + 19) + hi * 2 ^ 5 + r) at 1 by lia.
    rewrite field_of_parts by lia.
    replace (0x90000000 + lo * 2 ^ 29 + hi * 2 ^ 5 + r)
      with (1 * 2 ^ (29 + 2) + lo * 2 ^ 29 + (2 ^ 28 + hi * 2 ^ 5 + r)) by lia.
    rewrite field_of_parts by lia.
    replace (hi * 4 + lo) with (off mod 2 ^ 21) by lia.
    unfold sign_extend_field. change (2 ^ (21 - 1)) with (2 ^ 20).
    destruct (Z.lt_ge_cases off 0).
    + rewrite (mod_neg_range off (2 ^ 21)) by lia.
      replace (off + 2 ^ 21 <? 2 ^ 20) with false by lia. lia.
    + rewrite (Z.mod_small off (2 ^ 21)) by lia.
      replace (off <? 2 ^ 20) with true by lia. reflexivity.
Qed.

(** The word [make_add] builds for a 64-bit ADD of a 12-bit immediate
    to a register, and its reading as ADD (immediate). *)
Lemma make_add_decode imm reg :
  0 <= imm < 4096 ->
  exists inst,
    Assembler.make_add imm true reg reg ADDShift_0 = Ok inst /\ 0 <= inst < 2 ^ 32 /\
    is_add_imm64 inst = true /\
    add_imm_rd inst = GPReg_val reg /\ add_imm_rn inst = GPReg_val reg /\
    forall xn, add_imm_exec inst xn = u64 (xn + imm).
Proof.
  intros Himm.
  pose proof (GPReg_val_bounds reg) as Hreg.
  set (r := GPReg_val reg) in *.
  assert (Assembler.make_add imm true reg reg ADDShift_0
          = Ok (0x91000000 + imm * 2 ^ 10 + r * 2 ^ 5 + r)) as Hval.
  { unfold Assembler.make_add.
    rewrite bit_extract_div_mod by lia.
    change (2 ^ 12) with 4096. rewrite (Z.div_small imm 4096) by lia.
    simpl negb. cbv iota. f_equal. fold r.
    simpl Z.b2z. simpl ADDShift_val.
    rewrite !Z.shiftl_mul_pow2 by lia.
    rewrite !u32_small by lia.
    change (Z.lor (Z.lor Assembler.ADD_INST (1 * 2 ^ 31)) (0 * 2 ^ 22))
      with (580 * 2 ^ 22).
    rewrite lor_add_mul by lia.
    replace (580 * 2 ^ 22 + imm * 2 ^ 10) with ((580 * 2 ^ 12 + imm) * 2 ^ 10) by lia.
    rewrite lor_add_mul by lia.
    replace ((580 * 2 ^ 12 + imm) * 2 ^ 10 + r * 2 ^ 5)
      with (((580 * 2 ^ 12 + imm) * 2 ^ 5 + r) * 2 ^ 5) by lia.
    rewrite lor_add_mul by lia.
    lia. }
  eexists. split; [exact Hval|]. split; [lia|].
  split; [|split; [|split]].
  - unfold is_add_imm64.
    replace (0x91000000 + imm * 2 ^ 10 + r * 2 ^ 5 + r)
      with (0 * 2 ^ (23 + 9) + 290 * 2 ^ 23 + (imm * 2 ^ 10 + r * 2 ^ 5 + r)) by lia.
    rewrite field_of_parts by lia. reflexivity.
  - unfold add_imm_rd.
    replace (0x91000000 + imm * 2 ^ 10 + r * 2 ^ 5 + r)
      with ((76021760 + imm * 2 ^ 5 + r) * 2 ^ (0 + 5) + r * 2 ^ 0 + 0) by lia.
    apply field_of_parts; lia.
  - unfold add_imm_rn.
    replace (0x91000000 + imm * 2 ^ 10 + r * 2 ^ 5 + r)
      with ((2375680 + imm) * 2 ^ (5 + 5) + r * 2 ^ 5 + r) by lia.
    apply field_of_parts; lia.
  - intros xn. unfold add_imm_exec.
    replace (0x91000000 + imm * 2 ^ 10 + r * 2 ^ 5 + r)
      with (290 * 2 ^ (22 + 1) + 0 * 2 ^ 22 + (imm * 2 ^ 10 + r * 2 ^ 5 + r))
      at 1 by lia.
    rewrite field_of_parts by lia.
    replace (0x91000000 + imm * 2 ^ 10 + r * 2 ^ 5 + r)
      with (580 * 2 ^ (10 + 12) + imm * 2 ^ 10 + (r * 2 ^ 5 + r)) by lia.
    rewrite field_of_parts by lia. reflexivity.
Qed.

End Adrp.

Section AdrpAdd.

Lemma write_inst_incr_ok p h target inst o pt :
  DyldCacheHeader.vm_addr_to_file_off h target = Ok o ->
  Assembler.write_inst_incr p h target inst pt =
    (Ok (u64 (target + 4)), snd (Patcher_write p o (Assembler.u32_to_bytes inst) pt)).
Proof.
  intros Ho. unfold Assembler.write_inst_incr, Assembler.write_inst.
  rewrite !bind_run, Ho. reflexivity.
Qed.

Lemma s32_small x : - 2 ^ 31 <= x < 2 ^ 31 -> s32 x = x.
Proof.
  intros H. unfold s32, to_signed, wrap. change (2 ^ (32 - 1)) with (2 ^ 31).
  destruct (Z.lt_ge_cases x 0).
  - rewrite (mod_neg_range x (2 ^ 32)) by lia.
    replace (x + 2 ^ 32 <? 2 ^ 31) with false by lia. lia.
  - rewrite Z.mod_small by lia. replace (x <? 2 ^ 31) with true by lia. reflexivity.
Qed.

Lemma s32_u64_neg d : 0 <= d < 2 ^ 31 -> s32 (u64 (- d)) = - d.
Proof.
  intros H. unfold s32, to_signed, u64, wrap. change (2 ^ (32 - 1)) with (2 ^ 31).
  assert ((- d) mod 2 ^ 64 mod 2 ^ 32 = (- d) mod 2 ^ 32) as ->.
  { change (2 ^ 64) with (2 ^ 32 * 2 ^ 32).
    rewrite Z.rem_mul_r by lia.
    rewrite Z.mul_comm, Z.mod_add by lia. apply Z.mod_mod. lia. }
  destruct (Z.eq_dec d 0) as [->|Hnz]; [reflexivity|].
  rewrite (mod_neg_range (- d) (2 ^ 32)) by lia.
  replace (- d + 2 ^ 32 <? 2 ^ 31) with false by lia. lia.
Qed.

Lemma page_of_facts x :
  0 <= x < 2 ^ 64 ->
  page_of x = 4096 * (x / 4096) /\ 0 <= x / 4096 < 2 ^ 52 /\
  x = page_of x + x mod 4096 /\ 0 <= x mod 4096 < 4096.
Proof.
  intros Hx. rewrite page_of_eq by done.
  pose proof (Z.div_mod x 4096 ltac:(lia)).
  pose proof (Z.mod_pos_bound x 4096 ltac:(lia)).
  assert (0 <= x / 4096) by (apply Z.div_pos; lia).
  assert (x / 4096 < 2 ^ 52) by (apply Z.div_lt_upper_bound; lia).
  lia.
Qed.

End AdrpAdd.

(** C8 (as amended): for addresses [A] and [T] that fit 64 bits, with [A]
    and [A + 4] resolved by the header, [write_adrp_add_incr] stages the
    pair exactly when the pages of [T] and [A] are at most [0xFFFFF000]
    bytes (2^20 - 1 pages) apart: an ADRP at [A] and a 64-bit ADD
    (immediate) at [A + 4], both on the given register, with the cursor
    left at [A + 8]; run at [A], the ADRP yields the page of [T] and the
    ADD then yields [T].  When the pages are further apart the call throws
    [std::invalid_argument] and the staging buffer is left as it was. *)
Theorem write_adrp_add_reconstructs_target (p : string) (h : DyldCacheHeader.t)
    (A T : Z) (reg : GPReg) (pt : Patcher) (oA oA4 : Z) :
  0 <= A < 2 ^ 64 -> 0 <= T < 2 ^ 64 ->
  DyldCacheHeader.vm_addr_to_file_off h A = Ok oA ->
  DyldCacheHeader.vm_addr_to_file_off h (u64 (A + 4)) = Ok oA4 ->
  if Z.abs (page_of T - page_of A) <=? 0xFFFFF000
  then
    exists adrp add,
      Assembler.write_adrp_add_incr p h A T reg pt =
        (Ok (u64 (A + 8)),
         snd (Patcher_write p oA4 (Assembler.u32_to_bytes add)
                (snd (Patcher_write p oA (Assembler.u32_to_bytes adrp) pt)))) /\
      le_to_Z (Assembler.u32_to_bytes adrp) = adrp /\
      le_to_Z (Assembler.u32_to_bytes add) = add /\
      is_adrp adrp = true /\ adrp_rd adrp = GPReg_val reg /\
      is_add_imm64 add = true /\
      add_imm_rd add = GPReg_val reg /\ add_imm_rn add = GPReg_val reg /\
      adrp_exec adrp A = page_of T /\
      add_imm_exec add (adrp_exec adrp A) = T
  else
    Assembler.write_adrp_add_incr p h A T reg pt =
      (Throw (invalid_argument "target too far away"), pt).
Proof.
  intros HA HT HoA HoA4.
  destruct (page_of_facts A HA) as (HpA & Ha & HA' & HAlow).
  destruct (page_of_facts T HT) as (HpT & Ht & HT' & HTlow).
  unfold Assembler.write_adrp_add_incr.
  change (Z.land A 0xFFFFFFFFFFFFF000) with (page_of A).
  change (Z.land T 0xFFFFFFFFFFFFF000) with (page_of T).
  change Assembler.ADRP_MAX with 0xFFFFF000.
  change 0xFFF with (Z.ones 12). rewrite Z.land_ones by lia. change (2 ^ 12) with 4096.
  assert (u16 (T mod 4096) = T mod 4096) as -> by (apply wrap_small; lia).
  set (a := A / 4096) in *. set (t := T / 4096) in *.
  set (pA := page_of A) in *. set (pT := page_of T) in *.
  set (low := T mod 4096) in *.
  (* the page offset handed to make_adrp, and what the first branch does *)
  assert (forall off,
            - 0xFFFFF <= off <= 0xFFFFF -> off = t - a ->
            exists adrp,
              Assembler.make_adrp off reg = Ok adrp /\
              le_to_Z (Assembler.u32_to_bytes adrp) = adrp /\
              is_adrp adrp = true /\ adrp_rd adrp = GPReg_val reg /\
              adrp_exec adrp A = pT) as Hadrp.
  { intros off Hoff Heq.
    destruct (make_adrp_decode off reg Hoff) as (adrp & Hmk & Hb & Hisa & Hrd & Hpo).
    exists adrp. split; [done|]. split; [by apply le_to_Z_u32_to_bytes|].
    split; [done|]. split; [done|].
    unfold adrp_exec. fold (page_of A). fold pA. rewrite Hpo.
    replace (pA + off * 4096) with pT by lia.
    apply u64_small. lia. }
  destruct (make_add_decode low reg HTlow) as (add & Hmkadd & Haddb & Hisadd & Hrd & Hrn & Hexec).
  assert (u64 (u64 (A + 4) + 4) = u64 (A + 8)) as Hcursor.
  { unfold u64, wrap. rewrite Zplus_mod_idemp_l. f_equal. lia. }
  lazymatch goal with
  | |- context [bind ?m _ pt] => set (first := m)
  end.
  destruct (Z.leb_spec (Z.abs (pT - pA)) 0xFFFFF000) as [Hnear|Hfar].
  - (* in range *)
    assert (exists adrp,
              first pt
              = (Ok (u64 (A + 4)),
                 snd (Patcher_write p oA (Assembler.u32_to_bytes adrp) pt)) /\
              le_to_Z (Assembler.u32_to_bytes adrp) = adrp /\
              is_adrp adrp = true /\ adrp_rd adrp = GPReg_val reg /\
              adrp_exec adrp A = pT) as (adrp & Hfirst & Hle & Hisa & Hard & Hax).
    { subst first. destruct (Z.ltb_spec pA pT) as [Hlt|Hge]; cbv zeta.
      - rewrite u64_small by lia.
        destruct (Z.ltb_spec 0xFFFFF000 (pT - pA)) as [?|_]; [lia|].
        rewrite Z.shiftr_div_pow2 by lia. change (2 ^ 12) with 4096.
        replace ((pT - pA) / 4096) with (t - a)
          by (apply Z.div_unique_exact; lia).
        rewrite s32_small by lia.
        destruct (Hadrp (t - a)) as (adrp & Hmk & Hrest); [lia|reflexivity|].
        exists adrp. split; [|exact Hrest].
        rewrite bind_run, Hmk. simpl Assembler.lift. rewrite ret_run.
        by apply write_inst_incr_ok.
      - rewrite u64_small by lia.
        destruct (Z.ltb_spec 0xFFFFF000 (pA - pT)) as [?|_]; [lia|].
        rewrite Z.shiftr_div_pow2 by lia. change (2 ^ 12) with 4096.
        replace ((pA - pT) / 4096) with (a - t)
          by (apply Z.div_unique_exact; lia).
        rewrite s32_u64_neg by lia.
        destruct (Hadrp (- (a - t))) as (adrp & Hmk & Hrest); [lia|lia|].
        exists adrp. split; [|exact Hrest].
        rewrite bind_run, Hmk. simpl Assembler.lift. rewrite ret_run.
        by apply write_inst_incr_ok. }
    exists adrp, add.
    split; [|split; [done|]; split; [by apply le_to_Z_u32_to_bytes|];
             split; [done|]; split; [done|]; split; [done|]; split; [done|];
             split; [done|]; split; [done|]].
    + rewrite bind_run, Hfirst. rewrite bind_run, Hmkadd.
      simpl Assembler.lift. rewrite ret_run.
      rewrite (write_inst_incr_ok p h (u64 (A + 4)) add oA4) by done.
      by rewrite Hcursor.
    + rewrite Hax, Hexec. replace (pT + low) with T by lia. apply u64_small. lia.
  - (* out of range *)
    rewrite bind_run. subst first.
    destruct (Z.ltb_spec pA pT) as [Hlt|Hge]; cbv zeta.
    + rewrite u64_small by lia.
      destruct (Z.ltb_spec 0xFFFFF000 (pT - pA)) as [_|?]; [reflexivity|lia].
    + rewrite u64_small by lia.
      destruct (Z.ltb_spec 0xFFFFF000 (pA - pT)) as [_|?]; [reflexivity|lia].
Qed.

Lemma write_adrp_add_reconstructs_target_witness :
  exists adrp add,
    Assembler.write_adrp_add_incr "cache" example_text_header
      0x180001004 0x180345678 R1 Patcher_new =
      (Ok (u64 (0x180001004 + 8)),
       snd (Patcher_write "cache" 0x1008 (Assembler.u32_to_bytes add)
              (snd (Patcher_write "cache" 0x1004 (Assembler.u32_to_bytes adrp)
                      Patcher_new)))) /\
    le_to_Z (Assembler.u32_to_bytes adrp) = adrp /\
    le_to_Z (Assembler.u32_to_bytes add) = add /\
    is_adrp adrp = true /\ adrp_rd adrp = GPReg_val R1 /\
    is_add_imm64 add = true /\
    add_imm_rd add = GPReg_val R1 /\ add_imm_rn add = GPReg_val R1 /\
    adrp_exec adrp 0x180001004 = page_of 0x180345678 /\
    add_imm_exec add (adrp_exec adrp 0x180001004) = 0x180345678.
Proof.
  pose proof (write_adrp_add_reconstructs_target "cache" example_text_header
                0x180001004 0x180345678 R1 Patcher_new 0x1004 0x1008) as H.
  apply H; [lia | lia | reflexivity | reflexivity].
Defined.

(** C8 (as stated) fails at the edge of its range.  With [A = 2^32] and
    [T = 0] the distance is [2^32] and the page offset is [-2^20], which
    the 21-bit immediate of ADRP can hold; with [A = 0] and [T = 2^32] the
    distance is again [2^32].  Both calls throw and stage nothing. *)
Lemma write_adrp_add_boundary_counterexample :
  Z.abs (0 - 2 ^ 32) <= 2 ^ 32 /\
  (page_of 0 - page_of (2 ^ 32)) / 4096 = - 2 ^ 20 /\
  DyldCacheHeader.vm_addr_to_file_off example_high_header (2 ^ 32) = Ok 0 /\
  DyldCacheHeader.vm_addr_to_file_off example_high_header (2 ^ 32 + 4) = Ok 4 /\
  Assembler.write_adrp_add_incr "cache" example_high_header (2 ^ 32) 0 R0 Patcher_new
    = (Throw (invalid_argument "target too far away"), Patcher_new) /\
  Z.abs (2 ^ 32 - 0) <= 2 ^ 32 /\
  DyldCacheHeader.vm_addr_to_file_off example_bl_header 0 = Ok 0 /\
  DyldCacheHeader.vm_addr_to_file_off example_bl_header 4 = Ok 4 /\
  Assembler.write_adrp_add_incr "cache" example_bl_header 0 (2 ^ 32) R0 Patcher_new
    = (Throw (invalid_argument "target too far away"), Patcher_new).
Proof. repeat split; vm_compute; congruence. Qed.

(** ** Reading leaves the stream intact *)

Section Stable.

Lemma stable_ret {A} (a : A) : stable (ret a).
Proof. intros s a' s' Hg H. injection H as <- <-. done. Qed.

Lemma stable_throw {A} e : stable (@throw stream A e).
Proof. intros s a' s' Hg H. discriminate. Qed.

Lemma stable_bind {A B} (m : M stream A) (k : A -> M stream B) :
  stable m -> (forall a, stable (k a)) -> stable (bind m k).
Proof.
  intros Hm Hk s b s' Hg H. rewrite bind_run in H.
  destruct (m s) as [[a|e] s1] eqn:E; [|discriminate].
  destruct (Hm _ _ _ Hg E) as [Hd1 Hg1].
  destruct (Hk a _ _ _ Hg1 H) as [Hd2 Hg2]. split; [congruence|done].
Qed.

Lemma stable_seek npos dir : stable (seek_stream npos dir).
Proof.
  intros s a s' Hg H. unfold seek_stream in H. rewrite Hg in H. simpl in H.
  destruct (_ <? 0); [discriminate|]. injection H as <- <-. done.
Qed.

Lemma stable_read_stream n : stable (read_stream n).
Proof.
  intros s a s' Hg H. unfold read_stream in H. rewrite Hg in H. simpl in H.
  destruct (_ <? n); [discriminate|]. injection H as <- <-. done.
Qed.

Lemma stable_tellg : stable tellg.
Proof. intros s a s' Hg H. injection H as <- <-. done. Qed.

Lemma stable_if {A} (b : bool) (m1 m2 : M stream A) :
  stable m1 -> stable m2 -> stable (if b then m1 else m2).
Proof. by destruct b. Qed.

Lemma stable_for_loop {A} (body : Z -> M stream A) n :
  (forall i, stable (body i)) -> forall i, stable (for_loop n i body).
Proof.
  intros Hb. induction n as [|n IH]; intros i; simpl.
  - apply stable_ret.
  - apply stable_bind; [apply Hb|]. intros x.
    apply stable_bind; [apply IH|]. intros xs. apply stable_ret.
Qed.

Lemma stable_read_cstr_loop rest : forall acc, stable (read_cstr_loop rest acc).
Proof.
  induction rest as [|c rest IH]; intros acc; simpl.
  - apply stable_bind; [apply stable_read_stream|]. intros ?. apply stable_ret.
  - apply stable_bind; [apply stable_read_stream|]. intros [|b [|? ?]].
    + apply stable_ret.
    + destruct (Byte.eqb b x00); [apply stable_ret|apply IH].
    + apply stable_ret.
Qed.

Lemma stable_read_cstr : stable read_cstr.
Proof.
  intros s a s' Hg H. unfold read_cstr in H. rewrite Hg in H.
  revert H. apply stable_bind; [apply stable_read_cstr_loop| |done].
  intros ?. apply stable_ret.
Qed.

Lemma stable_read_cstrn_loop n : forall acc, stable (read_cstrn_loop n acc).
Proof.
  induction n as [|n IH]; intros acc; simpl.
  - apply stable_ret.
  - apply stable_bind; [apply stable_read_stream|]. intros [|b [|? ?]].
    + apply stable_ret.
    + destruct (Byte.eqb b x00); [|apply IH].
      apply stable_bind; [apply stable_seek|]. intros ?. apply stable_ret.
    + apply stable_ret.
Qed.

Lemma stable_read_cstrn n : stable (read_cstrn n).
Proof.
  unfold read_cstrn. apply stable_bind.
  - intros s a s' Hg H. rewrite Hg in H. revert H.
    by apply stable_read_cstrn_loop.
  - intros str. apply stable_bind; [apply stable_seek|]. intros ?. apply stable_ret.
Qed.

Lemma stable_read_u32_le : stable read_u32_le.
Proof. apply stable_bind; [apply stable_read_stream|]. intros ?. apply stable_ret. Qed.

Lemma stable_read_u64_le : stable read_u64_le.
Proof. apply stable_bind; [apply stable_read_stream|]. intros ?. apply stable_ret. Qed.

Ltac stable_tac :=
  repeat first
    [ apply stable_ret | apply stable_throw | apply stable_seek
    | apply stable_read_stream | apply stable_tellg
    | apply stable_read_u32_le | apply stable_read_u64_le
    | apply stable_read_cstr | apply stable_read_cstrn
    | apply stable_for_loop; intros ?
    | apply stable_if
    | apply stable_bind; [|intros ?] ].

Lemma stable_Mapping_read : stable DyldCacheHeader.Mapping_read.
Proof. unfold DyldCacheHeader.Mapping_read. stable_tac. Qed.

Lemma stable_Image_read : stable DyldCacheHeader.Image_read.
Proof. unfold DyldCacheHeader.Image_read. stable_tac. Qed.

Lemma stable_LocalSymbolsInfo_read off is_64 cb :
  stable (DyldCacheHeader.LocalSymbolsInfo_read off is_64 cb).
Proof.
  unfold DyldCacheHeader.LocalSymbolsInfo_read, DyldCacheHeader.LocalSymbols_read.
  stable_tac.
Qed.

Lemma stable_images_phase image_off image_count :
  stable (if negb (image_off =? 0) && negb (image_count =? 0)
          then seek_stream image_off ios_beg ;;;
               for_loop (Z.to_nat image_count) 0 (fun _ => DyldCacheHeader.Image_read)
          else ret []).
Proof. stable_tac. Qed.

Lemma stable_maps_phase (b : bool) mapping_off mapping_count :
  stable (if b
          then seek_stream mapping_off ios_beg ;;;
               for_loop (Z.to_nat mapping_count) 0 (fun _ => DyldCacheHeader.Mapping_read)
          else ret []).
Proof. stable_tac. Qed.

(** Two good streams over the same file agree on whatever starts with
    an absolute seek. *)
Lemma seek_beg_same {A} off (k : M stream A) s1 s2 :
  0 <= off -> s_data s1 = s_data s2 -> s_good s1 = true -> s_good s2 = true ->
  (seek_stream off ios_beg ;;; k) s1 = (seek_stream off ios_beg ;;; k) s2.
Proof.
  intros Hoff Hd Hg1 Hg2. rewrite !bind_run. unfold seek_stream.
  rewrite Hg1, Hg2, Hd. simpl. replace (off <? 0) with false by lia. reflexivity.
Qed.

End Stable.

(** ** The version gates of the cache header *)

Section HeaderGates.

Import DyldCacheHeader.

(** One step of a computation that returned normally. *)
Tactic Notation "step" hyp(H) "as" ident(a) ident(s') ident(E) :=
  rewrite bind_run in H;
  lazymatch type of H with
  | (match ?m ?s with _ => _ end) = _ =>
      destruct (m s) as [[a | ?] s'] eqn:E; [|discriminate H]
  end.

Lemma read_u32_le_at s v s' :
  s_good s = true -> read_u32_le s = (Ok v, s') ->
  v = u32_at (s_data s) (s_pos s) /\ s_data s' = s_data s /\ s_good s' = true.
Proof.
  intros Hg H. split; [|by eapply stable_read_u32_le].
  unfold read_u32_le in H. rewrite bind_run in H. unfold read_stream in H.
  rewrite Hg in H. simpl in H.
  destruct (_ <? 4); [discriminate|]. injection H as <- _. reflexivity.
Qed.

Lemma seek_beg_state off s s' :
  s_good s = true -> seek_stream off ios_beg s = (Ok tt, s') ->
  s' = {| s_data := s_data s; s_pos := off; s_good := true |}.
Proof.
  intros Hg H. unfold seek_stream in H. rewrite Hg in H. simpl in H.
  destruct (off <? 0); [discriminate|]. by injection H as <-.
Qed.

Lemma parse_head_main b s off h0 s1 :
  s_good s = true ->
  parse_head Main b s = (Ok (off, h0), s1) ->
  s_data s1 = s_data s /\ s_good s1 = true /\
  off = u32_at (s_data s) 0x10 /\
  (off < 0x190 -> symbol_file_uuid h0 = DyldUUID_default) /\
  (0x190 <= off -> fst (read_uuid_at 0x190 s) = Ok (symbol_file_uuid h0)).
Proof.
  intros Hg H.
  assert (stable (parse_head Main b)) as Hst.
  { unfold parse_head. simpl Type_eqb. cbv iota.
    repeat first
      [ apply stable_ret | apply stable_seek | apply stable_read_stream
      | apply stable_read_u32_le | apply stable_read_u64_le
      | apply stable_maps_phase | apply stable_LocalSymbolsInfo_read
      | apply stable_if
      | apply stable_bind; [|intros ?] ]. }
  destruct (Hst _ _ _ Hg H) as [Hd1 Hg1].
  split; [done|]. split; [done|].
  unfold parse_head in H. simpl Type_eqb in H. cbv iota in H.
  step H as u sa Ea. destruct u. apply seek_beg_state in Ea; [|done]. subst sa.
  step H as off' sb Eb. apply read_u32_le_at in Eb as (Hoff & Hdb & Hgb); [|done].
  simpl in Hoff, Hdb.
  step H as cnt sc Ec. apply stable_read_u32_le in Ec as [Hdc Hgc]; [|done].
  step H as maps sd Ed. apply stable_maps_phase in Ed as [Hdd Hgd]; [|done].
  step H as u se Ee. apply stable_seek in Ee as [Hde Hge]; [|done].
  step H as cbase sf Ef. apply stable_read_u64_le in Ef as [Hdf Hgf]; [|done].
  assert (s_data sf = s_data s) as Hdf' by congruence.
  step H as uuid sg Eg.
  step H as lsyms sh Eh. injection H as <- <- _.
  simpl symbol_file_uuid.
  split; [done|].
  split.
  - intros Hlt. replace (0x190 <=? off') with false in Eg by lia.
    cbn [negb andb] in Eg. by injection Eg as <- _.
  - intros Hge'. replace (0x190 <=? off') with true in Eg by lia.
    cbn [negb andb] in Eg. unfold read_uuid_at.
    rewrite (seek_beg_same 0x190 DyldUUID_read s sf) by (done || lia).
    rewrite Eg. reflexivity.
Qed.

Lemma seek_beg_run off s :
  s_good s = true -> 0 <= off ->
  seek_stream off ios_beg s = (Ok tt, {| s_data := s_data s; s_pos := off; s_good := true |}).
Proof.
  intros Hg Hoff. unfold seek_stream. rewrite Hg. simpl.
  replace (off <? 0) with false by lia. reflexivity.
Qed.

Lemma Subcache_read_entry i v1 : Subcache_read i v1 = read_subcache_entry (negb v1) i.
Proof. unfold Subcache_read, read_subcache_entry. by destruct v1. Qed.

Lemma for_loop_ext {A} (f g : Z -> M stream A) n :
  (forall i, f i = g i) -> forall i s, for_loop n i f s = for_loop n i g s.
Proof.
  intros Hfg. induction n as [|n IH]; intros i s; simpl; [reflexivity|].
  rewrite !bind_run, Hfg. destruct (g i s) as [[x|e] s']; [|reflexivity].
  rewrite !bind_run, IH. reflexivity.
Qed.

Lemma stable_images_if (b : bool) image_off image_count :
  stable (if b
          then seek_stream image_off ios_beg ;;;
               for_loop (Z.to_nat image_count) 0 (fun _ => Image_read)
          else ret []).
Proof.
  apply stable_if; [|apply stable_ret].
  apply stable_bind; [apply stable_seek|]. intros _.
  apply stable_for_loop. intros _. apply stable_Image_read.
Qed.

Lemma parse_main_fields off h0 s1 s h s2 :
  s_good s1 = true -> s_data s1 = s_data s -> s_good s = true ->
  parse_main off h0 s1 = (Ok h, s2) ->
  symbol_file_uuid h = symbol_file_uuid h0 /\
  (off < 0x18C ->
     subcaches h = [] /\ fst (read_image_dir 0x18 s) = Ok (images h)) /\
  (0x18C <= off ->
     fst (read_image_dir 0x1C0 s) = Ok (images h) /\
     fst (read_subcache_dir 0x188 (0x1C8 <? off) s) = Ok (subcaches h)).
Proof.
  intros Hg1 Hd1 Hg H. unfold parse_main in H. cbv zeta in H.
  destruct (Z.leb_spec 0x18C off) as [Hsplit|Hlegacy].
  - (* split layout *)
    step H as u sa Ea. destruct u. rewrite seek_beg_run in Ea by (done || lia).
    injection Ea as <-.
    step H as io sb Eb. step H as ic sc Ec.
    cbn [andb] in H.
    destruct (ic =? 0) eqn:Hic; [discriminate|].
    step H as imgs sd Ed.
    assert (s_data sd = s_data s /\ s_good sd = true) as [Hdd Hgd].
    { pose proof Eb as Eb'. apply stable_read_u32_le in Eb' as [? ?]; [|done].
      pose proof Ec as Ec'. apply stable_read_u32_le in Ec' as [? ?]; [|done].
      pose proof Ed as Ed'. apply stable_images_if in Ed' as [? ?]; [|done].
      simpl in *. split; [congruence|done]. }
    step H as subs se Ee.
    injection H as <- _. simpl.
    split; [reflexivity|]. split; [lia|]. intros _. split.
    + unfold read_image_dir. rewrite bind_run, seek_beg_run by (done || lia).
      rewrite <- Hd1. rewrite bind_run, Eb, bind_run, Ec, Hic.
      cbn [negb andb]. rewrite andb_true_r. rewrite andb_true_r in Ed.
      rewrite Ed. reflexivity.
    + rewrite bind_run in Ee. rewrite seek_beg_run in Ee by (done || lia).
      unfold read_subcache_dir. rewrite bind_run, seek_beg_run by (done || lia).
      rewrite <- Hdd.
      step Ee as so sf Ef. rewrite bind_run, Ef.
      step Ee as cnt sg Eg. rewrite bind_run, Eg.
      replace (0x1C8 <? off) with (negb (off <=? 0x1C8)) by lia.
      destruct (negb (so =? 0) && negb (cnt =? 0)).
      * cbv zeta in Ee. step Ee as u sh' Eh. rewrite bind_run, Eh.
        rewrite (for_loop_ext _ (read_subcache_entry (negb (off <=? 0x1C8)))) in Ee
          by (intros; apply Subcache_read_entry).
        rewrite Ee. reflexivity.
      * rewrite Ee. reflexivity.
  - (* legacy layout *)
    step H as u sa Ea. destruct u. rewrite seek_beg_run in Ea by (done || lia).
    injection Ea as <-.
    step H as io sb Eb. step H as ic sc Ec.
    cbn [andb] in H.
    step H as imgs sd Ed.
    step H as subs se Ee. injection Ee as <- _.
    injection H as <- _. simpl.
    split; [reflexivity|]. split; [|lia]. intros _. split; [reflexivity|].
    unfold read_image_dir. rewrite bind_run, seek_beg_run by (done || lia).
    rewrite <- Hd1. rewrite bind_run, Eb, bind_run, Ec.
    rewrite Ed. reflexivity.
Qed.

End HeaderGates.

Section HeaderRuns.

Lemma read_u32_le_run c p :
  0 <= p -> p + 4 <= Z.of_nat (length c) ->
  read_u32_le {| s_data := c; s_pos := p; s_good := true |} =
    (Ok (u32_at c p), {| s_data := c; s_pos := p + 4; s_good := true |}).
Proof.
  intros Hp Hlen. unfold read_u32_le. rewrite bind_run.
  rewrite read_stream_good; [reflexivity|lia|].
  unfold bytes_at. rewrite length_take, length_drop. lia.
Qed.

End HeaderRuns.

(** C3: the layout of a Main header is gated by the offset field [off] at
    [0x10].  Whenever the parser returns a header: if [off < 0x190] its
    symbol-file UUID is the zero UUID, and from [0x190] on it is the
    sixteen bytes at [0x190]; if [off < 0x18C] it has no subcaches and its
    images are those of the directory at [0x18], and from [0x18C] on its
    images are those of the directory at [0x1C0] and its subcaches those
    of the directory at [0x188], with inline 32-byte suffixes exactly when
    [off > 0x1C8].  In particular for [off = 0x180] and [off = 0x1D0]. *)
Theorem header_layout_is_version_gated (data : list byte) (main_cache_base : Z)
    (h : DyldCacheHeader.t) :
  fst (DyldCacheHeader.parse DyldCacheHeader.Main main_cache_base (open_stream data)) = Ok h ->
  let off := u32_at data 0x10 in
  let s := open_stream data in
  ((off < 0x190 -> DyldCacheHeader.symbol_file_uuid h = DyldUUID_default) /\
   (0x190 <= off ->
      fst (read_uuid_at 0x190 s) = Ok (DyldCacheHeader.symbol_file_uuid h)) /\
   (off < 0x18C ->
      DyldCacheHeader.subcaches h = [] /\
      fst (read_image_dir 0x18 s) = Ok (DyldCacheHeader.images h)) /\
   (0x18C <= off ->
      fst (read_image_dir 0x1C0 s) = Ok (DyldCacheHeader.images h) /\
      fst (read_subcache_dir 0x188 (0x1C8 <? off) s)
        = Ok (DyldCacheHeader.subcaches h))) /\
  (off = 0x180 ->
     DyldCacheHeader.symbol_file_uuid h = DyldUUID_default /\
     DyldCacheHeader.subcaches h = [] /\
     fst (read_image_dir 0x18 s) = Ok (DyldCacheHeader.images h)) /\
  (off = 0x1D0 ->
     fst (read_uuid_at 0x190 s) = Ok (DyldCacheHeader.symbol_file_uuid h) /\
     fst (read_subcache_dir 0x188 true s) = Ok (DyldCacheHeader.subcaches h) /\
     fst (read_image_dir 0x1C0 s) = Ok (DyldCacheHeader.images h)).
Proof.
  intros H off s.
  unfold DyldCacheHeader.parse in H. rewrite bind_run in H.
  destruct (DyldCacheHeader.parse_head _ _ _) as [[[off' h0]|e] s1] eqn:Ehead;
    [|discriminate].
  cbn [DyldCacheHeader.Type_eqb negb fst snd] in H.
  destruct (parse_head_main main_cache_base (open_stream data) off' h0 s1 eq_refl Ehead)
    as (Hd1 & Hg1 & Hoff & Hlt & Hge).
  simpl in Hoff. fold off in Hoff. subst off'.
  destruct (DyldCacheHeader.parse_main off h0 s1) as [r s2] eqn:Emain.
  simpl in H. subst r.
  destruct (parse_main_fields off h0 s1 s h s2 Hg1 Hd1 eq_refl Emain)
    as (Huuid & Hlegacy & Hsplit).
  rewrite Huuid.
  assert ((off < 0x190 -> DyldCacheHeader.symbol_file_uuid h0 = DyldUUID_default) /\
          (0x190 <= off ->
             fst (read_uuid_at 0x190 s) = Ok (DyldCacheHeader.symbol_file_uuid h0)) /\
          (off < 0x18C ->
             DyldCacheHeader.subcaches h = [] /\
             fst (read_image_dir 0x18 s) = Ok (DyldCacheHeader.images h)) /\
          (0x18C <= off ->
             fst (read_image_dir 0x1C0 s) = Ok (DyldCacheHeader.images h) /\
             fst (read_subcache_dir 0x188 (0x1C8 <? off) s)
               = Ok (DyldCacheHeader.subcaches h))) as Hall by done.
  split; [exact Hall|].
  destruct Hall as (H1 & H2 & H3 & H4). split.
  - intros Heq. destruct H3 as [? ?]; [lia|]. split; [apply H1; lia|done].
  - intros Heq. destruct H4 as [? Hsub]; [lia|]. rewrite Heq in Hsub.
    split; [apply H2; lia|done].
Qed.

Lemma header_layout_is_version_gated_witness :
  fst (read_uuid_at 0x190 (open_stream split_header_bytes)) = Ok (replicate 16 x11) /\
  fst (read_subcache_dir 0x188 true (open_stream split_header_bytes))
    = Ok [ {| DyldCacheHeader.vm_off := 0x40000000; DyldCacheHeader.suffix := ".01" |} ] /\
  fst (read_image_dir 0x1C0 (open_stream split_header_bytes))
    = Ok [ {| DyldCacheHeader.image_base := 0x180000000;
              DyldCacheHeader.path := "/usr/lib/dyld" |} ].
Proof.
  apply (proj2 (proj2 (header_layout_is_version_gated split_header_bytes 0
                         split_header_parsed ltac:(vm_compute; reflexivity)))).
  vm_compute. reflexivity.
Defined.

(** The legacy synthetic header: the bytes at [0x190], [0x188] and [0x1C0]
    are not looked at. *)
Example legacy_header_parse :
  fst (DyldCacheHeader.parse DyldCacheHeader.Main 0 (open_stream legacy_header_bytes)) =
    Ok {| DyldCacheHeader.mappings := [];
          DyldCacheHeader.images :=
            [ {| DyldCacheHeader.image_base := 0x180000000;
                 DyldCacheHeader.path := "/usr/lib/dyld" |} ];
          DyldCacheHeader.cache_base := 0x180000000;
          DyldCacheHeader.local_symbols_off := 0;
          DyldCacheHeader.local_symbols := DyldCacheHeader.LocalSymbolsInfo_default;
          DyldCacheHeader.subcaches := [];
          DyldCacheHeader.symbol_file_uuid := DyldUUID_default |}.
Proof. vm_compute. reflexivity. Qed.

(** C4 (as amended): a Main header that parses up to its image directory
    and declares [image_count = 0] is rejected with the error "main cache
    expected, but got a subcache" in the split layout (offset field at
    least [0x18C], count read at [0x1C4]); in the legacy layout (count
    read at [0x1C]) no such test is made and the header is returned with
    no images. *)
Theorem main_without_images_rejected_when_split (data : list byte) (main_cache_base : Z)
    (r : Z * DyldCacheHeader.t) (s1 : stream) :
  DyldCacheHeader.parse_head DyldCacheHeader.Main main_cache_base (open_stream data)
    = (Ok r, s1) ->
  0x1C8 <= Z.of_nat (length data) ->
  (0x18C <= u32_at data 0x10 -> u32_at data 0x1C4 = 0 ->
   fst (DyldCacheHeader.parse DyldCacheHeader.Main main_cache_base (open_stream data))
     = Throw (runtime_error "main cache expected, but got a subcache")) /\
  (u32_at data 0x10 < 0x18C -> u32_at data 0x1C = 0 ->
   exists h,
     fst (DyldCacheHeader.parse DyldCacheHeader.Main main_cache_base (open_stream data))
       = Ok h /\
     DyldCacheHeader.images h = []).
Proof.
  intros Ehead Hlen. destruct r as [off h0].
  destruct (parse_head_main main_cache_base (open_stream data) off h0 s1 eq_refl Ehead)
    as (Hd1 & Hg1 & Hoff & _).
  simpl in Hoff, Hd1. subst off.
  destruct s1 as [c1 p1 g1]. simpl in Hd1, Hg1. subst c1 g1.
  unfold DyldCacheHeader.parse. rewrite bind_run, Ehead.
  cbn [DyldCacheHeader.Type_eqb negb fst snd].
  unfold DyldCacheHeader.parse_main. cbv zeta.
  split.
  - intros Hsplit Hcount.
    replace (0x18C <=? u32_at data 0x10) with true by lia.
    rewrite bind_run, seek_stream_beg_good by lia.
    rewrite bind_run, read_u32_le_run by lia.
    rewrite bind_run, read_u32_le_run by lia.
    change (0x1C0 + 4) with 0x1C4. rewrite Hcount. reflexivity.
  - intros Hlegacy Hcount.
    replace (0x18C <=? u32_at data 0x10) with false by lia.
    rewrite bind_run, seek_stream_beg_good by lia.
    rewrite bind_run, read_u32_le_run by lia.
    rewrite bind_run, read_u32_le_run by lia.
    change (0x18 + 4) with 0x1C. rewrite Hcount.
    cbn [andb negb Z.eqb]. rewrite andb_false_r.
    rewrite !bind_run, !ret_run. eexists. split; reflexivity.
Qed.

Lemma main_without_images_rejected_when_split_witness :
  fst (DyldCacheHeader.parse DyldCacheHeader.Main 0 (open_stream split_header_no_images))
    = Throw (runtime_error "main cache expected, but got a subcache").
Proof.
  destruct (DyldCacheHeader.parse_head DyldCacheHeader.Main 0
              (open_stream split_header_no_images)) as [[r|e] s1] eqn:Ehead;
    [|vm_compute in Ehead; discriminate].
  apply (proj1 (main_without_images_rejected_when_split split_header_no_images 0 r s1
                  Ehead ltac:(vm_compute; discriminate))).
  - vm_compute. discriminate.
  - vm_compute. reflexivity.
Defined.

(** C4 (as stated) fails in the legacy layout: the synthetic Main header
    with offset field [0x180] and [image_count = 0] parses, with no
    images, instead of raising the error. *)
Lemma main_without_images_legacy_counterexample :
  u32_at legacy_header_no_images 0x10 = 0x180 /\
  u32_at legacy_header_no_images 0x1C = 0 /\
  (exists h,
     fst (DyldCacheHeader.parse DyldCacheHeader.Main 0
            (open_stream legacy_header_no_images)) = Ok h /\
     DyldCacheHeader.images h = []) /\
  fst (DyldCacheHeader.parse DyldCacheHeader.Main 0 (open_stream legacy_header_no_images))
    <> Throw (runtime_error "main cache expected, but got a subcache").
Proof.
  split; [vm_compute; reflexivity|]. split; [vm_compute; reflexivity|].
  split.
  - eexists. split; vm_compute; reflexivity.
  - vm_compute. discriminate.
Qed.

(** ** The staging buffer as a map *)

Section StagedWrites.

Lemma keys_above_emplace k v lo m :
  lo < k -> keys_above lo m = true -> keys_above lo (offset_map_emplace k v m) = true.
Proof.
  revert lo. induction m as [|[k' v'] m IH]; intros lo Hlo Hm; simpl in *.
  - replace (lo <? k) with true by lia. reflexivity.
  - apply andb_true_iff in Hm as [H1 H2]. apply Z.ltb_lt in H1.
    destruct (Z.ltb_spec k k') as [Hlt|Hge]; simpl.
    + replace (lo <? k) with true by lia. replace (k <? k') with true by lia.
      simpl. exact H2.
    + destruct (Z.eqb_spec k k') as [->|Hne]; simpl.
      * replace (lo <? k') with true by lia. simpl. exact H2.
      * replace (lo <? k') with true by lia. simpl. apply IH; [lia|done].
Qed.

Lemma keys_ascending_emplace k v m :
  keys_ascending m = true -> keys_ascending (offset_map_emplace k v m) = true.
Proof.
  destruct m as [|[k' v'] m]; intros Hm; simpl in *; [reflexivity|].
  destruct (Z.ltb_spec k k') as [Hlt|Hge]; simpl.
  - replace (k <? k') with true by lia. simpl. exact Hm.
  - destruct (Z.eqb_spec k k') as [->|Hne]; simpl; [exact Hm|].
    apply keys_above_emplace; [lia|done].
Qed.

Lemma offset_map_find_above k lo m :
  k <= lo -> keys_above lo m = true -> offset_map_find k m = None.
Proof.
  revert lo. induction m as [|[k' v'] m IH]; intros lo Hlo Hm; simpl in *; [done|].
  apply andb_true_iff in Hm as [H1 H2]. apply Z.ltb_lt in H1.
  replace (k =? k') with false by lia. apply (IH k'); [lia|done].
Qed.

(** [find] after [emplace]: the key emplaced keeps an older value, the
    other keys are not touched. *)
Lemma offset_map_find_emplace k v k' m :
  keys_ascending m = true ->
  offset_map_find k' (offset_map_emplace k v m) =
    if k' =? k
    then match offset_map_find k m with Some old => Some old | None => Some v end
    else offset_map_find k' m.
Proof.
  assert (forall lo, keys_above lo m = true ->
            offset_map_find k' (offset_map_emplace k v m) =
              if k' =? k
              then match offset_map_find k m with Some old => Some old | None => Some v end
              else offset_map_find k' m) as Hgen.
  { induction m as [|[k0 v0] m IH]; intros lo Hm; simpl in *.
    - destruct (k' =? k); reflexivity.
    - apply andb_true_iff in Hm as [H1 H2].
      destruct (Z.ltb_spec k k0) as [Hlt|Hge]; simpl.
      + replace (k =? k0) with false by lia.
        rewrite (offset_map_find_above k k0 m) by (lia || done).
        destruct (Z.eqb_spec k' k) as [->|Hne]; [reflexivity|].
        reflexivity.
      + destruct (Z.eqb_spec k k0) as [->|Hne]; simpl.
        * destruct (Z.eqb_spec k' k0); reflexivity.
        * destruct (Z.eqb_spec k' k0) as [->|Hne'].
          -- replace (k0 =? k) with false by lia. reflexivity.
          -- apply (IH k0). exact H2. }
  intros Hm. destruct m as [|[k0 v0] m].
  - simpl. destruct (k' =? k); reflexivity.
  - apply (Hgen (k0 - 1)). simpl. simpl in Hm.
    replace (k0 - 1 <? k0) with true by lia. exact Hm.
Qed.

Lemma queue_ascending_emplace p k v q :
  queue_ascending q = true -> queue_ascending (queue_emplace p k v q) = true.
Proof.
  unfold queue_ascending. induction q as [|[p' m] q IH]; intros Hq; simpl in *.
  - reflexivity.
  - apply andb_true_iff in Hq as [H1 H2].
    destruct (path_eqb p' p); simpl.
    + rewrite keys_ascending_emplace by done. exact H2.
    + rewrite H1. simpl. by apply IH.
Qed.

Lemma path_eqb_equal a b c :
  path_eqb a b = true -> path_eqb a c = path_eqb b c.
Proof. intros H. apply path_eqb_true in H. unfold path_eqb. by rewrite H. Qed.

Lemma queue_lookup_emplace p k v p' q :
  queue_lookup (queue_emplace p k v q) p' =
    if path_eqb p p'
    then Some (offset_map_emplace k v (default [] (queue_lookup q p)))
    else queue_lookup q p'.
Proof.
  induction q as [|[p0 m] q IH]; simpl.
  - destruct (path_eqb p p'); reflexivity.
  - destruct (path_eqb p0 p) eqn:Hpp; simpl.
    + rewrite (path_eqb_equal p0 p p' Hpp). destruct (path_eqb p p'); reflexivity.
    + rewrite IH. destruct (path_eqb p0 p') eqn:Hp0; [|reflexivity].
      destruct (path_eqb p p') eqn:Hp; [|reflexivity].
      apply path_eqb_true in Hp0, Hp. apply path_eqb_false in Hpp. congruence.
Qed.

Lemma queue_lookup_ascending q p m :
  queue_ascending q = true -> queue_lookup q p = Some m -> keys_ascending m = true.
Proof.
  unfold queue_ascending. induction q as [|[p0 m0] q IH]; intros Hq Hl; simpl in *.
  - discriminate.
  - apply andb_true_iff in Hq as [H1 H2].
    destruct (path_eqb p0 p); [by injection Hl as <-|by apply IH].
Qed.

(** One more write, seen through [staged_bytes]. *)
Lemma staged_bytes_write pt p k v p' k' :
  queue_ascending (write_queue pt) = true ->
  staged_bytes (snd (Patcher_write p k v pt)) p' k' =
    match staged_bytes pt p' k' with
    | Some old => Some old
    | None => if path_eqb p p' && (k =? k') then Some v else None
    end.
Proof.
  intros Hq. unfold staged_bytes. simpl. rewrite queue_lookup_emplace.
  destruct (path_eqb p p') eqn:Hpp; simpl.
  - assert (queue_lookup (write_queue pt) p = queue_lookup (write_queue pt) p') as ->.
    { generalize (write_queue pt). intros q.
      induction q as [|[p0 m0] q IH]; [reflexivity|]. simpl.
      assert (path_eqb p0 p = path_eqb p0 p') as ->; [|by rewrite IH].
      apply path_eqb_true in Hpp. unfold path_eqb. by rewrite Hpp. }
    destruct (queue_lookup (write_queue pt) p') as [m|] eqn:Hm; simpl.
    + rewrite offset_map_find_emplace by (by eapply queue_lookup_ascending).
      rewrite (Z.eqb_sym k' k).
      destruct (Z.eqb_spec k k') as [->|Hk].
      * destruct (offset_map_find k' m); reflexivity.
      * destruct (offset_map_find k' m); reflexivity.
    + simpl. rewrite (Z.eqb_sym k' k).
      destruct (k =? k'); reflexivity.
  - destruct (queue_lookup (write_queue pt) p') as [m|]; [|reflexivity].
    destruct (offset_map_find k' m); reflexivity.
Qed.

Lemma stage_from_ascending writes : forall pt,
  queue_ascending (write_queue pt) = true ->
  queue_ascending (write_queue (stage_from pt writes)) = true.
Proof.
  induction writes as [|[[p k] v] writes IH]; intros pt Hq; [done|].
  simpl. apply IH. simpl. by apply queue_ascending_emplace.
Qed.

Lemma staged_bytes_stage_from writes : forall pt p k,
  queue_ascending (write_queue pt) = true ->
  staged_bytes (stage_from pt writes) p k =
    match staged_bytes pt p k with
    | Some old => Some old
    | None => first_write writes p k
    end.
Proof.
  induction writes as [|[[p0 k0] v0] writes IH]; intros pt p k Hq.
  - simpl. destruct (staged_bytes pt p k); reflexivity.
  - change (stage_from pt ((p0, k0, v0) :: writes))
      with (stage_from (snd (Patcher_write p0 k0 v0 pt)) writes).
    rewrite IH by (simpl; by apply queue_ascending_emplace).
    rewrite staged_bytes_write by done. simpl first_write.
    destruct (staged_bytes pt p k); [reflexivity|].
    destruct (path_eqb p0 p && (k0 =? k)); reflexivity.
Qed.

End StagedWrites.

(** X1: whatever sequence of writes is staged, the bytes the buffer holds
    for a path and offset are those of the first write of the sequence to
    that path and offset, and nothing is held where no write went; the
    paths are compared as [std::filesystem::path] compares them, so a
    write to [d/f] finds the bucket of an earlier write to [d//f].  Every
    per-path map of the buffer has its offsets in strictly ascending
    order, which is the order in which [flush] commits them.  This is
    shown for writes to paths that have an element after the root
    directory: the spellings of the bare root directory compare equal but
    are hashed apart by libstdc++, so that what bucket they get depends
    on the library. *)
Theorem staged_bytes_are_first_write (writes : list (string * Z * list byte))
    (p : string) (file_off : Z) :
  forallb (fun w => has_relative_path (fst (fst w))) writes = true ->
  staged_bytes (stage writes) p file_off = first_write writes p file_off /\
  queue_ascending (write_queue (stage writes)) = true.
Proof.
  intros _. split.
  - apply (staged_bytes_stage_from writes Patcher_new p file_off). reflexivity.
  - apply (stage_from_ascending writes Patcher_new). reflexivity.
Qed.

Lemma staged_bytes_are_first_write_witness :
  (staged_bytes (stage [("d//f"%string, 4, [x01]); ("d/f"%string, 4, [x02]);
                        ("d/f"%string, 8, [x03]); ("d/f/"%string, 4, [x04])])
     "d/f" 4
   = first_write [("d//f"%string, 4, [x01]); ("d/f"%string, 4, [x02]);
                  ("d/f"%string, 8, [x03]); ("d/f/"%string, 4, [x04])] "d/f" 4 /\
   queue_ascending
     (write_queue (stage [("d//f"%string, 4, [x01]); ("d/f"%string, 4, [x02]);
                          ("d/f"%string, 8, [x03]); ("d/f/"%string, 4, [x04])])) = true) /\
  first_write [("d//f"%string, 4, [x01]); ("d/f"%string, 4, [x02]);
               ("d/f"%string, 8, [x03]); ("d/f/"%string, 4, [x04])] "d/f" 4
    = Some [x01] /\
  write_queue (stage [("d//f"%string, 4, [x01]); ("d/f"%string, 4, [x02]);
                      ("d/f"%string, 8, [x03]); ("d/f/"%string, 4, [x04])])
    = [("d//f"%string, [(4, [x01]); (8, [x03])]); ("d/f/"%string, [(4, [x04])])].
Proof.
  split; [|split; vm_compute; reflexivity].
  apply (staged_bytes_are_first_write
           [("d//f"%string, 4, [x01]); ("d/f"%string, 4, [x02]);
            ("d/f"%string, 8, [x03]); ("d/f/"%string, 4, [x04])] "d/f" 4).
  vm_compute. reflexivity.
Defined.

(** ** Commit and revert: failures and what they leave behind *)

Section CommitFailures.

Lemma flush_entry_length e st r st' :
  flush_entry e st = (r, st') ->
  length (s_data (fst st')) = length (s_data (fst st)).
Proof.
  destruct e as [off bs], st as [[c pos g] d].
  unfold flush_entry, bind, on_cache_file, seek_stream, read_stream, seekp,
    stream_write, diff_put. simpl.
  destruct g; simpl; [|by intros [= <- <-]].
  destruct (Z.ltb_spec off 0) as [Hneg|Hoff]; simpl; [by intros [= <- <-]|].
  destruct (Z.ltb_spec (Z.of_nat (length (bytes_at c off (Z.of_nat (length bs)))))
              (Z.of_nat (length bs))) as [Hshort|Hfull]; simpl; [by intros [= <- <-]|].
  replace (0 <=? off) with true by lia. simpl. intros [= <- <-]. simpl.
  destruct bs as [|b bs]; [reflexivity|].
  apply length_write_at. unfold bytes_at in Hfull.
  rewrite length_take, length_drop in Hfull. simpl length in *. lia.
Qed.

Lemma flush_entries_length es : forall st r st',
  flush_entries es st = (r, st') ->
  length (s_data (fst st')) = length (s_data (fst st)).
Proof.
  induction es as [|e es IH]; intros st r st' H; simpl in H.
  - by injection H as <- <-.
  - rewrite bind_run in H. destruct (flush_entry e st) as [[[]|ex] st1] eqn:He.
    + apply IH in H. rewrite H. by eapply flush_entry_length.
    + injection H as <- <-. by eapply flush_entry_length.
Qed.

(** One round of the outer loop touches the file and its sidecar only,
    and leaves the file as long as it was. *)
Lemma flush_path_frame p es (fs : filesystem) r fs' :
  flush_path p es fs = (r, fs') ->
  (forall k, k <> p -> k <> orig_bytes_path p -> fs' !! k = fs !! k) /\
  (forall c, fs !! p = Some c -> exists c', fs' !! p = Some c' /\ length c' = length c).
Proof.
  unfold flush_path. destruct (fs !! p) as [c|] eqn:Hp.
  - destruct (flush_entries es (open_stream c, [])) as [r1 [cache_file diff_file]] eqn:Hrun.
    intros [= <- <-]. split.
    + intros k H1 H2. by rewrite !lookup_insert_ne.
    + intros c0 [= <-]. exists (s_data cache_file).
      rewrite lookup_insert_ne by apply orig_bytes_path_ne.
      rewrite lookup_insert_eq. split; [done|].
      apply flush_entries_length in Hrun. exact Hrun.
  - intros [= <- <-]. split; [done|]. intros c0 H. discriminate.
Qed.

Lemma flush_queue_sizes q : forall (fs : filesystem) r fs' k c,
  flush_queue q fs = (r, fs') ->
  fs !! k = Some c ->
  (forall p, In p (staged_paths q) -> k <> orig_bytes_path p) ->
  exists c', fs' !! k = Some c' /\ length c' = length c.
Proof.
  induction q as [|[p es] q IH]; intros fs r fs' k c Hrun Hk Hns; simpl in Hrun.
  - injection Hrun as <- <-. by exists c.
  - rewrite bind_run in Hrun.
    destruct (flush_path p es fs) as [r1 fs1] eqn:Hp.
    destruct (flush_path_frame _ _ _ _ _ Hp) as [Hother Hsame].
    assert (exists c1, fs1 !! k = Some c1 /\ length c1 = length c) as (c1 & Hk1 & Hl1).
    { destruct (decide (k = p)) as [->|Hne].
      - by apply Hsame.
      - exists c. split; [|done]. rewrite Hother; [done|done|].
        apply Hns. simpl. by left. }
    destruct r1 as [[]|ex].
    + destruct (IH fs1 r fs' k c1 Hrun Hk1) as (c' & Hk' & Hl').
      * intros p' Hin. apply Hns. simpl. by right.
      * exists c'. split; [done|]. by rewrite Hl'.
    + injection Hrun as <- <-. by exists c1.
Qed.

Lemma flush_entries_app es1 es2 st :
  flush_entries (es1 ++ es2) st =
    match flush_entries es1 st with
    | (Ok _, st1) => flush_entries es2 st1
    | (Throw e, st1) => (Throw e, st1)
    end.
Proof.
  revert st. induction es1 as [|e es1 IH]; intros st; simpl.
  - reflexivity.
  - rewrite !bind_run. destruct (flush_entry e st) as [[[]|ex] st1]; [apply IH|done].
Qed.

Lemma flush_entry_out_of_bounds c pos d e :
  entry_in_bounds (Z.of_nat (length c)) e = false -> snd e <> [] ->
  exists pos' g',
    flush_entry e ({| s_data := c; s_pos := pos; s_good := true |}, d) =
      (Throw (if fst e <? 0 then out_of_range "seek failed; out of range"
              else runtime_error "failed to read bytes from stream; bad stream"),
       ({| s_data := c; s_pos := pos'; s_good := g' |}, d)).
Proof.
  destruct e as [off bs]. unfold entry_in_bounds. simpl. intros Hb Hne.
  unfold flush_entry, bind, on_cache_file, seek_stream, read_stream. simpl.
  destruct (Z.ltb_spec off 0) as [Hneg|Hoff]; simpl; [by eexists _, _|].
  replace (0 <=? off) with true in Hb by lia. simpl in Hb.
  apply Z.leb_gt in Hb.
  replace (Z.of_nat (length (bytes_at c off (Z.of_nat (length bs)))) <?
             Z.of_nat (length bs)) with true.
  - simpl. by eexists _, _.
  - symmetry. apply Z.ltb_lt. unfold bytes_at. rewrite length_take, length_drop. destruct bs; [done|]. simpl length in *. lia.
Qed.

Lemma flush_queue_app q1 q2 (fs : filesystem) :
  flush_queue (q1 ++ q2) fs =
    match flush_queue q1 fs with
    | (Ok _, fs1) => flush_queue q2 fs1
    | (Throw e, fs1) => (Throw e, fs1)
    end.
Proof.
  revert fs. induction q1 as [|[p es] q1 IH]; intros fs; simpl.
  - reflexivity.
  - rewrite !bind_run. destruct (flush_path p es fs) as [[[]|ex] fs1]; [apply IH|done].
Qed.

Lemma tokens_go_records records : forall rest,
  Forall (fun r => 0 <= fst r < 2 ^ 64) records ->
  tokens_go (sidecar_text records ++ rest) [] =
    concat (map record_words records) ++ tokens_go rest [].
Proof.
  unfold sidecar_text.
  induction records as [|[off orig] records IH]; intros rest Hall; [reflexivity|].
  simpl concat. rewrite <- !app_assoc.
  rewrite tokens_go_line by apply (Forall_inv Hall).
  rewrite IH by (by eapply Forall_inv_tail).
  simpl. rewrite <- !app_assoc. reflexivity.
Qed.

Lemma revert_tokens_records_then records : forall more c p,
  Z.of_nat (length c) < 2 ^ 63 ->
  records_in_bounds (Z.of_nat (length c)) records ->
  exists p',
    revert_tokens (concat (map record_words records) ++ more)
      {| s_data := c; s_pos := p; s_good := true |} =
    revert_tokens more {| s_data := replay records c; s_pos := p'; s_good := true |}.
Proof.
  induction records as [|[off orig] records IH]; intros more c p Hlen Hall.
  - exists p. reflexivity.
  - pose proof (Forall_inv Hall) as [H0 H1]. simpl in H0, H1.
    change (concat (map record_words ((off, orig) :: records)) ++ more)
      with ((record_words (off, orig) ++ concat (map record_words records)) ++ more).
    rewrite <- app_assoc.
    rewrite revert_tokens_record by lia.
    assert (length (write_at c (Z.to_nat off) orig) = length c) as Hl
      by (apply length_write_at; lia).
    simpl replay. apply IH; rewrite Hl; [done|by eapply Forall_inv_tail].
Qed.

End CommitFailures.

(** X2: whatever is staged and whether the commit succeeds or throws
    half-way, every file that existed before it and is not the sidecar of
    a staged path still exists afterwards and is exactly as long as it
    was: a commit never grows, truncates or removes a cache file. *)
Theorem flush_never_resizes (pt : Patcher) (fs fs' : filesystem) (r : Res unit)
    (k : string) (c : list byte) :
  Patcher_flush pt fs = (r, fs') ->
  fs !! k = Some c ->
  (forall p, In p (staged_paths (write_queue pt)) -> k <> orig_bytes_path p) ->
  exists c', fs' !! k = Some c' /\ length c' = length c.
Proof. unfold Patcher_flush. apply flush_queue_sizes. Qed.

Lemma flush_never_resizes_witness :
  let pt := stage [("C"%string, 2, [xa0; xa1]); ("C"%string, 6, [xb0; xb1; xb2])] in
  let fs : filesystem := {[ "C"%string := file_0_to_7 ]} in
  fst (Patcher_flush pt fs)
    = Throw (runtime_error "failed to read bytes from stream; bad stream") /\
  exists c', snd (Patcher_flush pt fs) !! "C"%string = Some c' /\ length c' = 8%nat.
Proof.
  cbv zeta. split; [vm_compute; reflexivity|].
  apply (flush_never_resizes
           (stage [("C"%string, 2, [xa0; xa1]); ("C"%string, 6, [xb0; xb1; xb2])])
           {[ "C"%string := file_0_to_7 ]}
           (snd (Patcher_flush
                   (stage [("C"%string, 2, [xa0; xa1]); ("C"%string, 6, [xb0; xb1; xb2])])
                   {[ "C"%string := file_0_to_7 ]}))
           (fst (Patcher_flush
                   (stage [("C"%string, 2, [xa0; xa1]); ("C"%string, 6, [xb0; xb1; xb2])])
                   {[ "C"%string := file_0_to_7 ]}))
           "C" file_0_to_7).
  - vm_compute. reflexivity.
  - vm_compute. reflexivity.
  - intros p [<-|[]]. vm_compute. discriminate.
Defined.

(** X3: the entries of a file are committed in order with no roll-back.
    When the entries [es1] lie inside the file and the next one, which
    has at least one byte, starts before the file or starts in the file
    or at its end and runs past its end, the commit of the file throws --
    [std::out_of_range] from the seek for the negative offset,
    [std::runtime_error] from the short read for the entry that runs past
    the end -- and leaves the file with the entries [es1] written, the
    sidecar with the records of [es1] only, and nothing of the bad entry
    or of those after it. *)
Theorem flush_stops_at_first_bad_entry (p : string) (es1 : offset_map) (e : Z * list byte)
    (es2 : offset_map) (fs : filesystem) (c : list byte) :
  fs !! p = Some c ->
  forallb (entry_in_bounds (Z.of_nat (length c))) es1 = true ->
  entry_in_bounds (Z.of_nat (length c)) e = false ->
  fst e <= Z.of_nat (length c) ->
  snd e <> [] ->
  Patcher_flush {| write_queue := [(p, es1 ++ e :: es2)] |} fs =
    (Throw (if fst e <? 0 then out_of_range "seek failed; out of range"
            else runtime_error "failed to read bytes from stream; bad stream"),
     <[orig_bytes_path p := sidecar_text (displaced c es1)]> (<[p := patched c es1]> fs)).
Proof.
  intros Hp Hb He _ Hne. unfold Patcher_flush. simpl. rewrite bind_run.
  unfold flush_path. rewrite Hp. rewrite flush_entries_app.
  destruct (flush_entries_ok es1 c 0 [] Hb) as [pos' Hrun].
  unfold open_stream. rewrite Hrun. simpl flush_entries. rewrite bind_run.
  assert (entry_in_bounds (Z.of_nat (length (patched c es1))) e = false) as He'
    by (rewrite length_patched by done; exact He).
  destruct (flush_entry_out_of_bounds (patched c es1) pos' (sidecar_text (displaced c es1)) e He' Hne)
    as (pos2 & g2 & Hbad).
  simpl app. rewrite Hbad. reflexivity.
Qed.

Lemma flush_stops_at_first_bad_entry_witness :
  Patcher_flush {| write_queue := [("C"%string, [(2, [xa0; xa1])] ++ (6, [xb0; xb1; xb2]) :: [])] |}
    {[ "C"%string := file_0_to_7 ]} =
    (Throw (runtime_error "failed to read bytes from stream; bad stream"),
     <[orig_bytes_path "C" := list_byte_of_string "2: 2 3 " ++ ["010"%byte]]>
       (<["C"%string := [x00; x01; xa0; xa1; x04; x05; x06; x07]]>
          {[ "C"%string := file_0_to_7 ]})).
Proof.
  apply (flush_stops_at_first_bad_entry "C" [(2, [xa0; xa1])] (6, [xb0; xb1; xb2]) []
           {[ "C"%string := file_0_to_7 ]} file_0_to_7).
  - reflexivity.
  - reflexivity.
  - reflexivity.
  - simpl. lia.
  - discriminate.
Defined.

(** X4: the files of a commit are handled one after the other with no
    roll-back either, in an order that the [std::unordered_map] chooses.
    Whatever that order is -- any arrangement [q1 ++ (p, es) :: q2] of the
    buckets of the staging buffer --, when the paths that come before [p]
    in it commit and [p] cannot be opened afterwards, the commit throws
    [std::runtime_error] and the file system is left as the earlier paths
    made it: their files patched, their sidecars written, and the files
    of the later paths untouched. *)
Theorem flush_missing_file_keeps_earlier (pt : Patcher) (q1 q2 : list (string * offset_map))
    (p : string) (es : offset_map) (fs fs1 : filesystem) :
  Permutation (q1 ++ (p, es) :: q2) (write_queue pt) ->
  flush_queue q1 fs = (Ok tt, fs1) ->
  fs1 !! p = None ->
  flush_queue (q1 ++ (p, es) :: q2) fs
    = (Throw (runtime_error "failed to open cache file"), fs1).
Proof.
  intros _ H1 Hp. rewrite flush_queue_app, H1.
  simpl. rewrite bind_run. unfold flush_path. rewrite Hp. reflexivity.
Qed.

Lemma flush_missing_file_keeps_earlier_witness :
  flush_queue ([] ++ ("D"%string, [(0, [x1f])]) :: [("C"%string, [(4, [x1f])])])
    {[ "C"%string := file_0_to_7 ]} =
    (Throw (runtime_error "failed to open cache file"), {[ "C"%string := file_0_to_7 ]}) /\
  flush_queue ([("C"%string, [(4, [x1f])])] ++ ("D"%string, [(0, [x1f])]) :: [])
    {[ "C"%string := file_0_to_7 ]} =
    (Throw (runtime_error "failed to open cache file"),
     <[orig_bytes_path "C" := list_byte_of_string "4: 4 " ++ ["010"%byte]]>
       (<["C"%string := [x00; x01; x02; x03; x1f; x05; x06; x07]]>
          {[ "C"%string := file_0_to_7 ]})).
Proof.
  split.
  - apply (flush_missing_file_keeps_earlier
             (stage [("C"%string, 4, [x1f]); ("D"%string, 0, [x1f])])
             [] [("C"%string, [(4, [x1f])])] "D" [(0, [x1f])]
             {[ "C"%string := file_0_to_7 ]}).
    + apply perm_swap.
    + reflexivity.
    + reflexivity.
  - apply (flush_missing_file_keeps_earlier
             (stage [("D"%string, 0, [x1f]); ("C"%string, 4, [x1f])])
             [("C"%string, [(4, [x1f])])] [] "D" [(0, [x1f])]
             {[ "C"%string := file_0_to_7 ]}).
    + apply perm_swap.
    + reflexivity.
    + vm_compute. reflexivity.
Defined.

(** X5: a revert that returns normally leaves no sidecar for the path, so
    a second revert of the same path returns normally as well and changes
    nothing. *)
Theorem revert_twice_is_harmless (p : string) (fs fs' : filesystem) :
  Patcher_revert p fs = (Ok tt, fs') ->
  fs' !! orig_bytes_path p = None /\ Patcher_revert p fs' = (Ok tt, fs').
Proof.
  intros H.
  assert (fs' !! orig_bytes_path p = None) as Hnone.
  { unfold Patcher_revert in H.
    destruct (fs !! orig_bytes_path p) as [text|] eqn:Hs.
    - destruct (fs !! p) as [content|]; [|discriminate].
      destruct (revert_tokens (tokens text) (open_stream content)) as [[[]|ex] file];
        [|discriminate].
      injection H as <-. apply lookup_delete_eq.
    - by injection H as <-. }
  split; [exact Hnone|]. by apply no_revert_without_sidecar.
Qed.

Lemma revert_twice_is_harmless_witness :
  let fs : filesystem :=
    {[ "C"%string := replicate 8 x1f;
       orig_bytes_path "C" := list_byte_of_string "4: aa " ++ ["010"%byte] ]} in
  let fs' : filesystem := {[ "C"%string := [x1f; x1f; x1f; x1f; xaa; x1f; x1f; x1f] ]} in
  fs' !! orig_bytes_path "C" = None /\ Patcher_revert "C" fs' = (Ok tt, fs').
Proof.
  apply (revert_twice_is_harmless "C"
           {[ "C"%string := replicate 8 x1f;
              orig_bytes_path "C" := list_byte_of_string "4: aa " ++ ["010"%byte] ]}
           {[ "C"%string := [x1f; x1f; x1f; x1f; xaa; x1f; x1f; x1f] ]}).
  vm_compute. reflexivity.
Defined.

(** X6: a revert touches no file but the one it restores and its
    sidecar, and it removes the sidecar only when it returns normally:
    when it throws, the sidecar is still there with its content, so the
    revert can be tried again. *)
Theorem revert_failure_keeps_sidecar (p : string) (fs fs' : filesystem) (r : Res unit) :
  Patcher_revert p fs = (r, fs') ->
  (forall k, k <> p -> k <> orig_bytes_path p -> fs' !! k = fs !! k) /\
  (forall e, r = Throw e ->
     is_Some (fs !! orig_bytes_path p) /\
     fs' !! orig_bytes_path p = fs !! orig_bytes_path p).
Proof.
  unfold Patcher_revert.
  destruct (fs !! orig_bytes_path p) as [text|] eqn:Hs.
  - destruct (fs !! p) as [content|].
    + destruct (revert_tokens (tokens text) (open_stream content)) as [[[]|ex] file].
      * intros [= <- <-]. split; [|discriminate].
        intros k H1 H2. rewrite lookup_delete_ne by done. by rewrite lookup_insert_ne.
      * intros [= <- <-]. split.
        -- intros k H1 H2. by rewrite lookup_insert_ne.
        -- intros e _. split; [done|].
           rewrite lookup_insert_ne by (intros Heq; by apply (orig_bytes_path_ne p)).
           done.
    + intros [= <- <-]. split; [done|]. intros e _. rewrite Hs. by split.
  - intros [= <- <-]. split; [done|discriminate].
Qed.

Lemma revert_failure_keeps_sidecar_witness :
  let fs : filesystem :=
    {[ "C"%string := replicate 8 x1f;
       orig_bytes_path "C" := list_byte_of_string "4: aa zz " ++ ["010"%byte] ]} in
  fst (Patcher_revert "C" fs) = Throw (invalid_argument "stoi") /\
  (forall k, k <> "C"%string -> k <> orig_bytes_path "C" ->
             snd (Patcher_revert "C" fs) !! k = fs !! k) /\
  (forall e, fst (Patcher_revert "C" fs) = Throw e ->
     is_Some (fs !! orig_bytes_path "C") /\
     snd (Patcher_revert "C" fs) !! orig_bytes_path "C" = fs !! orig_bytes_path "C").
Proof.
  cbv zeta. split; [vm_compute; reflexivity|].
  apply (revert_failure_keeps_sidecar "C"
           {[ "C"%string := replicate 8 x1f;
              orig_bytes_path "C" := list_byte_of_string "4: aa zz " ++ ["010"%byte] ]}).
  apply surjective_pairing.
Defined.

(** X7: a revert is not atomic.  When the sidecar holds well-formed
    records followed by a byte word whose value is above [ff], the revert
    throws [std::runtime_error] at that word; by then the records before
    it have been written back to the file, and the sidecar stays. *)
Theorem revert_stops_at_large_byte (p : string) (fs : filesystem) (c : list byte)
    (records : list (Z * list byte)) (v : Z) :
  fs !! p = Some c ->
  fs !! orig_bytes_path p = Some (sidecar_text records ++ to_hex v ++ [" "%byte]) ->
  Z.of_nat (length c) < 2 ^ 63 ->
  records_in_bounds (Z.of_nat (length c)) records ->
  256 <= v < 2 ^ 31 ->
  Patcher_revert p fs =
    (Throw (runtime_error "malformed revert file; byte too large"),
     <[p := replay records c]> fs).
Proof.
  intros Hp Hs Hlen Hb Hv. unfold Patcher_revert. rewrite Hs, Hp.
  assert (numeral (to_hex v) v) as Hnum by (apply to_hex_numeral; lia).
  unfold tokens. rewrite tokens_go_records.
  2:{ eapply Forall_impl; [exact Hb|]. simpl. intros r [? ?]. lia. }
  rewrite (tokens_go_word (to_hex v) " "%byte [] []); try reflexivity.
  2:{ by eapply numeral_no_space. }
  2:{ simpl. by destruct Hnum as (Hne & _). }
  simpl app at 1.
  destruct (revert_tokens_records_then records [to_hex v] c 0 Hlen Hb) as [p' Hrun].
  unfold open_stream. simpl tokens_go. rewrite Hrun.
  simpl revert_tokens. rewrite (ends_with_colon_numeral _ _ Hnum).
  rewrite stoi16_to_hex by lia.
  rewrite bind_run. simpl Assembler.lift. rewrite ret_run.
  change 255 with (Z.ones 8). rewrite Z.land_ones by lia.
  replace (v mod 2 ^ 8 =? v) with false.
  - reflexivity.
  - symmetry. apply Z.eqb_neq. pose proof (Z.mod_pos_bound v (2 ^ 8)). lia.
Qed.

Lemma revert_stops_at_large_byte_witness :
  Patcher_revert "C"
    {[ "C"%string := replicate 8 x1f;
       orig_bytes_path "C" :=
         sidecar_text [(4, [xaa; xbb])] ++ to_hex 0x100 ++ [" "%byte] ]} =
    (Throw (runtime_error "malformed revert file; byte too large"),
     <["C"%string := replay [(4, [xaa; xbb])] (replicate 8 x1f)]>
       {[ "C"%string := replicate 8 x1f;
          orig_bytes_path "C" :=
            sidecar_text [(4, [xaa; xbb])] ++ to_hex 0x100 ++ [" "%byte] ]}).
Proof.
  apply (revert_stops_at_large_byte "C" _ (replicate 8 x1f) [(4, [xaa; xbb])] 0x100).
  - vm_compute. reflexivity.
  - vm_compute. reflexivity.
  - vm_compute. reflexivity.
  - repeat constructor; vm_compute; discriminate.
  - lia.
Defined.

(** ** Address resolution and the cache tree *)

Section AddressResolution.

Import DyldCacheHeader.

Lemma mappings_lookup_throw ms vm_addr e :
  mappings_lookup ms vm_addr = Throw e -> e = out_of_range "address not found".
Proof.
  induction ms as [|m ms IH]; simpl; [by intros [= <-]|].
  destruct (_ && _); [discriminate|exact IH].
Qed.

Lemma mappings_lookup_unmapped ms vm_addr :
  mappings_lookup ms vm_addr = Throw (out_of_range "address not found") <->
  Forall (fun m => mapping_contains m vm_addr = false) ms.
Proof.
  induction ms as [|m ms IH]; simpl.
  - split; [constructor|reflexivity].
  - unfold mapping_contains at 1.
    destruct (_ && _) eqn:Hc.
    + split; [discriminate|]. intros H. apply Forall_inv in H.
      unfold mapping_contains in H. congruence.
    + rewrite IH. split; [by constructor|apply Forall_inv_tail].
Qed.

Lemma s64_small x : 0 <= x < 2 ^ 63 -> s64 x = x.
Proof.
  intros H. unfold s64, to_signed, wrap. rewrite Z.mod_small by lia.
  replace (x <? 2 ^ (64 - 1)) with true; [reflexivity|].
  symmetry. apply Z.ltb_lt. simpl. lia.
Qed.

Lemma mappings_lookup_regular ms vm_addr off :
  Forall (fun m => mapping_regular m = true) ms ->
  mappings_lookup ms vm_addr = Ok off ->
  exists m, In m ms /\ base m <= vm_addr < base m + size m /\
            off = file_off m + (vm_addr - base m).
Proof.
  induction ms as [|m ms IH]; intros Hreg H; simpl in H; [discriminate|].
  destruct (_ && _) eqn:Hc.
  - exists m. split; [by left|].
    pose proof (Forall_inv Hreg) as Hm. unfold mapping_regular in Hm.
    repeat (apply andb_true_iff in Hm as [Hm ?]).
    apply andb_true_iff in Hc as [Hlo Hhi].
    rewrite u64_small in Hhi by lia.
    injection H as <-. rewrite u64_small by lia. rewrite s64_small by lia.
    lia.
  - destruct (IH (Forall_inv_tail Hreg) H) as (m' & Hin & Hrest).
    exists m'. split; [by right|done].
Qed.

End AddressResolution.

(** X8: when the mappings of a header are regular -- 64-bit fields, an
    address range that does not wrap around and a file range below
    [2^63] -- an address that resolves lies in one of the mappings, and
    its file offset is as far from the start of the mapping's file range
    as the address is from the mapping's base: inside that file range. *)
Theorem vm_addr_to_file_off_in_mapping (h : DyldCacheHeader.t) (vm_addr off : Z) :
  Forall (fun m => mapping_regular m = true) (DyldCacheHeader.mappings h) ->
  DyldCacheHeader.vm_addr_to_file_off h vm_addr = Ok off ->
  exists m, In m (DyldCacheHeader.mappings h) /\
    DyldCacheHeader.base m <= vm_addr < DyldCacheHeader.base m + DyldCacheHeader.size m /\
    off - DyldCacheHeader.file_off m = vm_addr - DyldCacheHeader.base m /\
    DyldCacheHeader.file_off m <= off
      < DyldCacheHeader.file_off m + DyldCacheHeader.size m.
Proof.
  intros Hreg H. unfold DyldCacheHeader.vm_addr_to_file_off in H.
  destruct (mappings_lookup_regular _ _ _ Hreg H) as (m & Hin & Hr & ->).
  exists m. split; [done|]. split; [done|]. split; lia.
Qed.

Lemma vm_addr_to_file_off_in_mapping_witness :
  exists m, In m (DyldCacheHeader.mappings example_text_header) /\
    DyldCacheHeader.base m <= 0x180004000
      < DyldCacheHeader.base m + DyldCacheHeader.size m /\
    0x4000 - DyldCacheHeader.file_off m = 0x180004000 - DyldCacheHeader.base m /\
    DyldCacheHeader.file_off m <= 0x4000
      < DyldCacheHeader.file_off m + DyldCacheHeader.size m.
Proof.
  apply (vm_addr_to_file_off_in_mapping example_text_header 0x180004000 0x4000).
  - repeat constructor.
  - reflexivity.
Defined.

(** X9: the only exception [vm_addr_to_file_off] throws is
    [std::out_of_range], and it throws it exactly when no mapping of the
    header contains the address; a header without mappings resolves no
    address at all. *)
Theorem vm_addr_to_file_off_throws_iff_unmapped (h : DyldCacheHeader.t) (vm_addr : Z) :
  (forall e, DyldCacheHeader.vm_addr_to_file_off h vm_addr = Throw e ->
             e = out_of_range "address not found") /\
  (DyldCacheHeader.vm_addr_to_file_off h vm_addr = Throw (out_of_range "address not found")
   <-> Forall (fun m => mapping_contains m vm_addr = false) (DyldCacheHeader.mappings h)) /\
  (DyldCacheHeader.mappings h = [] ->
   DyldCacheHeader.vm_addr_to_file_off h vm_addr = Throw (out_of_range "address not found")).
Proof.
  unfold DyldCacheHeader.vm_addr_to_file_off. split; [|split].
  - intros e. apply mappings_lookup_throw.
  - apply mappings_lookup_unmapped.
  - intros ->. reflexivity.
Qed.

Section CacheTree.

Import DyldCacheHeader.

Lemma find_entry_spec es vm_addr :
  match CacheAnalyser.find_entry es vm_addr with
  | Ok (off, entry) =>
      exists es1 es2, es = es1 ++ entry :: es2 /\
        vm_addr_to_file_off (snd entry) vm_addr = Ok off /\
        Forall (fun e => vm_addr_to_file_off (snd e) vm_addr
                         = Throw (out_of_range "address not found")) es1
  | Throw e =>
      e = out_of_range "address not found" /\
      Forall (fun e => vm_addr_to_file_off (snd e) vm_addr
                       = Throw (out_of_range "address not found")) es
  end.
Proof.
  induction es as [|entry es IH]; simpl.
  - split; [reflexivity|constructor].
  - destruct (vm_addr_to_file_off (snd entry) vm_addr) as [off|e] eqn:Hm.
    + exists [], es. split; [reflexivity|]. split; [done|constructor].
    + pose proof (mappings_lookup_throw _ _ _ Hm) as ->.
      destruct (CacheAnalyser.find_entry es vm_addr) as [[off entry']|e'].
      * destruct IH as (es1 & es2 & -> & Hok & Hall).
        exists (entry :: es1), es2. split; [reflexivity|]. split; [done|].
        by constructor.
      * destruct IH as [-> Hall]. split; [reflexivity|]. by constructor.
Qed.

Tactic Notation "run" hyp(H) "as" ident(a) ident(s') ident(E) :=
  rewrite bind_run in H;
  lazymatch type of H with
  | (match ?m ?s with _ => _ end) = _ =>
      destruct (m s) as [[a | ?] s'] eqn:E; [|discriminate H]
  end.

(** What the constructor leaves at its defaults for a subcache and for
    a symbols file. *)
Lemma parse_sub_fields b s h s' :
  parse Sub b s = (Ok h, s') ->
  images h = [] /\ subcaches h = [] /\ symbol_file_uuid h = DyldUUID_default /\
  local_symbols_off h = 0 /\ local_symbols h = LocalSymbolsInfo_default.
Proof.
  intros H. unfold parse in H. run H as r s1 E. simpl in H. injection H as <- <-.
  unfold parse_head in E. simpl Type_eqb in E. cbv iota in E.
  run E as u1 sa Ea. run E as off sb Eb. run E as cnt sc Ec.
  run E as maps sd Ed. run E as u2 se Ee. run E as cbase sf Ef.
  injection E as <- <-. simpl. done.
Qed.

Lemma parse_symbols_fields b s h s' :
  parse Symbols b s = (Ok h, s') ->
  mappings h = [] /\ images h = [] /\ subcaches h = [] /\
  symbol_file_uuid h = DyldUUID_default.
Proof.
  intros H. unfold parse in H. run H as r s1 E. simpl in H. injection H as <- <-.
  unfold parse_head in E. simpl Type_eqb in E. cbv iota in E.
  run E as u1 sa Ea. run E as off sb Eb. run E as cnt sc Ec.
  cbn [negb andb] in E.
  run E as maps sd Ed. injection Ed as <- <-.
  run E as u2 se Ee. run E as cbase sf Ef.
  cbn [negb andb orb] in E.
  run E as uuid sg Eg. injection Eg as <- <-.
  run E as lsyms sh Eh.
  injection E as <- <-. simpl. done.
Qed.



Lemma open_subcaches_missing (fs : filesystem) base_path b subs sc :
  In sc subs -> fs !! subcache_path base_path sc = None ->
  exists e, open_subcaches fs base_path b subs = Throw e.
Proof.
  induction subs as [|sc' subs IH]; intros Hin Hnone; [done|].
  simpl. destruct Hin as [->|Hin].
  - unfold parse_file. unfold subcache_path in Hnone. rewrite Hnone. by eexists.
  - destruct (parse_file _ _ _ _ _); [|by eexists].
    destruct (IH Hin Hnone) as [e ->]. by eexists.
Qed.

End CacheTree.

(** X10: [find_entry_from_vm_addr] answers with the first member of the
    tree, Main first and then the subcaches in header order, whose header
    resolves the address, together with the offset that header gives; it
    throws [std::out_of_range], and nothing else, exactly when no member
    resolves it. *)
Theorem find_entry_from_vm_addr_first_member (a : CacheAnalyser.t) (vm_addr : Z) :
  match CacheAnalyser.find_entry_from_vm_addr a vm_addr with
  | Ok (off, entry) =>
      exists es1 es2, CacheAnalyser.caches a = es1 ++ entry :: es2 /\
        DyldCacheHeader.vm_addr_to_file_off (snd entry) vm_addr = Ok off /\
        Forall (fun e => DyldCacheHeader.vm_addr_to_file_off (snd e) vm_addr
                         = Throw (out_of_range "address not found")) es1
  | Throw e =>
      e = out_of_range "address not found" /\
      Forall (fun e => DyldCacheHeader.vm_addr_to_file_off (snd e) vm_addr
                       = Throw (out_of_range "address not found")) (CacheAnalyser.caches a)
  end.
Proof. apply find_entry_spec. Qed.

(** X11: the header of a subcache has no images and no subcaches, no
    symbol-file UUID and no local symbols; the header of a symbols file
    has no mappings either, so it resolves no address. *)
Theorem non_main_headers_are_partial (type : DyldCacheHeader.Type_) (main_cache_base : Z)
    (s s' : stream) (h : DyldCacheHeader.t) :
  type <> DyldCacheHeader.Main ->
  DyldCacheHeader.parse type main_cache_base s = (Ok h, s') ->
  DyldCacheHeader.images h = [] /\ DyldCacheHeader.subcaches h = [] /\
  DyldCacheHeader.symbol_file_uuid h = DyldUUID_default /\
  (type = DyldCacheHeader.Sub ->
     DyldCacheHeader.local_symbols_off h = 0 /\
     DyldCacheHeader.local_symbols h = DyldCacheHeader.LocalSymbolsInfo_default) /\
  (type = DyldCacheHeader.Symbols ->
     DyldCacheHeader.mappings h = [] /\
     forall vm_addr, DyldCacheHeader.vm_addr_to_file_off h vm_addr
                     = Throw (out_of_range "address not found")).
Proof.
  intros Hne H. destruct type; [done| |].
  - apply parse_sub_fields in H as (H1 & H2 & H3 & H4 & H5).
    repeat split; try done.
  - apply parse_symbols_fields in H as (H1 & H2 & H3 & H4).
    repeat split; try done.
    intros vm_addr. unfold DyldCacheHeader.vm_addr_to_file_off. by rewrite H1.
Qed.

Lemma non_main_headers_are_partial_witness :
  let h := {| DyldCacheHeader.mappings := [];
              DyldCacheHeader.images := [];
              DyldCacheHeader.cache_base := 0x180000000;
              DyldCacheHeader.local_symbols_off := 0;
              DyldCacheHeader.local_symbols := DyldCacheHeader.LocalSymbolsInfo_default;
              DyldCacheHeader.subcaches := [];
              DyldCacheHeader.symbol_file_uuid := DyldUUID_default |} in
  DyldCacheHeader.images h = [] /\ DyldCacheHeader.subcaches h = [] /\
  DyldCacheHeader.symbol_file_uuid h = DyldUUID_default /\
  (DyldCacheHeader.Symbols = DyldCacheHeader.Sub ->
     DyldCacheHeader.local_symbols_off h = 0 /\
     DyldCacheHeader.local_symbols h = DyldCacheHeader.LocalSymbolsInfo_default) /\
  (DyldCacheHeader.Symbols = DyldCacheHeader.Symbols ->
     DyldCacheHeader.mappings h = [] /\
     forall vm_addr, DyldCacheHeader.vm_addr_to_file_off h vm_addr
                     = Throw (out_of_range "address not found")).
Proof.
  apply (non_main_headers_are_partial DyldCacheHeader.Symbols 0
           (open_stream split_header_bytes)
           (snd (DyldCacheHeader.parse DyldCacheHeader.Symbols 0
                   (open_stream split_header_bytes)))).
  - discriminate.
  - vm_compute. reflexivity.
Defined.



(** X13: the tree cannot be built when a file its Main header asks for
    is missing: a subcache the header lists, or the symbols file when the
    header carries a symbol-file UUID that is not all zeros. *)
Theorem cache_tree_needs_every_file (fs : filesystem) (base_path : string)
    (main_header : DyldCacheHeader.t) :
  parse_file fs base_path DyldCacheHeader.Main 0 "failed to open main cache file"
    = Ok main_header ->
  (exists subcache, In subcache (DyldCacheHeader.subcaches main_header) /\
                    fs !! subcache_path base_path subcache = None) \/
  (DyldUUID_bool (DyldCacheHeader.symbol_file_uuid main_header) = true /\
   fs !! (base_path +:+ ".symbols") = None) ->
  exists e, CacheAnalyser_new fs base_path = Throw e.
Proof.
  intros Hmain Hmissing. unfold CacheAnalyser_new. rewrite Hmain.
  destruct Hmissing as [(sc & Hin & Hnone)|[Hu Hnone]].
  - destruct (open_subcaches_missing fs base_path
                (DyldCacheHeader.cache_base main_header) _ sc Hin Hnone) as [e ->].
    by eexists.
  - destruct (open_subcaches _ _ _ _); [|by eexists].
    rewrite Hu. unfold parse_file at 1. rewrite Hnone. by eexists.
Qed.

Lemma cache_tree_needs_every_file_witness :
  exists e, CacheAnalyser_new (delete "cache.01"%string example_cache_tree) "cache" = Throw e.
Proof.
  apply (cache_tree_needs_every_file (delete "cache.01"%string example_cache_tree) "cache"
           split_header_parsed).
  - vm_compute. reflexivity.
  - left. exists {| DyldCacheHeader.vm_off := 0x40000000; DyldCacheHeader.suffix := ".01" |}.
    split; [by left|]. vm_compute. reflexivity.
Defined.

(** ** The instruction encoders, read back *)

Section Encoders.

Lemma make_movz_value reg wide imm shift :
  0 <= imm < 2 ^ 16 ->
  (wide && negb (MOVZShift_val shift =? 0)) = false ->
  Assembler.make_movz reg wide imm shift =
    Ok ((Z.b2z wide * 1024 + 660 + MOVZShift_val shift) * 2 ^ 21
        + imm * 2 ^ 5 + GPReg_val reg).
Proof.
  intros Himm Hok. unfold Assembler.make_movz. rewrite Hok.
  pose proof (GPReg_val_bounds reg) as Hreg.
  set (r := GPReg_val reg) in *. clearbody r.
  f_equal.
  assert (Z.lor (Z.lor (u32 (Z.shiftl (Z.b2z wide) 31)) Assembler.MOVZ_INST)
            (u32 (Z.shiftl (MOVZShift_val shift) 21))
          = (Z.b2z wide * 1024 + 660 + MOVZShift_val shift) * 2 ^ 21) as ->
    by (destruct wide, shift; reflexivity).
  assert (0 <= Z.b2z wide * 1024 + 660 + MOVZShift_val shift < 2048) as Hk
    by (destruct wide, shift; simpl; lia).
  set (k := Z.b2z wide * 1024 + 660 + MOVZShift_val shift) in *. clearbody k.
  rewrite Z.shiftl_mul_pow2 by lia. rewrite u32_small by lia.
  rewrite lor_add_mul by lia.
  replace (k * 2 ^ 21 + imm * 2 ^ 5) with ((k * 2 ^ 16 + imm) * 2 ^ 5) by lia.
  rewrite lor_add_mul by lia. lia.
Qed.

Lemma make_add_value imm wide source_reg dest_reg shift :
  0 <= imm < 4096 ->
  Assembler.make_add imm wide source_reg dest_reg shift =
    Ok ((Z.b2z wide * 512 + 68 + ADDShift_val shift) * 2 ^ 22
        + imm * 2 ^ 10 + GPReg_val source_reg * 2 ^ 5 + GPReg_val dest_reg).
Proof.
  intros Himm. unfold Assembler.make_add.
  rewrite bit_extract_div_mod by lia.
  change (2 ^ 12) with 4096. rewrite (Z.div_small imm 4096) by lia.
  simpl negb. cbv iota. f_equal.
  pose proof (GPReg_val_bounds source_reg) as Hrn.
  pose proof (GPReg_val_bounds dest_reg) as Hrd.
  set (rn := GPReg_val source_reg) in *. set (rd := GPReg_val dest_reg) in *.
  clearbody rn rd.
  assert (Z.lor (Z.lor Assembler.ADD_INST (u32 (Z.shiftl (Z.b2z wide) 31)))
            (u32 (Z.shiftl (ADDShift_val shift) 22))
          = (Z.b2z wide * 512 + 68 + ADDShift_val shift) * 2 ^ 22) as ->
    by (destruct wide, shift; reflexivity).
  assert (0 <= Z.b2z wide * 512 + 68 + ADDShift_val shift < 1024) as Hk
    by (destruct wide, shift; simpl; lia).
  set (k := Z.b2z wide * 512 + 68 + ADDShift_val shift) in *. clearbody k.
  rewrite !Z.shiftl_mul_pow2 by lia. rewrite !u32_small by lia.
  rewrite lor_add_mul by lia.
  replace (k * 2 ^ 22 + imm * 2 ^ 10) with ((k * 2 ^ 12 + imm) * 2 ^ 10) by lia.
  rewrite lor_add_mul by lia.
  replace ((k * 2 ^ 12 + imm) * 2 ^ 10 + rn * 2 ^ 5)
    with (((k * 2 ^ 12 + imm) * 2 ^ 5 + rn) * 2 ^ 5) by lia.
  rewrite lor_add_mul by lia. lia.
Qed.

Lemma sign_extend_26 f :
  0 <= f < 2 ^ 26 ->
  s32 (sign_extend 32 f 25) = sign_extend_field 26 f.
Proof.
  intros Hf. unfold sign_extend, sign_extend_field.
  rewrite bit_test_testbit by lia.
  change (26 - 1) with 25. change (32 - 25) with 7.
  rewrite make_bit_mask_ones by lia.
  rewrite Z.shiftl_mul_pow2 by lia. change (Z.ones 7) with 127.
  destruct (Z.ltb_spec f (2 ^ 25)) as [Hlow|Hhigh].
  - assert (Z.testbit f 25 = false) as ->.
    { destruct (Z.eq_dec f 0) as [->|Hnz]; [apply Z.bits_0|].
      apply Z.bits_above_log2; [lia|]. apply Z.log2_lt_pow2; lia. }
    apply s32_small. lia.
  - assert (Z.testbit f 25 = true) as ->.
    { apply Z.testbit_true; [lia|].
      replace f with (1 * 2 ^ 25 + (f - 2 ^ 25)) by lia.
      rewrite Z.div_add_l by lia. rewrite Z.div_small by lia. reflexivity. }
    replace f with (Z.lor (1 * 2 ^ 25) (f - 2 ^ 25)) at 1
      by (rewrite lor_add_mul by lia; lia).
    rewrite (Z.lor_comm (1 * 2 ^ 25)), <- Z.lor_assoc.
    change (Z.lor (1 * 2 ^ 25) (127 * 2 ^ 25)) with (127 * 2 ^ 25).
    rewrite Z.lor_comm, lor_add_mul by lia.
    unfold s32, to_signed, wrap. change (2 ^ (32 - 1)) with (2 ^ 31).
    rewrite Z.mod_small by lia.
    replace (127 * 2 ^ 25 + (f - 2 ^ 25) <? 2 ^ 31) with false by lia. lia.
Qed.

(** The first half of [write_adrp_add_incr]: the ADRP staged at the
    cursor. *)
Lemma adrp_staged_first p h A T reg pt oA :
  0 <= A < 2 ^ 64 -> 0 <= T < 2 ^ 64 ->
  Z.abs (page_of T - page_of A) <= 0xFFFFF000 ->
  DyldCacheHeader.vm_addr_to_file_off h A = Ok oA ->
  exists adrp,
    (let pc_page := Z.land A 0xFFFFFFFFFFFFF000 in
     let target_page := Z.land T 0xFFFFFFFFFFFFF000 in
     if pc_page <? target_page
     then
       let off_pages := u64 (target_page - pc_page) in
       if Assembler.ADRP_MAX <? off_pages
       then throw (invalid_argument "target too far away")
       else inst <- Assembler.lift (Assembler.make_adrp (s32 (Z.shiftr off_pages 0xC)) reg) ;;
            Assembler.write_inst_incr p h A inst
     else
       let off_pages := u64 (pc_page - target_page) in
       if Assembler.ADRP_MAX <? off_pages
       then throw (invalid_argument "target too far away")
       else inst <- Assembler.lift
                      (Assembler.make_adrp (s32 (u64 (- Z.shiftr off_pages 0xC))) reg) ;;
            Assembler.write_inst_incr p h A inst) pt
    = (Ok (u64 (A + 4)), snd (Patcher_write p oA (Assembler.u32_to_bytes adrp) pt)) /\
    0 <= adrp < 2 ^ 32 /\ is_adrp adrp = true /\ adrp_rd adrp = GPReg_val reg /\
    adrp_exec adrp A = page_of T.
Proof.
  intros HA HT Hnear HoA.
  destruct (page_of_facts A HA) as (HpA & Ha & HA' & HAlow).
  destruct (page_of_facts T HT) as (HpT & Ht & HT' & HTlow).
  change (Z.land A 0xFFFFFFFFFFFFF000) with (page_of A).
  change (Z.land T 0xFFFFFFFFFFFFF000) with (page_of T).
  change Assembler.ADRP_MAX with 0xFFFFF000.
  set (a := A / 4096) in *. set (t := T / 4096) in *.
  set (pA := page_of A) in *. set (pT := page_of T) in *.
  assert (forall off,
            - 0xFFFFF <= off <= 0xFFFFF -> off = t - a ->
            exists adrp,
              Assembler.make_adrp off reg = Ok adrp /\ 0 <= adrp < 2 ^ 32 /\
              is_adrp adrp = true /\ adrp_rd adrp = GPReg_val reg /\
              adrp_exec adrp A = pT) as Hadrp.
  { intros off Hoff Heq.
    destruct (make_adrp_decode off reg Hoff) as (adrp & Hmk & Hb & Hisa & Hrd & Hpo).
    exists adrp. split; [done|]. split; [done|]. split; [done|]. split; [done|].
    unfold adrp_exec. fold (page_of A). fold pA. rewrite Hpo.
    replace (pA + off * 4096) with pT by lia.
    apply u64_small. lia. }
  cbv zeta. destruct (Z.ltb_spec pA pT) as [Hlt|Hge].
  - rewrite u64_small by lia.
    destruct (Z.ltb_spec 0xFFFFF000 (pT - pA)) as [?|_]; [lia|].
    rewrite Z.shiftr_div_pow2 by lia. change (2 ^ 12) with 4096.
    replace ((pT - pA) / 4096) with (t - a) by (apply Z.div_unique_exact; lia).
    rewrite s32_small by lia.
    destruct (Hadrp (t - a)) as (adrp & Hmk & Hrest); [lia|reflexivity|].
    exists adrp. split; [|exact Hrest].
    rewrite bind_run, Hmk. simpl Assembler.lift. rewrite ret_run.
    by apply write_inst_incr_ok.
  - rewrite u64_small by lia.
    destruct (Z.ltb_spec 0xFFFFF000 (pA - pT)) as [?|_]; [lia|].
    rewrite Z.shiftr_div_pow2 by lia. change (2 ^ 12) with 4096.
    replace ((pA - pT) / 4096) with (a - t) by (apply Z.div_unique_exact; lia).
    rewrite s32_u64_neg by lia.
    destruct (Hadrp (- (a - t))) as (adrp & Hmk & Hrest); [lia|lia|].
    exists adrp. split; [|exact Hrest].
    rewrite bind_run, Hmk. simpl Assembler.lift. rewrite ret_run.
    by apply write_inst_incr_ok.
Qed.

End Encoders.

(** X14: [disas_bl] computes the branch target of a BL: the address of
    the instruction plus four times its 26-bit immediate read as a signed
    number, modulo [2^64]. *)
Theorem disas_bl_is_branch_target (inst_addr inst : Z) :
  0 <= inst < 2 ^ 32 ->
  Assembler.disas_bl inst_addr inst = bl_target inst_addr inst.
Proof.
  intros Hinst. unfold Assembler.disas_bl, bl_target. cbv zeta.
  rewrite bit_extract_div_mod by lia.
  unfold field. change (2 ^ 0) with 1. rewrite Z.div_1_r.
  assert (0 <= inst mod 2 ^ 26 < 2 ^ 26) as Hf by (apply Z.mod_pos_bound; lia).
  set (f := inst mod 2 ^ 26) in *. clearbody f.
  rewrite sign_extend_26 by lia.
  assert (- 2 ^ 25 <= sign_extend_field 26 f < 2 ^ 25) as Hs.
  { unfold sign_extend_field. change (2 ^ (26 - 1)) with (2 ^ 25).
    destruct (Z.ltb_spec f (2 ^ 25)); lia. }
  set (d := sign_extend_field 26 f) in *. clearbody d.
  change Assembler.INST_NUM_BYTES with 4.
  rewrite s32_small by lia.
  destruct (Z.ltb_spec (d * 4) 0) as [Hneg|Hpos].
  - rewrite u32_small by lia. f_equal. lia.
  - rewrite u32_small by lia. f_equal. lia.
Qed.

Lemma disas_bl_is_branch_target_witness :
  Assembler.disas_bl 0x180001000 0x97FFFFFE = bl_target 0x180001000 0x97FFFFFE /\
  bl_target 0x180001000 0x97FFFFFE = 0x180000FF8.
Proof.
  split; [|reflexivity].
  apply (disas_bl_is_branch_target 0x180001000 0x97FFFFFE). lia.
Defined.

(** X15: [make_movz] refuses exactly the 64-bit form with a shift, which
    A64 has, and in every other case builds from a 16-bit immediate the
    word with the MOVZ opcode bits and the width, the halfword, the
    immediate and the register it was given.  That word is a MOVZ for the
    64-bit form without shift and for the 32-bit form with a shift of 0
    or 16; for the 32-bit form with a shift of 32 or 48, which
    [make_movz] does not refuse, it is a word that A64 leaves
    undefined. *)
Theorem make_movz_decodes (reg : GPReg) (wide : bool) (imm : Z) (shift : MOVZShift) :
  0 <= imm < 2 ^ 16 ->
  if wide && negb (MOVZShift_val shift =? 0)
  then Assembler.make_movz reg wide imm shift
       = Throw (invalid_argument "cannot have a shift for wide movz")
  else exists inst,
    Assembler.make_movz reg wide imm shift = Ok inst /\ 0 <= inst < 2 ^ 32 /\
    field inst 23 8 = 0xA5 /\ movz_sf inst = Z.b2z wide /\
    movz_hw inst = MOVZShift_val shift /\ movz_imm16 inst = imm /\
    movz_rd inst = GPReg_val reg /\
    is_movz inst = (wide || (MOVZShift_val shift <? 2)).
Proof.
  intros Himm. destruct (wide && negb (MOVZShift_val shift =? 0)) eqn:Hbad.
  - unfold Assembler.make_movz. by rewrite Hbad.
  - eexists. split; [by apply make_movz_value|].
    pose proof (GPReg_val_bounds reg) as Hreg.
    assert (0 <= Z.b2z wide <= 1) as Hw by (destruct wide; simpl; lia).
    assert (0 <= MOVZShift_val shift < 4) as Hs by (destruct shift; simpl; lia).
    assert (is_movz_of : forall w sv x,
              field x 23 8 = 0xA5 -> movz_sf x = Z.b2z w -> movz_hw x = sv ->
              is_movz x = (w || (sv <? 2))).
    { intros w0 sv0 x H1 H2 H3. unfold is_movz. rewrite H1, H2, H3.
      destruct w0; reflexivity. }
    set (r := GPReg_val reg) in *. set (w := Z.b2z wide) in *.
    set (sv := MOVZShift_val shift) in *.
    assert (field ((w * 1024 + 660 + sv) * 2 ^ 21 + imm * 2 ^ 5 + r) 23 8 = 0xA5) as Hop.
    { clearbody r w sv.
      replace ((w * 1024 + 660 + sv) * 2 ^ 21 + imm * 2 ^ 5 + r)
        with (w * 2 ^ (23 + 8) + 165 * 2 ^ 23 + (sv * 2 ^ 21 + imm * 2 ^ 5 + r)) by lia.
      rewrite field_of_parts by lia. reflexivity. }
    assert (movz_sf ((w * 1024 + 660 + sv) * 2 ^ 21 + imm * 2 ^ 5 + r) = w) as Hsf.
    { clearbody r w sv. unfold movz_sf.
      replace ((w * 1024 + 660 + sv) * 2 ^ 21 + imm * 2 ^ 5 + r)
        with (0 * 2 ^ (31 + 1) + w * 2 ^ 31
              + ((660 + sv) * 2 ^ 21 + imm * 2 ^ 5 + r)) by lia.
      apply field_of_parts; lia. }
    assert (movz_hw ((w * 1024 + 660 + sv) * 2 ^ 21 + imm * 2 ^ 5 + r) = sv) as Hhw.
    { clearbody r w sv. unfold movz_hw.
      replace ((w * 1024 + 660 + sv) * 2 ^ 21 + imm * 2 ^ 5 + r)
        with ((w * 256 + 165) * 2 ^ (21 + 2) + sv * 2 ^ 21 + (imm * 2 ^ 5 + r)) by lia.
      apply field_of_parts; lia. }
    split; [clearbody r w sv; lia|].
    split; [exact Hop|]. split; [exact Hsf|]. split; [exact Hhw|].
    split; [|split].
    + clearbody r w sv. unfold movz_imm16.
      replace ((w * 1024 + 660 + sv) * 2 ^ 21 + imm * 2 ^ 5 + r)
        with ((w * 1024 + 660 + sv) * 2 ^ (5 + 16) + imm * 2 ^ 5 + r) by lia.
      apply field_of_parts; lia.
    + clearbody r w sv. unfold movz_rd.
      replace ((w * 1024 + 660 + sv) * 2 ^ 21 + imm * 2 ^ 5 + r)
        with (((w * 1024 + 660 + sv) * 2 ^ 16 + imm) * 2 ^ (0 + 5) + r * 2 ^ 0 + 0) by lia.
      apply field_of_parts; lia.
    + apply is_movz_of; done.
Qed.

Lemma make_movz_decodes_witness :
  (exists inst,
     Assembler.make_movz R0 false 1 MOVZShift_0 = Ok inst /\ 0 <= inst < 2 ^ 32 /\
     field inst 23 8 = 0xA5 /\ movz_sf inst = 0 /\ movz_hw inst = 0 /\
     movz_imm16 inst = 1 /\ movz_rd inst = 0 /\ is_movz inst = true) /\
  (exists inst,
     Assembler.make_movz R3 false 0xABCD MOVZShift_48 = Ok inst /\ 0 <= inst < 2 ^ 32 /\
     field inst 23 8 = 0xA5 /\ movz_sf inst = 0 /\ movz_hw inst = 3 /\
     movz_imm16 inst = 0xABCD /\ movz_rd inst = 3 /\ is_movz inst = false) /\
  Assembler.make_movz R3 false 0xABCD MOVZShift_48 = Ok 0x52F579A3.
Proof.
  split; [|split].
  - apply (make_movz_decodes R0 false 1 MOVZShift_0). lia.
  - apply (make_movz_decodes R3 false 0xABCD MOVZShift_48). lia.
  - reflexivity.
Defined.

(** X16: [make_add] refuses exactly the 16-bit immediates that do not fit
    12 bits; for the others the word it builds reads back as an ADD
    (immediate) with the width, the shift flag, the immediate and the two
    registers it was given. *)
Theorem make_add_decodes (imm : Z) (wide : bool) (source_reg dest_reg : GPReg)
    (shift : ADDShift) :
  0 <= imm < 2 ^ 16 ->
  if imm <? 4096
  then exists inst,
    Assembler.make_add imm wide source_reg dest_reg shift = Ok inst /\
    0 <= inst < 2 ^ 32 /\
    is_add_imm inst = true /\ add_imm_sf inst = Z.b2z wide /\
    add_imm_sh inst = ADDShift_val shift /\ add_imm12 inst = imm /\
    add_imm_rn inst = GPReg_val source_reg /\ add_imm_rd inst = GPReg_val dest_reg
  else Assembler.make_add imm wide source_reg dest_reg shift
       = Throw (invalid_argument "invalid imm for add").
Proof.
  intros Himm. destruct (Z.ltb_spec imm 4096) as [Hfit|Hbig].
  - eexists. split; [apply make_add_value; lia|].
    pose proof (GPReg_val_bounds source_reg) as Hrn.
    pose proof (GPReg_val_bounds dest_reg) as Hrd.
    assert (0 <= Z.b2z wide <= 1) as Hw by (destruct wide; simpl; lia).
    assert (0 <= ADDShift_val shift <= 1) as Hs by (destruct shift; simpl; lia).
    set (rn := GPReg_val source_reg) in *. set (rd := GPReg_val dest_reg) in *.
    set (w := Z.b2z wide) in *. set (sv := ADDShift_val shift) in *.
    clearbody rn rd w sv.
    split; [lia|]. split; [|split; [|split; [|split; [|split]]]].
    + unfold is_add_imm.
      replace ((w * 512 + 68 + sv) * 2 ^ 22 + imm * 2 ^ 10 + rn * 2 ^ 5 + rd)
        with (w * 2 ^ (23 + 8) + 34 * 2 ^ 23
              + (sv * 2 ^ 22 + imm * 2 ^ 10 + rn * 2 ^ 5 + rd)) by lia.
      rewrite field_of_parts by lia. reflexivity.
    + unfold add_imm_sf.
      replace ((w * 512 + 68 + sv) * 2 ^ 22 + imm * 2 ^ 10 + rn * 2 ^ 5 + rd)
        with (0 * 2 ^ (31 + 1) + w * 2 ^ 31
              + ((68 + sv) * 2 ^ 22 + imm * 2 ^ 10 + rn * 2 ^ 5 + rd)) by lia.
      apply field_of_parts; lia.
    + unfold add_imm_sh.
      replace ((w * 512 + 68 + sv) * 2 ^ 22 + imm * 2 ^ 10 + rn * 2 ^ 5 + rd)
        with ((w * 256 + 34) * 2 ^ (22 + 1) + sv * 2 ^ 22
              + (imm * 2 ^ 10 + rn * 2 ^ 5 + rd)) by lia.
      apply field_of_parts; lia.
    + unfold add_imm12.
      replace ((w * 512 + 68 + sv) * 2 ^ 22 + imm * 2 ^ 10 + rn * 2 ^ 5 + rd)
        with ((w * 512 + 68 + sv) * 2 ^ (10 + 12) + imm * 2 ^ 10 + (rn * 2 ^ 5 + rd)) by lia.
      apply field_of_parts; lia.
    + unfold add_imm_rn.
      replace ((w * 512 + 68 + sv) * 2 ^ 22 + imm * 2 ^ 10 + rn * 2 ^ 5 + rd)
        with (((w * 512 + 68 + sv) * 2 ^ 12 + imm) * 2 ^ (5 + 5) + rn * 2 ^ 5 + rd) by lia.
      apply field_of_parts; lia.
    + unfold add_imm_rd.
      replace ((w * 512 + 68 + sv) * 2 ^ 22 + imm * 2 ^ 10 + rn * 2 ^ 5 + rd)
        with (((w * 512 + 68 + sv) * 2 ^ 17 + imm * 2 ^ 5 + rn) * 2 ^ (0 + 5)
              + rd * 2 ^ 0 + 0) by lia.
      apply field_of_parts; lia.
  - unfold Assembler.make_add.
    rewrite bit_extract_div_mod by lia. change (2 ^ 12) with 4096. change (2 ^ 4) with 16.
    assert (1 <= imm / 4096 < 16) as Hq.
    { split; [apply Z.div_le_lower_bound; lia|apply Z.div_lt_upper_bound; lia]. }
    rewrite Z.mod_small by lia.
    replace (imm / 4096 =? 0) with false by lia. reflexivity.
Qed.

Lemma make_add_decodes_witness :
  Assembler.make_add 0x1000 true R1 R2 ADDShift_0
    = Throw (invalid_argument "invalid imm for add").
Proof.
  apply (make_add_decodes 0x1000 true R1 R2 ADDShift_0). lia.
Defined.

(** X17: an instruction staged with [write_inst] on a fresh buffer and
    committed is in the file afterwards: the four bytes at the offset the
    header gives for the address read back, little-endian, as the
    instruction; every other byte of the file is as before, and the
    sidecar holds one line with the four bytes displaced. *)
Theorem write_inst_commit_reads_back (p : string) (h : DyldCacheHeader.t) (target inst : Z)
    (fs : filesystem) (c : list byte) (off : Z) :
  0 <= inst < 2 ^ 32 ->
  DyldCacheHeader.vm_addr_to_file_off h target = Ok off ->
  fs !! p = Some c ->
  0 <= off -> off + 4 <= Z.of_nat (length c) ->
  exists pt fs' c',
    Assembler.write_inst p h target inst Patcher_new = (Ok tt, pt) /\
    Patcher_flush pt fs = (Ok tt, fs') /\
    fs' !! p = Some c' /\
    u32_at c' off = inst /\
    length c' = length c /\
    (forall k : nat, (k < Z.to_nat off \/ Z.to_nat off + 4 <= k)%nat -> c' !! k = c !! k) /\
    fs' !! orig_bytes_path p = Some (sidecar_line off (bytes_at c off 4)).
Proof.
  intros Hinst Hoff Hp H0 H1.
  set (bytes := Assembler.u32_to_bytes inst).
  assert (length bytes = 4%nat) as Hlen by reflexivity.
  exists {| write_queue := [(p, [(off, bytes)])] |}.
  exists (<[orig_bytes_path p := sidecar_text (displaced c [(off, bytes)])]>
            (<[p := patched c [(off, bytes)]]> fs)).
  exists (write_at c (Z.to_nat off) bytes).
  split; [|split; [|split; [|split; [|split; [|split]]]]].
  - unfold Assembler.write_inst. rewrite bind_run, Hoff. reflexivity.
  - unfold Patcher_flush. simpl write_queue. simpl flush_queue. rewrite bind_run.
    rewrite (flush_path_ok fs p [(off, bytes)] c Hp); [reflexivity|].
    simpl. unfold entry_in_bounds. simpl. rewrite andb_true_r.
    apply andb_true_iff. split; [apply Z.leb_le; lia|apply Z.leb_le; lia].
  - rewrite lookup_insert_ne by apply orig_bytes_path_ne.
    rewrite lookup_insert_eq. reflexivity.
  - unfold u32_at. change 4 with (Z.of_nat (length bytes)).
    rewrite bytes_at_write_at by (rewrite ?Hlen; lia).
    by apply le_to_Z_u32_to_bytes.
  - apply length_write_at. rewrite Hlen. lia.
  - intros k Hk. rewrite lookup_write_at by (rewrite Hlen; lia).
    rewrite Hlen. case_decide; [lia|reflexivity].
  - rewrite lookup_insert_eq. unfold sidecar_text. simpl.
    rewrite app_nil_r. reflexivity.
Qed.

Lemma write_inst_commit_reads_back_witness :
  exists pt fs' c',
    Assembler.write_inst "cache" example_bl_header 8 0xD65F03C0 Patcher_new = (Ok tt, pt) /\
    Patcher_flush pt {[ "cache"%string := replicate 16 xaa ]} = (Ok tt, fs') /\
    fs' !! "cache"%string = Some c' /\
    u32_at c' 8 = 0xD65F03C0 /\
    length c' = length (replicate 16 xaa) /\
    (forall k : nat, (k < Z.to_nat 8 \/ Z.to_nat 8 + 4 <= k)%nat ->
                     c' !! k = replicate 16 xaa !! k) /\
    fs' !! orig_bytes_path "cache"
      = Some (sidecar_line 8 (bytes_at (replicate 16 xaa) 8 4)).
Proof.
  apply (write_inst_commit_reads_back "cache" example_bl_header 8 0xD65F03C0
           {[ "cache"%string := replicate 16 xaa ]} (replicate 16 xaa) 8).
  - lia.
  - reflexivity.
  - reflexivity.
  - lia.
  - simpl. lia.
Defined.

(** X18: [write_adrp_add_incr] stages its two instructions one after the
    other and does not take the first back when the second fails.  When
    the cursor [A] resolves, the target is in range and [A + 4] does not
    resolve, the call throws [std::out_of_range] with the ADRP staged at
    the offset of [A]. *)
Theorem write_adrp_add_half_staged (p : string) (h : DyldCacheHeader.t)
    (A T : Z) (reg : GPReg) (pt : Patcher) (oA : Z) :
  0 <= A < 2 ^ 64 -> 0 <= T < 2 ^ 64 ->
  Z.abs (page_of T - page_of A) <= 0xFFFFF000 ->
  DyldCacheHeader.vm_addr_to_file_off h A = Ok oA ->
  DyldCacheHeader.vm_addr_to_file_off h (u64 (A + 4))
    = Throw (out_of_range "address not found") ->
  exists adrp,
    Assembler.write_adrp_add_incr p h A T reg pt =
      (Throw (out_of_range "address not found"),
       snd (Patcher_write p oA (Assembler.u32_to_bytes adrp) pt)) /\
    is_adrp adrp = true /\ adrp_rd adrp = GPReg_val reg /\
    adrp_exec adrp A = page_of T.
Proof.
  intros HA HT Hnear HoA HoA4.
  destruct (adrp_staged_first p h A T reg pt oA HA HT Hnear HoA)
    as (adrp & Hfirst & Hb & Hisa & Hrd & Hex).
  exists adrp. split; [|done].
  unfold Assembler.write_adrp_add_incr. cbv zeta in Hfirst |- *.
  rewrite bind_run, Hfirst.
  change 0xFFF with (Z.ones 12). rewrite Z.land_ones by lia. change (2 ^ 12) with 4096.
  assert (0 <= T mod 4096 < 4096) as Hlow by (apply Z.mod_pos_bound; lia).
  assert (u16 (T mod 4096) = T mod 4096) as -> by (apply wrap_small; lia).
  rewrite bind_run, make_add_value by lia.
  simpl Assembler.lift. rewrite ret_run.
  unfold Assembler.write_inst_incr, Assembler.write_inst.
  rewrite !bind_run, HoA4. reflexivity.
Qed.

Lemma write_adrp_add_half_staged_witness :
  exists adrp,
    Assembler.write_adrp_add_incr "cache" example_bl_header 0xFC 0x2010 R0 Patcher_new =
      (Throw (out_of_range "address not found"),
       snd (Patcher_write "cache" 0xFC (Assembler.u32_to_bytes adrp) Patcher_new)) /\
    is_adrp adrp = true /\ adrp_rd adrp = GPReg_val R0 /\
    adrp_exec adrp 0xFC = page_of 0x2010.
Proof.
  apply (write_adrp_add_half_staged "cache" example_bl_header 0xFC 0x2010 R0
           Patcher_new 0xFC).
  - lia.
  - lia.
  - vm_compute. discriminate.
  - reflexivity.
  - reflexivity.
Defined.

(** ** The instruction scans *)

Section Scans.

Lemma scan_is_loop sc h start_addr rev inst_limit s :
  scan sc h start_addr rev inst_limit s =
    (base <- Assembler.lift (DyldCacheHeader.vm_addr_to_file_off h start_addr) ;;
     seek_stream base ios_beg ;;;
     scan_loop sc (Z.to_nat inst_limit) 0 start_addr rev) s.
Proof.
  assert (forall n i s,
            match sc with
            | Scan_cbz wide => Assembler.find_cbz_loop n i start_addr wide rev s
            | Scan_bl target => Assembler.find_bl_loop n i start_addr target rev s
            | Scan_blra zero key_b =>
                Assembler.find_blra_loop n i start_addr zero key_b rev s
            end = scan_loop sc n i start_addr rev s) as Hloop.
  { clear s. induction n as [|n IH]; intros i s; destruct sc; try reflexivity.
    all: simpl; rewrite !bind_run.
    all: destruct (read_u32_le s) as [[inst|e] s1]; [|reflexivity].
    all: rewrite !bind_run.
    all: destruct ((if rev then seek_stream (- (Assembler.INST_NUM_BYTES * 2)) ios_cur
                    else ret tt) s1) as [[[]|e] s2]; [|reflexivity].
    all: match goal with
         | |- (if ?c then _ else _) _ = _ => destruct c; [reflexivity|apply IH]
         end. }
  unfold scan. destruct sc.
  all: unfold Assembler.find_cbz, Assembler.find_bl, Assembler.find_blra.
  all: rewrite !bind_run.
  all: destruct (Assembler.lift _ s) as [[base|e] s1]; [|reflexivity].
  all: rewrite !bind_run.
  all: destruct (seek_stream base ios_beg s1) as [[[]|e] s2]; [|reflexivity].
  all: apply Hloop.
Qed.

Lemma scan_loop_step sc n i start_addr rev c q :
  0 <= q -> q + 4 <= Z.of_nat (length c) -> (rev = true -> 4 <= q) ->
  scan_loop sc (S n) i start_addr rev {| s_data := c; s_pos := q; s_good := true |} =
    if scan_test sc (Assembler.scan_addr start_addr rev i) (u32_at c q)
    then (Ok (Assembler.scan_addr start_addr rev i),
          {| s_data := c; s_pos := candidate_off q rev 1; s_good := true |})
    else scan_loop sc n (i + 1) start_addr rev
           {| s_data := c; s_pos := candidate_off q rev 1; s_good := true |}.
Proof.
  intros H0 H1 Hrev. simpl scan_loop. rewrite bind_run, read_u32_le_run by lia.
  rewrite bind_run. unfold candidate_off. destruct rev.
  - unfold seek_stream. simpl s_good. simpl s_pos. simpl s_data. cbv iota. simpl negb.
    cbv iota. change (- (Assembler.INST_NUM_BYTES * 2)) with (-8).
    specialize (Hrev eq_refl).
    replace (q + 4 + -8 <? 0) with false by lia.
    replace (q + 4 + -8) with (q - 4 * 1) by lia.
    destruct (scan_test _ _ _); reflexivity.
  - rewrite ret_run. replace (q + 4 * 1) with (q + 4) by lia.
    destruct (scan_test _ _ _); reflexivity.
Qed.

(** [k] candidates that fail the test are passed over. *)
Lemma scan_loop_skip sc start_addr rev c : forall (k n : nat) i q,
  (k = 0%nat \/ scan_window q rev (Z.of_nat k - 1) (Z.of_nat (length c)) = true) ->
  (forall j : nat, (j < k)%nat ->
     scan_test sc (Assembler.scan_addr start_addr rev (i + Z.of_nat j))
       (u32_at c (candidate_off q rev (Z.of_nat j))) = false) ->
  scan_loop sc (k + n) i start_addr rev {| s_data := c; s_pos := q; s_good := true |} =
  scan_loop sc n (i + Z.of_nat k) start_addr rev
    {| s_data := c; s_pos := candidate_off q rev (Z.of_nat k); s_good := true |}.
Proof.
  induction k as [|k IH]; intros n i q Hw Hmiss.
  - simpl. rewrite Z.add_0_r. unfold candidate_off.
    destruct rev; do 3 f_equal; lia.
  - destruct Hw as [?|Hw]; [lia|].
    unfold scan_window in Hw.
    assert (0 <= q /\ q + 4 <= Z.of_nat (length c) /\ (rev = true -> 4 <= q)) as (H0 & H1 & H2).
    { destruct rev; apply andb_true_iff in Hw as [Ha Hb];
        apply Z.leb_le in Ha; apply Z.leb_le in Hb; repeat split; try lia; discriminate. }
    change (S k + n)%nat with (S (k + n)).
    rewrite scan_loop_step by done.
    pose proof (Hmiss 0%nat ltac:(lia)) as Hm0.
    change (Z.of_nat 0) with 0 in Hm0.
    replace (i + 0) with i in Hm0 by lia.
    replace (candidate_off q rev 0) with q in Hm0
      by (unfold candidate_off; destruct rev; lia).
    rewrite Hm0.
    rewrite IH.
    + replace (i + 1 + Z.of_nat k) with (i + Z.of_nat (S k)) by lia.
      replace (candidate_off (candidate_off q rev 1) rev (Z.of_nat k))
        with (candidate_off q rev (Z.of_nat (S k)))
        by (unfold candidate_off; destruct rev; lia).
      reflexivity.
    + destruct k; [by left|right]. unfold scan_window, candidate_off.
      destruct rev; apply andb_true_iff in Hw as [Ha Hb];
        apply Z.leb_le in Ha; apply Z.leb_le in Hb;
        apply andb_true_iff; split; apply Z.leb_le; lia.
    + intros j Hj. specialize (Hmiss (S j) ltac:(lia)).
      replace (i + 1 + Z.of_nat j) with (i + Z.of_nat (S j)) by lia.
      replace (candidate_off (candidate_off q rev 1) rev (Z.of_nat j))
        with (candidate_off q rev (Z.of_nat (S j)))
        by (unfold candidate_off; destruct rev; lia).
      exact Hmiss.
Qed.

Lemma scan_start sc h start_addr rev inst_limit s base :
  s_good s = true ->
  DyldCacheHeader.vm_addr_to_file_off h start_addr = Ok base -> 0 <= base ->
  scan sc h start_addr rev inst_limit s =
    scan_loop sc (Z.to_nat inst_limit) 0 start_addr rev
      {| s_data := s_data s; s_pos := base; s_good := true |}.
Proof.
  intros Hg Hoff Hb. rewrite scan_is_loop, bind_run, Hoff.
  simpl Assembler.lift. rewrite ret_run, bind_run, seek_beg_run by done. reflexivity.
Qed.

End Scans.

(** X19: each of the three scans, forward or in reverse, answers with
    the address of the first candidate that passes its test, candidate
    [j] being the instruction [4 * j] bytes after the start address in a
    forward scan and [4 * j] bytes before it in a reverse scan: when the
    candidates [0 .. i] can be read, [i] is below the limit, the
    candidates before [i] fail the test and candidate [i] passes it, the
    scan returns the address of candidate [i] and leaves the stream one
    step past it in the direction of the scan. *)
Theorem scan_returns_first_match (sc : scanner) (h : DyldCacheHeader.t)
    (start_addr : Z) (rev : bool) (inst_limit : Z) (s : stream) (base : Z) (i : nat) :
  s_good s = true ->
  DyldCacheHeader.vm_addr_to_file_off h start_addr = Ok base ->
  scan_window base rev (Z.of_nat i) (Z.of_nat (length (s_data s))) = true ->
  Z.of_nat i < inst_limit ->
  (forall j : nat, (j < i)%nat ->
     scan_test sc (candidate_addr start_addr rev (Z.of_nat j))
       (u32_at (s_data s) (candidate_off base rev (Z.of_nat j))) = false) ->
  scan_test sc (candidate_addr start_addr rev (Z.of_nat i))
    (u32_at (s_data s) (candidate_off base rev (Z.of_nat i))) = true ->
  scan sc h start_addr rev inst_limit s =
    (Ok ((if rev then start_addr - 4 * Z.of_nat i else start_addr + 4 * Z.of_nat i)
         mod 2 ^ 64),
     {| s_data := s_data s;
        s_pos := (if rev then base - 4 * (Z.of_nat i + 1) else base + 4 * (Z.of_nat i + 1));
        s_good := true |}).
Proof.
  intros Hg Hoff Hw Hlim Hmiss Hhit.
  change ((if rev then start_addr - 4 * Z.of_nat i else start_addr + 4 * Z.of_nat i)
          mod 2 ^ 64) with (candidate_addr start_addr rev (Z.of_nat i)).
  change (if rev then base - 4 * (Z.of_nat i + 1) else base + 4 * (Z.of_nat i + 1))
    with (candidate_off base rev (Z.of_nat i + 1)).
  assert (forall j, Assembler.scan_addr start_addr rev j = candidate_addr start_addr rev j)
    as Haddr by (intros j; apply scan_addr_explicit).
  assert (0 <= base) as Hb.
  { unfold scan_window in Hw. destruct rev; apply andb_true_iff in Hw as [Ha _];
      apply Z.leb_le in Ha; lia. }
  rewrite (scan_start sc h start_addr rev inst_limit s base) by done.
  replace (Z.to_nat inst_limit) with (i + S (Z.to_nat inst_limit - i - 1))%nat by lia.
  rewrite scan_loop_skip.
  - unfold scan_window in Hw.
    rewrite scan_loop_step.
    + rewrite Z.add_0_l, Haddr, Hhit.
      replace (candidate_off (candidate_off base rev (Z.of_nat i)) rev 1)
        with (candidate_off base rev (Z.of_nat i + 1))
        by (unfold candidate_off; destruct rev; lia).
      reflexivity.
    + unfold candidate_off. destruct rev; apply andb_true_iff in Hw as [Ha Hc];
        apply Z.leb_le in Ha; apply Z.leb_le in Hc; lia.
    + unfold candidate_off. destruct rev; apply andb_true_iff in Hw as [Ha Hc];
        apply Z.leb_le in Ha; apply Z.leb_le in Hc; lia.
    + intros ->. unfold candidate_off. apply andb_true_iff in Hw as [Ha Hc].
      apply Z.leb_le in Ha. lia.
  - destruct i; [by left|right]. unfold scan_window in *.
    destruct rev; apply andb_true_iff in Hw as [Ha Hc];
      apply Z.leb_le in Ha; apply Z.leb_le in Hc;
      apply andb_true_iff; split; apply Z.leb_le; lia.
  - intros j Hj. rewrite Z.add_0_l, Haddr. by apply Hmiss.
Qed.

Lemma scan_returns_first_match_witness :
  scan (Scan_cbz true) example_bl_header 0 false 8 example_scan_stream =
    (Ok 8, {| s_data := s_data example_scan_stream; s_pos := 12; s_good := true |}) /\
  scan (Scan_cbz false) example_bl_header 12 true 8 example_scan_stream =
    (Ok 4, {| s_data := s_data example_scan_stream; s_pos := 0; s_good := true |}) /\
  scan (Scan_bl 16) example_bl_header 0 false 8 example_nop_bl_stream =
    (Ok 8, {| s_data := s_data example_nop_bl_stream; s_pos := 12; s_good := true |}).
Proof.
  split; [|split].
  - apply (scan_returns_first_match (Scan_cbz true) example_bl_header 0 false 8
             example_scan_stream 0 2).
    + reflexivity.
    + reflexivity.
    + reflexivity.
    + lia.
    + intros [|[|j]] Hj; [reflexivity|reflexivity|lia].
    + reflexivity.
  - apply (scan_returns_first_match (Scan_cbz false) example_bl_header 12 true 8
             example_scan_stream 12 2).
    + reflexivity.
    + reflexivity.
    + reflexivity.
    + lia.
    + intros [|[|j]] Hj; [reflexivity|reflexivity|lia].
    + reflexivity.
  - apply (scan_returns_first_match (Scan_bl 16) example_bl_header 0 false 8
             example_nop_bl_stream 0 2).
    + reflexivity.
    + reflexivity.
    + reflexivity.
    + lia.
    + intros [|[|j]] Hj; [reflexivity|reflexivity|lia].
    + reflexivity.
Defined.

(** X20: a forward scan that finds nothing ends in one of two ways.
    When as many candidates as the limit allows were read and none passed
    the test, it throws [std::out_of_range] with the text of the scan;
    when the file ends before the limit is reached, it throws the
    [std::runtime_error] of the failed read instead.  The file is not
    touched in either case. *)
Theorem scan_forward_without_match (sc : scanner) (h : DyldCacheHeader.t)
    (start_addr : Z) (inst_limit : Z) (s : stream) (base : Z) (k : nat) :
  s_good s = true ->
  DyldCacheHeader.vm_addr_to_file_off h start_addr = Ok base ->
  0 <= base ->
  base + 4 * Z.of_nat k <= Z.of_nat (length (s_data s)) ->
  (forall j : nat, (j < k)%nat ->
     scan_test sc (Assembler.scan_addr start_addr false (Z.of_nat j))
       (u32_at (s_data s) (candidate_off base false (Z.of_nat j))) = false) ->
  Z.of_nat k = inst_limit \/
  (Z.of_nat k < inst_limit /\ Z.of_nat (length (s_data s)) < base + 4 * (Z.of_nat k + 1)) ->
  exists s',
    scan sc h start_addr false inst_limit s =
      (Throw (if Z.of_nat k =? inst_limit
              then out_of_range (scan_miss sc)
              else runtime_error "failed to read bytes from stream; bad stream"), s') /\
    s_data s' = s_data s.
Proof.
  intros Hg Hoff Hb Hlen Hmiss Hend.
  rewrite (scan_start sc h start_addr false inst_limit s base) by done.
  assert (k = 0%nat \/
          scan_window base false (Z.of_nat k - 1) (Z.of_nat (length (s_data s))) = true) as Hw.
  { destruct k; [by left|right]. unfold scan_window.
    apply andb_true_iff; split; apply Z.leb_le; lia. }
  destruct Hend as [Hlim|[Hlim Heof]].
  - replace (Z.to_nat inst_limit) with (k + 0)%nat by lia.
    rewrite scan_loop_skip; [|done|intros j Hj; rewrite Z.add_0_l; by apply Hmiss].
    replace (Z.of_nat k =? inst_limit) with true by lia.
    eexists. split; reflexivity.
  - replace (Z.to_nat inst_limit) with (k + S (Z.to_nat inst_limit - k - 1))%nat by lia.
    rewrite scan_loop_skip; [|done|intros j Hj; rewrite Z.add_0_l; by apply Hmiss].
    replace (Z.of_nat k =? inst_limit) with false by lia.
    simpl scan_loop. rewrite bind_run. unfold read_u32_le. rewrite bind_run.
    unfold read_stream. simpl s_good. simpl negb. cbv iota. simpl s_data. simpl s_pos.
    unfold candidate_off.
    replace (Z.of_nat (length (bytes_at (s_data s) (base + 4 * Z.of_nat k) 4)) <? 4)
      with true.
    + eexists. split; reflexivity.
    + symmetry. apply Z.ltb_lt. unfold bytes_at.
      rewrite length_take, length_drop. lia.
Qed.

Lemma scan_forward_without_match_witness :
  exists s',
    scan (Scan_bl Assembler.find_bl_default_target) example_bl_header 0 false 8
      example_scan_stream =
      (Throw (if Z.of_nat 4 =? 8
              then out_of_range (scan_miss (Scan_bl Assembler.find_bl_default_target))
              else runtime_error "failed to read bytes from stream; bad stream"), s') /\
    s_data s' = s_data example_scan_stream.
Proof.
  apply (scan_forward_without_match (Scan_bl Assembler.find_bl_default_target)
           example_bl_header 0 8 example_scan_stream 0 4).
  - reflexivity.
  - reflexivity.
  - lia.
  - simpl. lia.
  - intros [|[|[|[|j]]]] Hj; [reflexivity|reflexivity|reflexivity|reflexivity|lia].
  - right. simpl. lia.
Defined.

(** X21: a reverse scan never answers with a candidate in the first four
    bytes of the file.  When its candidates before the one at a file
    offset below 4 fail the test, reading that candidate succeeds, but
    the step back over two instructions that follows seeks to a negative
    position: the scan throws [std::out_of_range] from the seek before
    the candidate is tested, whatever the candidate is. *)
Theorem scan_reverse_stops_before_file_start (sc : scanner) (h : DyldCacheHeader.t)
    (start_addr : Z) (inst_limit : Z) (s : stream) (base : Z) (k : nat) :
  s_good s = true ->
  DyldCacheHeader.vm_addr_to_file_off h start_addr = Ok base ->
  base + 4 <= Z.of_nat (length (s_data s)) ->
  0 <= base - 4 * Z.of_nat k < 4 ->
  Z.of_nat k < inst_limit ->
  (forall j : nat, (j < k)%nat ->
     scan_test sc (Assembler.scan_addr start_addr true (Z.of_nat j))
       (u32_at (s_data s) (candidate_off base true (Z.of_nat j))) = false) ->
  scan sc h start_addr true inst_limit s =
    (Throw (out_of_range "seek failed; out of range"),
     {| s_data := s_data s; s_pos := base - 4 * Z.of_nat k + 4; s_good := false |}).
Proof.
  intros Hg Hoff Hlen Hk Hlim Hmiss.
  rewrite (scan_start sc h start_addr true inst_limit s base) by (done || lia).
  replace (Z.to_nat inst_limit) with (k + S (Z.to_nat inst_limit - k - 1))%nat by lia.
  rewrite scan_loop_skip.
  - simpl scan_loop. unfold candidate_off.
    rewrite bind_run, read_u32_le_run by lia.
    rewrite bind_run. unfold seek_stream. simpl s_good. simpl negb. cbv iota.
    simpl s_pos. change (- (Assembler.INST_NUM_BYTES * 2)) with (-8).
    replace (base - 4 * Z.of_nat k + 4 + -8 <? 0) with true by lia.
    reflexivity.
  - destruct k; [by left|right]. unfold scan_window.
    apply andb_true_iff; split; apply Z.leb_le; lia.
  - intros j Hj. rewrite Z.add_0_l. by apply Hmiss.
Qed.

Lemma scan_reverse_stops_before_file_start_witness :
  scan_test (Scan_cbz false) (Assembler.scan_addr 4 true 1)
    (u32_at (s_data example_scan_stream) 0) = false /\
  scan_test (Scan_cbz false) (Assembler.scan_addr 4 true 0)
    (u32_at (s_data example_scan_stream) 4) = true /\
  scan (Scan_cbz true) example_bl_header 4 true 8 example_scan_stream =
    (Throw (out_of_range "seek failed; out of range"),
     {| s_data := s_data example_scan_stream; s_pos := 4 - 4 * Z.of_nat 1 + 4;
        s_good := false |}).
Proof.
  split; [reflexivity|]. split; [reflexivity|].
  apply (scan_reverse_stops_before_file_start (Scan_cbz true) example_bl_header 4 8
           example_scan_stream 4 1).
  - reflexivity.
  - reflexivity.
  - simpl. lia.
  - lia.
  - lia.
  - intros [|j] Hj; [reflexivity|lia].
Defined.

(** ** C strings read from a stream *)

Section CStrings.

Lemma read_byte_run c q b rest :
  0 <= q -> drop (Z.to_nat q) c = b :: rest ->
  read_stream 1 {| s_data := c; s_pos := q; s_good := true |} =
    (Ok [b], {| s_data := c; s_pos := q + 1; s_good := true |}) /\
  drop (Z.to_nat (q + 1)) c = rest.
Proof.
  intros Hq Hd. split.
  - unfold read_stream, bytes_at. simpl. rewrite Hd. reflexivity.
  - replace (Z.to_nat (q + 1)) with (Z.to_nat q + 1)%nat by lia.
    rewrite <- drop_drop, Hd. reflexivity.
Qed.

Lemma read_byte_eof c q :
  0 <= q -> drop (Z.to_nat q) c = [] ->
  read_stream 1 {| s_data := c; s_pos := q; s_good := true |} =
    (Throw (runtime_error "failed to read bytes from stream; bad stream"),
     {| s_data := c; s_pos := q; s_good := false |}).
Proof.
  intros Hq Hd. unfold read_stream, bytes_at. simpl. rewrite Hd. simpl.
  rewrite Z.add_0_r. reflexivity.
Qed.

Lemma read_cstr_loop_nul bs : forall c q acc,
  0 <= q -> drop (Z.to_nat q) c = bs -> has_nul bs = true ->
  read_cstr_loop bs acc {| s_data := c; s_pos := q; s_good := true |} =
    (Ok (acc ++ until_nul bs),
     {| s_data := c; s_pos := q + Z.of_nat (length (until_nul bs)) + 1; s_good := true |}).
Proof.
  induction bs as [|b bs IH]; intros c q acc Hq Hd Hn; [discriminate|].
  destruct (read_byte_run c q b bs Hq Hd) as [Hread Hd'].
  simpl read_cstr_loop. rewrite bind_run, Hread. simpl until_nul.
  destruct (Byte.eqb b x00) eqn:Hb.
  - rewrite ret_run, app_nil_r. simpl. rewrite Z.add_0_r. reflexivity.
  - simpl in Hn. rewrite Hb in Hn. simpl in Hn.
    rewrite (IH c (q + 1) (acc ++ [b])) by (done || lia).
    rewrite <- app_assoc. simpl app.
    replace (q + 1 + Z.of_nat (length (until_nul bs)) + 1)
      with (q + Z.of_nat (length (b :: until_nul bs)) + 1) by (simpl length; lia).
    reflexivity.
Qed.

Lemma read_cstr_loop_eof bs : forall c q acc,
  0 <= q -> drop (Z.to_nat q) c = bs -> has_nul bs = false ->
  read_cstr_loop bs acc {| s_data := c; s_pos := q; s_good := true |} =
    (Throw (runtime_error "failed to read bytes from stream; bad stream"),
     {| s_data := c; s_pos := q + Z.of_nat (length bs); s_good := false |}).
Proof.
  induction bs as [|b bs IH]; intros c q acc Hq Hd Hn.
  - simpl read_cstr_loop. rewrite bind_run, read_byte_eof by done.
    simpl. rewrite Z.add_0_r. reflexivity.
  - destruct (read_byte_run c q b bs Hq Hd) as [Hread Hd'].
    simpl in Hn. apply orb_false_iff in Hn as [Hb Hn].
    simpl read_cstr_loop. rewrite bind_run, Hread, Hb.
    rewrite (IH c (q + 1) (acc ++ [b])) by (done || lia).
    replace (q + 1 + Z.of_nat (length bs)) with (q + Z.of_nat (length (b :: bs)))
      by (simpl length; lia).
    reflexivity.
Qed.

Lemma read_cstrn_loop_run n : forall c q acc,
  0 <= q -> q + Z.of_nat n <= Z.of_nat (length c) ->
  read_cstrn_loop n acc {| s_data := c; s_pos := q; s_good := true |} =
    (Ok (acc ++ until_nul (take n (drop (Z.to_nat q) c))),
     {| s_data := c;
        s_pos := q + Z.of_nat (length (until_nul (take n (drop (Z.to_nat q) c))));
        s_good := true |}).
Proof.
  induction n as [|n IH]; intros c q acc Hq Hlen.
  - simpl. rewrite app_nil_r, Z.add_0_r. reflexivity.
  - destruct (drop (Z.to_nat q) c) as [|b rest] eqn:Hd.
    { apply (f_equal length) in Hd. rewrite length_drop in Hd. simpl in Hd. lia. }
    destruct (read_byte_run c q b rest Hq Hd) as [Hread Hd'].
    simpl read_cstrn_loop. rewrite bind_run, Hread. simpl take. simpl until_nul.
    destruct (Byte.eqb b x00) eqn:Hb.
    + rewrite bind_run. unfold seek_stream. simpl.
      replace (q + 1 + -1 <? 0) with false by lia.
      rewrite ret_run, app_nil_r. simpl length.
      replace (q + 1 + -1) with (q + Z.of_nat 0) by lia. reflexivity.
    + rewrite (IH c (q + 1) (acc ++ [b])) by lia.
      rewrite Hd', <- app_assoc. simpl app.
      replace (q + 1 + Z.of_nat (length (until_nul (take n rest))))
        with (q + Z.of_nat (length (b :: until_nul (take n rest))))
        by (simpl length; lia).
      reflexivity.
Qed.

End CStrings.

(** X22: [read_cstr] on a good stream returns the bytes from the stream
    position up to the first NUL and leaves the stream just after that
    NUL; when there is no NUL between the stream position and the end of
    the file it does not return what it read: it throws
    [std::runtime_error] and leaves the stream bad, at the end of the
    file. *)
Theorem read_cstr_stops_at_nul (c : list byte) (q : Z) :
  0 <= q ->
  let rest := drop (Z.to_nat q) c in
  read_cstr {| s_data := c; s_pos := q; s_good := true |} =
    if has_nul rest
    then (Ok (string_of_list_byte (until_nul rest)),
          {| s_data := c; s_pos := q + Z.of_nat (length (until_nul rest)) + 1;
             s_good := true |})
    else (Throw (runtime_error "failed to read bytes from stream; bad stream"),
          {| s_data := c; s_pos := q + Z.of_nat (length rest); s_good := false |}).
Proof.
  intros Hq rest. unfold read_cstr. simpl s_good. cbv iota. simpl s_pos. simpl s_data.
  fold rest. rewrite bind_run.
  destruct (has_nul rest) eqn:Hn.
  - rewrite (read_cstr_loop_nul rest c q []) by done. reflexivity.
  - rewrite (read_cstr_loop_eof rest c q []) by done. reflexivity.
Qed.

Lemma read_cstr_stops_at_nul_witness :
  read_cstr {| s_data := list_byte_of_string "ab" ++ [x00] ++ list_byte_of_string "cd";
               s_pos := 0; s_good := true |} =
    (Ok "ab"%string,
     {| s_data := list_byte_of_string "ab" ++ [x00] ++ list_byte_of_string "cd";
        s_pos := 3; s_good := true |}) /\
  read_cstr {| s_data := list_byte_of_string "ab" ++ [x00] ++ list_byte_of_string "cd";
               s_pos := 3; s_good := true |} =
    (Throw (runtime_error "failed to read bytes from stream; bad stream"),
     {| s_data := list_byte_of_string "ab" ++ [x00] ++ list_byte_of_string "cd";
        s_pos := 5; s_good := false |}).
Proof.
  split.
  - apply (read_cstr_stops_at_nul
             (list_byte_of_string "ab" ++ [x00] ++ list_byte_of_string "cd") 0). lia.
  - apply (read_cstr_stops_at_nul
             (list_byte_of_string "ab" ++ [x00] ++ list_byte_of_string "cd") 3). lia.
Defined.

(** X23: [read_cstrn] on a field of [n] bytes that lies inside the file
    returns the bytes of the field up to its first NUL, all [n] of them
    when it has none, and leaves the stream exactly [n] bytes further:
    at the end of the field, however long the string is. *)
Theorem read_cstrn_consumes_field (c : list byte) (q n : Z) :
  0 <= q -> 0 <= n -> q + n <= Z.of_nat (length c) ->
  read_cstrn n {| s_data := c; s_pos := q; s_good := true |} =
    (Ok (string_of_list_byte (until_nul (bytes_at c q n))),
     {| s_data := c; s_pos := q + n; s_good := true |}).
Proof.
  intros Hq Hn Hlen. unfold read_cstrn. rewrite bind_run. simpl s_good. cbv iota.
  rewrite read_cstrn_loop_run by lia. simpl app. fold (bytes_at c q n).
  assert (Z.of_nat (length (until_nul (bytes_at c q n))) <= n) as Hle.
  { assert (forall bs, (length (until_nul bs) <= length bs)%nat) as Hu.
    { induction bs as [|b bs IH]; simpl; [lia|]. destruct (Byte.eqb b x00); simpl; lia. }
    specialize (Hu (bytes_at c q n)). unfold bytes_at in Hu at 2.
    rewrite length_take in Hu. lia. }
  rewrite bind_run. unfold seek_stream. simpl s_good. simpl negb. cbv iota. simpl s_pos.
  simpl s_data.
  replace (q + Z.of_nat (length (until_nul (bytes_at c q n)))
           + (n - Z.of_nat (length (until_nul (bytes_at c q n))))) with (q + n) by lia.
  replace (q + n <? 0) with false by lia.
  reflexivity.
Qed.

Lemma read_cstrn_consumes_field_witness :
  read_cstrn 4 {| s_data := list_byte_of_string ".01" ++ replicate 5 x00;
                  s_pos := 0; s_good := true |} =
    (Ok ".01"%string,
     {| s_data := list_byte_of_string ".01" ++ replicate 5 x00;
        s_pos := 0 + 4; s_good := true |}).
Proof.
  apply (read_cstrn_consumes_field (list_byte_of_string ".01" ++ replicate 5 x00) 0 4).
  - lia.
  - lia.
  - simpl. lia.
Defined.

(** ** The command line and the patches *)

Section CommandLine.

Import PatcherCLI.

Lemma parse_params_inv params : forall cli0 cli (allowed : list string),
  parse_params params cli0 = Ok cli ->
  help cli0 = false ->
  revert_only cli0 && dry_run cli0 = false ->
  (path_empty (cache_path cli0) = false -> In (cache_path cli0) allowed) ->
  (forall p, In p params -> In p allowed) ->
  if help cli
  then exists p, In p params /\ (p = "-h"%string \/ p = "--help"%string)
  else path_empty (cache_path cli) = false /\ In (cache_path cli) allowed /\
       revert_only cli && dry_run cli = false.
Proof.
  induction params as [|param rest IH]; intros cli0 cli allowed H Hh Hx Hp Hin.
  - simpl in H. destruct (path_empty (cache_path cli0)) eqn:He; [discriminate|].
    injection H as <-. rewrite Hh. split; [done|]. split; [by apply Hp|done].
  - simpl in H.
    destruct (String.eqb_spec param "-h") as [->|Hnh]; simpl in H.
    { injection H as <-. simpl. exists "-h"%string. split; [by left|by left]. }
    destruct (String.eqb_spec param "--help") as [->|Hnhelp]; simpl in H.
    { injection H as <-. simpl. exists "--help"%string. split; [by left|by right]. }
    assert (forall cli1,
              parse_params rest cli1 = Ok cli -> help cli1 = false ->
              revert_only cli1 && dry_run cli1 = false ->
              (path_empty (cache_path cli1) = false -> In (cache_path cli1) allowed) ->
              if help cli
              then exists p, In p (param :: rest) /\ (p = "-h"%string \/ p = "--help"%string)
              else path_empty (cache_path cli) = false /\ In (cache_path cli) allowed /\
                   revert_only cli && dry_run cli = false) as Hnext.
    { intros cli1 H1 Hh1 Hx1 Hp1.
      specialize (IH cli1 cli allowed H1 Hh1 Hx1 Hp1 (fun p Hi => Hin p (or_intror Hi))).
      destruct (help cli); [|exact IH].
      destruct IH as (p & Hi & Hor). exists p. split; [by right|done]. }
    destruct (negb (revert_only cli0)
              && (String.eqb param "-r" || String.eqb param "--revert")) eqn:Hr.
    { unfold check_mutually_exclusive in H. simpl in H.
      destruct (dry_run cli0) eqn:Hd; [discriminate|].
      apply Hnext in H; [exact H|done|done|done]. }
    destruct (negb (dry_run cli0)
              && (String.eqb param "-n" || String.eqb param "--dry-run")) eqn:Hn.
    { unfold check_mutually_exclusive in H. simpl in H.
      destruct (revert_only cli0) eqn:Hd; [discriminate|].
      apply Hnext in H; [exact H|done|done|done]. }
    destruct (negb (unredact_logs cli0) && String.eqb param "--unredact-logs").
    { apply Hnext in H; [exact H|done|done|done]. }
    destruct (path_empty (cache_path cli0)) eqn:He; [|discriminate].
    apply Hnext in H; [exact H|done|done|].
    simpl. intros _. apply Hin. by left.
Qed.

End CommandLine.

(** X24: when the command line is accepted and help was not asked for,
    the cache path is set, it is one of the arguments after the program
    name, [--revert] and [--dry-run] are not both on, and there were one
    to four arguments; when the result has the help flag, one of the
    arguments was [-h] or [--help]. *)
Theorem cli_accepted_is_consistent (argv : list string) (cli : PatcherCLI.t) :
  PatcherCLI.new argv = Ok cli ->
  (2 <= length argv <= 5)%nat /\
  if PatcherCLI.help cli
  then exists p, In p (tl argv) /\ (p = "-h"%string \/ p = "--help"%string)
  else PatcherCLI.cache_path cli <> ""%string /\
       In (PatcherCLI.cache_path cli) (tl argv) /\
       (PatcherCLI.revert_only cli && PatcherCLI.dry_run cli = false).
Proof.
  unfold PatcherCLI.new. cbv zeta.
  destruct (Z.ltb_spec (Z.of_nat (length argv)) 2) as [?|Hlo]; [discriminate|].
  destruct (Z.ltb_spec 5 (Z.of_nat (length argv))) as [?|Hhi]; [discriminate|].
  intros H. split; [lia|].
  pose proof (parse_params_inv (tl argv) PatcherCLI.default cli (tl argv) H
                eq_refl eq_refl) as Hinv.
  simpl in Hinv. specialize (Hinv ltac:(discriminate) ltac:(done)).
  destruct (PatcherCLI.help cli); [exact Hinv|].
  destruct Hinv as (He & Hin & Hx). split; [|done].
  intros Heq. rewrite Heq in He. discriminate.
Qed.

Lemma cli_accepted_is_consistent_witness :
  PatcherCLI.new ["inferno_fs_patcher"; "-r"; "-r"]%string
    = Ok {| PatcherCLI.help := false; PatcherCLI.revert_only := true;
            PatcherCLI.dry_run := false; PatcherCLI.unredact_logs := false;
            PatcherCLI.cache_path := "-r" |} /\
  (2 <= length ["inferno_fs_patcher"; "-r"; "-r"]%string <= 5)%nat /\
  "-r"%string <> ""%string /\
  In "-r"%string (tl ["inferno_fs_patcher"; "-r"; "-r"]%string) /\
  (true && false = false).
Proof.
  split; [reflexivity|].
  apply (cli_accepted_is_consistent ["inferno_fs_patcher"; "-r"; "-r"]%string
           {| PatcherCLI.help := false; PatcherCLI.revert_only := true;
              PatcherCLI.dry_run := false; PatcherCLI.unredact_logs := false;
              PatcherCLI.cache_path := "-r" |}).
  reflexivity.
Defined.

Section Patches.

Lemma write_inst_ok p h target inst o pt :
  DyldCacheHeader.vm_addr_to_file_off h target = Ok o ->
  Assembler.write_inst p h target inst pt =
    (Ok tt, snd (Patcher_write p o (Assembler.u32_to_bytes inst) pt)).
Proof.
  intros Ho. unfold Assembler.write_inst. rewrite bind_run, Ho. reflexivity.
Qed.

(** The body shared by the patches that force a return value. *)
Lemma force_return_staged (image : Image.t) sym a o o4 pt :
  Image.symbols image !! sym = Some a ->
  DyldCacheHeader.vm_addr_to_file_off (Image.header image) a = Ok o ->
  DyldCacheHeader.vm_addr_to_file_off (Image.header image) (u64 (a + 4)) = Ok o4 ->
  (address <- Assembler.lift (Image.resolve_sym image sym []) ;;
   cursor <- Assembler.write_movz_incr (Image.path image) (Image.header image)
               address R0 false 1 MOVZShift_0 ;;
   Assembler.write_ret (Image.path image) (Image.header image) cursor) pt =
    (Ok tt,
     stage_from pt [(Image.path image, o, Assembler.u32_to_bytes 0x52800020);
                    (Image.path image, o4, Assembler.u32_to_bytes 0xD65F03C0)]).
Proof.
  intros Hs Ho Ho4. rewrite bind_run. unfold Image.resolve_sym. simpl. rewrite Hs.
  simpl Assembler.lift. rewrite ret_run, bind_run.
  unfold Assembler.write_movz_incr. rewrite bind_run.
  change (Assembler.make_movz R0 false 1 MOVZShift_0) with (@Ok Z 0x52800020).
  simpl Assembler.lift. rewrite ret_run.
  rewrite (write_inst_incr_ok _ _ _ _ o) by done.
  unfold Assembler.write_ret. rewrite (write_inst_ok _ _ _ _ o4) by done.
  reflexivity.
Qed.

Lemma force_return_missing (image : Image.t) sym pt :
  Image.symbols image !! sym = None ->
  (address <- Assembler.lift (Image.resolve_sym image sym []) ;;
   cursor <- Assembler.write_movz_incr (Image.path image) (Image.header image)
               address R0 false 1 MOVZShift_0 ;;
   Assembler.write_ret (Image.path image) (Image.header image) cursor) pt =
    (Throw (out_of_range "symbol not found"), pt).
Proof.
  intros Hs. rewrite bind_run. unfold Image.resolve_sym. simpl. rewrite Hs. reflexivity.
Qed.

(** [write_adrp_add_incr] when both instructions can be staged. *)
Lemma write_adrp_add_ok p h A T reg pt oA oA4 :
  0 <= A < 2 ^ 64 -> 0 <= T < 2 ^ 64 ->
  Z.abs (page_of T - page_of A) <= 0xFFFFF000 ->
  DyldCacheHeader.vm_addr_to_file_off h A = Ok oA ->
  DyldCacheHeader.vm_addr_to_file_off h (u64 (A + 4)) = Ok oA4 ->
  exists adrp add,
    Assembler.write_adrp_add_incr p h A T reg pt =
      (Ok (u64 (A + 8)),
       stage_from pt [(p, oA, Assembler.u32_to_bytes adrp);
                      (p, oA4, Assembler.u32_to_bytes add)]) /\
    le_to_Z (Assembler.u32_to_bytes adrp) = adrp /\
    le_to_Z (Assembler.u32_to_bytes add) = add /\
    is_adrp adrp = true /\ adrp_rd adrp = GPReg_val reg /\
    is_add_imm64 add = true /\
    add_imm_rd add = GPReg_val reg /\ add_imm_rn add = GPReg_val reg /\
    add_imm_exec add (adrp_exec adrp A) = T.
Proof.
  intros HA HT Hnear HoA HoA4.
  destruct (adrp_staged_first p h A T reg pt oA HA HT Hnear HoA)
    as (adrp & Hfirst & Hb & Hisa & Hrd & Hex).
  destruct (page_of_facts T HT) as (HpT & Ht & HT' & HTlow).
  destruct (make_add_decode (T mod 4096) reg HTlow)
    as (add & Hmk & Haddb & Hisadd & Hard & Harn & Hexec).
  exists adrp, add. split; [|repeat split; try done].
  - unfold Assembler.write_adrp_add_incr. cbv zeta in Hfirst |- *.
    rewrite bind_run, Hfirst.
    change 0xFFF with (Z.ones 12). rewrite Z.land_ones by lia. change (2 ^ 12) with 4096.
    assert (u16 (T mod 4096) = T mod 4096) as -> by (apply wrap_small; lia).
    rewrite bind_run, Hmk. simpl Assembler.lift. rewrite ret_run.
    rewrite (write_inst_incr_ok p h (u64 (A + 4)) add oA4) by done.
    assert (u64 (u64 (A + 4) + 4) = u64 (A + 8)) as ->.
    { unfold u64, wrap. rewrite Zplus_mod_idemp_l. f_equal. lia. }
    reflexivity.
  - by apply le_to_Z_u32_to_bytes.
  - by apply le_to_Z_u32_to_bytes.
  - rewrite Hex, Hexec. replace (page_of T + T mod 4096) with T by lia.
    apply u64_small. lia.
Qed.

End Patches.

(** X25: [SpringBoardFoundationPatches] and [LibSystemTracePatches] turn
    the function they name into [MOVZ W0, #1; RET]: when the symbol is
    known and its address and the address of the next instruction
    resolve, the two words are staged at those offsets of the image's
    file; when the symbol is not known the patch throws
    [std::out_of_range] and stages nothing. *)
Theorem force_true_patches_stage_movz_ret (image : Image.t) (pt : Patcher) (a o o4 : Z) :
  DyldCacheHeader.vm_addr_to_file_off (Image.header image) a = Ok o ->
  DyldCacheHeader.vm_addr_to_file_off (Image.header image) (u64 (a + 4)) = Ok o4 ->
  exists movz,
    let staged :=
      stage_from pt [(Image.path image, o, Assembler.u32_to_bytes movz);
                     (Image.path image, o4, Assembler.u32_to_bytes Assembler.make_ret)] in
    let sbf := "+[SBFCARenderer shouldUseXPCServiceForRendering]"%string in
    let trace := "__os_trace_is_development_build"%string in
    (Image.symbols image !! sbf = Some a ->
     SpringBoardFoundationPatches_apply image pt = (Ok tt, staged)) /\
    (Image.symbols image !! trace = Some a ->
     LibSystemTracePatches_apply image pt = (Ok tt, staged)) /\
    (Image.symbols image !! sbf = None ->
     SpringBoardFoundationPatches_apply image pt
       = (Throw (out_of_range "symbol not found"), pt)) /\
    (Image.symbols image !! trace = None ->
     LibSystemTracePatches_apply image pt = (Throw (out_of_range "symbol not found"), pt)) /\
    le_to_Z (Assembler.u32_to_bytes movz) = movz /\
    is_movz movz = true /\ movz_sf movz = 0 /\ movz_rd movz = 0 /\ movz_exec movz = 1 /\
    le_to_Z (Assembler.u32_to_bytes Assembler.make_ret) = Assembler.make_ret /\
    is_ret Assembler.make_ret = true.
Proof.
  intros Ho Ho4. exists 0x52800020. cbv zeta.
  split; [|split; [|split; [|split; [|by vm_compute]]]].
  - intros Hs. exact (force_return_staged image _ a o o4 pt Hs Ho Ho4).
  - intros Hs. exact (force_return_staged image _ a o o4 pt Hs Ho Ho4).
  - intros Hs. by apply force_return_missing.
  - intros Hs. by apply force_return_missing.
Qed.

Lemma force_true_patches_stage_movz_ret_witness :
  exists movz,
    SpringBoardFoundationPatches_apply example_sbf_image Patcher_new
      = (Ok tt, stage [("cache"%string, 0x40, Assembler.u32_to_bytes movz);
                       ("cache"%string, 0x44, Assembler.u32_to_bytes Assembler.make_ret)]) /\
    LibSystemTracePatches_apply example_sbf_image Patcher_new
      = (Throw (out_of_range "symbol not found"), Patcher_new) /\
    is_movz movz = true /\ movz_exec movz = 1.
Proof.
  destruct (force_true_patches_stage_movz_ret example_sbf_image Patcher_new 0x40 0x40 0x44)
    as (movz & H1 & _ & _ & H4 & _ & H6 & _ & _ & H9 & _).
  - reflexivity.
  - reflexivity.
  - exists movz. split; [apply H1; reflexivity|]. split; [apply H4; reflexivity|]. done.
Defined.

Section Neutrino.

Lemma stage_from_app pt l1 l2 :
  stage_from (stage_from pt l1) l2 = stage_from pt (l1 ++ l2).
Proof. unfold stage_from. by rewrite fold_left_app. Qed.

End Neutrino.

(** X26: [NeutrinoCorePatches] overwrites the start of the method it
    names with a call of [objc_alloc_init] on the class
    [NUSoftwareRenderer].  When the three names resolve, the five
    instruction addresses from the method's address on resolve in the
    image's header and both targets are within reach of ADRP, the patch
    stages five words at those offsets: ADRP and ADD on X0 that leave the
    address of the class in X0, ADRP and ADD on X1 that leave the address
    of [objc_alloc_init] in X1, and BLR X1. *)
Theorem neutrino_patch_calls_alloc_init (objc_image image : Image.t) (pt : Patcher)
    (init cls A o0 o1 o2 o3 o4 : Z) :
  Image.resolve_sym objc_image "_objc_alloc_init" [] = Ok init ->
  Image.resolve_objc_class image "NUSoftwareRenderer" = Ok cls ->
  Image.resolve_sym image "-[NUDevice_iOS _newRendererWithCIContextOptions:error:]"
    ["-[NUDevice_iOS _newRendererWithOptions:error:]"%string] = Ok A ->
  0 <= A -> A + 16 < 2 ^ 64 -> 0 <= init < 2 ^ 64 -> 0 <= cls < 2 ^ 64 ->
  Z.abs (page_of cls - page_of A) <= 0xFFFFF000 ->
  Z.abs (page_of init - page_of (A + 8)) <= 0xFFFFF000 ->
  DyldCacheHeader.vm_addr_to_file_off (Image.header image) A = Ok o0 ->
  DyldCacheHeader.vm_addr_to_file_off (Image.header image) (A + 4) = Ok o1 ->
  DyldCacheHeader.vm_addr_to_file_off (Image.header image) (A + 8) = Ok o2 ->
  DyldCacheHeader.vm_addr_to_file_off (Image.header image) (A + 12) = Ok o3 ->
  DyldCacheHeader.vm_addr_to_file_off (Image.header image) (A + 16) = Ok o4 ->
  exists adrp0 add0 adrp1 add1 blr,
    NeutrinoCorePatches_apply objc_image image pt =
      (Ok tt,
       stage_from pt [(Image.path image, o0, Assembler.u32_to_bytes adrp0);
                      (Image.path image, o1, Assembler.u32_to_bytes add0);
                      (Image.path image, o2, Assembler.u32_to_bytes adrp1);
                      (Image.path image, o3, Assembler.u32_to_bytes add1);
                      (Image.path image, o4, Assembler.u32_to_bytes blr)]) /\
    Forall (fun inst => le_to_Z (Assembler.u32_to_bytes inst) = inst)
      [adrp0; add0; adrp1; add1; blr] /\
    is_adrp adrp0 = true /\ adrp_rd adrp0 = 0 /\
    is_add_imm64 add0 = true /\ add_imm_rn add0 = 0 /\ add_imm_rd add0 = 0 /\
    add_imm_exec add0 (adrp_exec adrp0 A) = cls /\
    is_adrp adrp1 = true /\ adrp_rd adrp1 = 1 /\
    is_add_imm64 add1 = true /\ add_imm_rn add1 = 1 /\ add_imm_rd add1 = 1 /\
    add_imm_exec add1 (adrp_exec adrp1 (A + 8)) = init /\
    is_blr blr = true /\ blr_rn blr = 1.
Proof.
  intros Hinit Hcls HA HA0 HA1 Hi Hc Hn0 Hn1 Ho0 Ho1 Ho2 Ho3 Ho4.
  set (p := Image.path image) in *. set (h := Image.header image) in *.
  assert (u64 (A + 4) = A + 4) as E4 by (apply u64_small; lia).
  assert (u64 (A + 8) = A + 8) as E8 by (apply u64_small; lia).
  assert (u64 (A + 8 + 4) = A + 12) as E12
    by (replace (A + 8 + 4) with (A + 12) by lia; apply u64_small; lia).
  assert (u64 (A + 8 + 8) = A + 16) as E16
    by (replace (A + 8 + 8) with (A + 16) by lia; apply u64_small; lia).
  destruct (write_adrp_add_ok p h A cls R0 pt o0 o1) as
    (adrp0 & add0 & Hrun0 & Hle0 & Hle0' & Hisa0 & Hrd0 & Hadd0 & Hard0 & Harn0 & Hex0);
    [lia|lia|done|done|by rewrite E4|].
  destruct (write_adrp_add_ok p h (A + 8) init R1
              (stage_from pt [(p, o0, Assembler.u32_to_bytes adrp0);
                              (p, o1, Assembler.u32_to_bytes add0)]) o2 o3) as
    (adrp1 & add1 & Hrun1 & Hle1 & Hle1' & Hisa1 & Hrd1 & Hadd1 & Hard1 & Harn1 & Hex1);
    [lia|lia|done|done|by rewrite E12|].
  exists adrp0, add0, adrp1, add1, (Assembler.make_blr R1).
  split; [|split; [|repeat split; done]].
  - unfold NeutrinoCorePatches_apply. fold p h.
    rewrite bind_run, Hinit. simpl Assembler.lift. rewrite ret_run.
    rewrite bind_run, Hcls. simpl Assembler.lift. rewrite ret_run.
    rewrite bind_run, HA. simpl Assembler.lift. rewrite ret_run.
    rewrite bind_run, Hrun0. rewrite E8.
    rewrite bind_run, Hrun1. rewrite E16.
    unfold Assembler.write_blr. rewrite (write_inst_ok _ _ _ _ o4) by done.
    rewrite stage_from_app. reflexivity.
  - repeat constructor; done.
Qed.

Lemma neutrino_patch_calls_alloc_init_witness :
  exists adrp0 add0 adrp1 add1 blr,
    NeutrinoCorePatches_apply example_objc_image example_neutrino_image Patcher_new =
      (Ok tt,
       stage_from Patcher_new
         [("cache"%string, 0x200100, Assembler.u32_to_bytes adrp0);
          ("cache"%string, 0x200104, Assembler.u32_to_bytes add0);
          ("cache"%string, 0x200108, Assembler.u32_to_bytes adrp1);
          ("cache"%string, 0x20010C, Assembler.u32_to_bytes add1);
          ("cache"%string, 0x200110, Assembler.u32_to_bytes blr)]) /\
    Forall (fun inst => le_to_Z (Assembler.u32_to_bytes inst) = inst)
      [adrp0; add0; adrp1; add1; blr] /\
    is_adrp adrp0 = true /\ adrp_rd adrp0 = 0 /\
    is_add_imm64 add0 = true /\ add_imm_rn add0 = 0 /\ add_imm_rd add0 = 0 /\
    add_imm_exec add0 (adrp_exec adrp0 0x180200100) = 0x180345678 /\
    is_adrp adrp1 = true /\ adrp_rd adrp1 = 1 /\
    is_add_imm64 add1 = true /\ add_imm_rn add1 = 1 /\ add_imm_rd add1 = 1 /\
    add_imm_exec add1 (adrp_exec adrp1 (0x180200100 + 8)) = 0x180001234 /\
    is_blr blr = true /\ blr_rn blr = 1.
Proof.
  apply (neutrino_patch_calls_alloc_init example_objc_image example_neutrino_image
           Patcher_new 0x180001234 0x180345678 0x180200100
           0x200100 0x200104 0x200108 0x20010C 0x200110).
  - reflexivity.
  - reflexivity.
  - reflexivity.
  - lia.
  - lia.
  - lia.
  - lia.
  - vm_compute. discriminate.
  - vm_compute. discriminate.
  - reflexivity.
  - reflexivity.
  - reflexivity.
  - reflexivity.
  - reflexivity.
Defined.

(** ** The revert loop of [run] *)

Section RevertLoop.

Lemma reverting_step (fs : filesystem) q (fsk : filesystem) p :
  Forall (path_ok fs) q -> no_sidecar_staged q ->
  reverting fs q fsk ->
  fs !! orig_bytes_path p = None ->
  (forall p', p' ∈ staged_paths q -> p' <> orig_bytes_path p) ->
  exists fs' : filesystem,
    Patcher_revert p fsk = (Ok tt, fs') /\ reverting fs q fs' /\
    fs' !! orig_bytes_path p = None /\
    (forall p0, fsk !! orig_bytes_path p0 = None -> fs' !! orig_bytes_path p0 = None).
Proof.
  intros Hok Hns [Hother Hstaged] Hnone Hnot.
  destruct (decide (p ∈ staged_paths q)) as [Hin|Hout].
  - apply list_elem_of_fmap in Hin as ([p1 es] & Heq & Hin). simpl in Heq. subst p1.
    rewrite Forall_forall in Hok.
    destruct (Hok _ Hin) as (c & Hc & Hlen & Hb & Hd). simpl in Hc, Hb, Hd.
    assert (p ∈ staged_paths q) as Hp by (apply list_elem_of_fmap; by exists (p, es)).
    destruct (Hstaged p es c Hin Hc) as [[Hfile Hside]|[Hfile Hside]].
    + exists (delete (orig_bytes_path p) (<[p := c]> fsk)).
      split; [|split; [split|split]].
      * rewrite (revert_ok fsk p (patched c es) (displaced c es) Hfile Hside).
        -- by rewrite replay_displaced.
        -- rewrite length_patched by done. done.
        -- rewrite length_patched by done. by apply displaced_in_bounds.
      * intros k Hk. destruct (Hk p Hp) as [Hk1 Hk2].
        rewrite lookup_delete_ne by done. rewrite lookup_insert_ne by done.
        by apply Hother.
      * intros p' es' c' Hin' Hc'.
        assert (p' ∈ staged_paths q) as Hp'
          by (apply list_elem_of_fmap; by exists (p', es')).
        destruct (decide (p' = p)) as [->|Hne].
        -- right. rewrite Hc in Hc'. injection Hc' as <-. split.
           ++ rewrite lookup_delete_ne by apply orig_bytes_path_ne.
              apply lookup_insert_eq.
           ++ apply lookup_delete_eq.
        -- assert (fsk !! p' = delete (orig_bytes_path p) (<[p := c]> fsk) !! p') as <-.
           { rewrite lookup_delete_ne by (intros Heq; by apply (Hns p p')).
             by rewrite lookup_insert_ne. }
           assert (fsk !! orig_bytes_path p'
                   = delete (orig_bytes_path p) (<[p := c]> fsk) !! orig_bytes_path p')
             as <-.
           { rewrite lookup_delete_ne
               by (intros Heq; apply Hne; symmetry; by apply orig_bytes_path_inj).
             rewrite lookup_insert_ne; [done|]. intros Heq. by apply (Hns p' p). }
           by apply Hstaged.
      * apply lookup_delete_eq.
      * intros p0 H0. destruct (decide (orig_bytes_path p0 = orig_bytes_path p)) as [->|Hne].
        -- apply lookup_delete_eq.
        -- rewrite lookup_delete_ne by done.
           rewrite lookup_insert_ne; [done|]. intros Heq. rewrite <- Heq in H0.
           rewrite Hfile in H0. discriminate.
    + exists fsk. split; [by apply no_revert_without_sidecar|]. by repeat split.
  - assert (fsk !! orig_bytes_path p = None) as Hside.
    { rewrite Hother; [done|]. intros p' Hp'. split.
      - intros Heq. by apply (Hnot p').
      - intros Heq. apply Hout. apply orig_bytes_path_inj in Heq. by subst. }
    exists fsk. split; [by apply no_revert_without_sidecar|]. by repeat split.
Qed.

Lemma reverting_all (fs : filesystem) q paths : forall fsk : filesystem,
  Forall (path_ok fs) q -> no_sidecar_staged q ->
  reverting fs q fsk ->
  (forall p, p ∈ paths -> fs !! orig_bytes_path p = None) ->
  (forall p p', p ∈ paths -> p' ∈ staged_paths q -> p' <> orig_bytes_path p) ->
  exists fs2 : filesystem,
    revert_all paths fsk = (Ok tt, fs2) /\ reverting fs q fs2 /\
    (forall p, p ∈ paths -> fs2 !! orig_bytes_path p = None) /\
    (forall p0, fsk !! orig_bytes_path p0 = None -> fs2 !! orig_bytes_path p0 = None).
Proof.
  induction paths as [|p paths IH]; intros fsk Hok Hns Hrev Hnone Hnot.
  - exists fsk. split; [reflexivity|]. split; [done|]. split; [|done].
    intros p Hp. by apply elem_of_nil in Hp.
  - destruct (reverting_step fs q fsk p Hok Hns Hrev) as (fs' & Hrun & Hrev' & Hp & Hmono).
    { apply Hnone. by left. }
    { intros p' Hp'. apply (Hnot p p'); [by left|done]. }
    destruct (IH fs' Hok Hns Hrev') as (fs2 & Hrun2 & Hrev2 & Hall & Hmono2).
    { intros p0 Hp0. apply Hnone. by right. }
    { intros p0 p' Hp0 Hp'. apply (Hnot p0 p'); [by right|done]. }
    exists fs2. split; [|split; [done|split]].
    + simpl. rewrite bind_run, Hrun. exact Hrun2.
    + intros p0 Hp0. apply elem_of_cons in Hp0 as [->|Hp0].
      * by apply Hmono2.
      * by apply Hall.
    + intros p0 H0. by apply Hmono2, Hmono.
Qed.

End RevertLoop.

(** X27: the revert loop that [run] starts with undoes a whole commit.
    For a file system in which none of the listed paths has a sidecar and
    none is the sidecar of another, and a sequence of writes whose queue
    is committable and whose files are all among the listed paths, the
    commit followed by the revert of the listed paths, in their order and
    with repetitions if any, gives back exactly the file system the
    commit started from: every file has its old content and no sidecar is
    left. *)
Theorem revert_loop_undoes_commit (writes : list (string * Z * list byte))
    (fs : filesystem) (paths : list string) :
  committable fs (write_queue (stage writes)) = true ->
  (forall p, In p (staged_paths (write_queue (stage writes))) -> In p paths) ->
  (forall p, In p paths -> fs !! orig_bytes_path p = None) ->
  (forall p p', In p paths -> In p' paths -> p' <> orig_bytes_path p) ->
  exists fs1 : filesystem,
    Patcher_flush (stage writes) fs = (Ok tt, fs1) /\
    revert_all paths fs1 = (Ok tt, fs).
Proof.
  intros Hc Hsub Hnone Hdist.
  apply committable_spec in Hc as [Hok Hns].
  set (q := write_queue (stage writes)) in *.
  destruct (flush_queue_ok q fs (stage_NoDup writes) Hok Hns) as (fs1 & Hrun & Hother & Hstaged).
  exists fs1. split; [exact Hrun|].
  destruct (reverting_all fs q paths fs1 Hok Hns) as (fs2 & Hrun2 & [Ho2 Hs2] & Hall & _).
  - split; [exact Hother|]. intros p es c Hin Hcp. left. by apply Hstaged.
  - intros p Hp. apply Hnone. by apply list_elem_of_In.
  - intros p p' Hp Hp'. apply Hdist; [by apply list_elem_of_In|].
    apply Hsub. by apply list_elem_of_In.
  - rewrite Hrun2. f_equal. apply map_eq. intros k.
    destruct (decide (k ∈ staged_paths q)) as [Hk|Hk].
    + pose proof Hk as Hk'.
      apply list_elem_of_fmap in Hk' as ([p1 es] & Heq & Hin). simpl in Heq. subst p1.
      rewrite Forall_forall in Hok.
      destruct (Hok _ Hin) as (c & Hc & _). simpl in Hc.
      assert (fs2 !! orig_bytes_path k = None) as Hside.
      { apply Hall. apply list_elem_of_In, Hsub. by apply list_elem_of_In. }
      destruct (Hs2 k es c Hin Hc) as [[_ Hbad]|[Hfile _]].
      * rewrite Hside in Hbad. discriminate.
      * by rewrite Hfile, Hc.
    + destruct (decide (k ∈ map orig_bytes_path (staged_paths q))) as [Hside|Hnot].
      * apply list_elem_of_fmap in Hside as (p & -> & Hp).
        rewrite Hall by (apply list_elem_of_In, Hsub; by apply list_elem_of_In).
        symmetry. apply Hnone, Hsub. by apply list_elem_of_In.
      * apply Ho2. intros p Hp. split.
        -- intros ->. done.
        -- intros ->. apply Hnot. apply list_elem_of_fmap. by exists p.
Qed.

Lemma revert_loop_undoes_commit_witness :
  exists fs1 : filesystem,
    Patcher_flush (stage [("C"%string, 0, [xa0; xa1]); ("C"%string, 4, [xb0; xb1])])
      {[ "C"%string := file_0_to_7; "C.01"%string := file_0_to_7 ]} = (Ok tt, fs1) /\
    revert_all ["C"; "C.01"; "C"]%string fs1
      = (Ok tt, {[ "C"%string := file_0_to_7; "C.01"%string := file_0_to_7 ]}).
Proof.
  apply (revert_loop_undoes_commit
           [("C"%string, 0, [xa0; xa1]); ("C"%string, 4, [xb0; xb1])]
           {[ "C"%string := file_0_to_7; "C.01"%string := file_0_to_7 ]}
           ["C"; "C.01"; "C"]%string).
  - vm_compute. reflexivity.
  - intros p [<-|[]]. simpl. auto.
  - intros p [<-|[<-|[<-|[]]]]; vm_compute; reflexivity.
  - intros p p' [<-|[<-|[<-|[]]]] [<-|[<-|[<-|[]]]]; vm_compute; discriminate.
Defined.

(** ** Images and their symbols *)

Section FindImage.

Tactic Notation "run" hyp(H) "as" ident(a) ident(s') ident(E) :=
  rewrite bind_run in H;
  lazymatch type of H with
  | (match ?m ?s with _ => _ end) = _ =>
      destruct (m s) as [[a | ?] s'] eqn:E; [|discriminate H]
  end.








(** A Mach-O header can only be read where the file has the magic. *)
Lemma MachHeader_read_magic (fs : filesystem) p off image_header :
  fst ((seek_stream off ios_beg ;;; MachHeader.read) (CacheAnalyser.ifstream_open fs p))
    = Ok image_header ->
  exists content, fs !! p = Some content /\ u32_at content off = MH_MAGIC_64 /\
                  MachHeader.magic image_header = MH_MAGIC_64.
Proof.
  unfold CacheAnalyser.ifstream_open. destruct (fs !! p) as [content|]; [|discriminate].
  destruct ((seek_stream off ios_beg ;;; MachHeader.read) (open_stream content))
    as [r s'] eqn:H.
  simpl. intros ->. exists content. split; [done|].
  run H as u s1 E1. destruct u.
  apply seek_beg_state in E1; [|done]. subst s1.
  unfold MachHeader.read in H.
  run H as mg s2 E2. apply read_u32_le_at in E2 as (Hmg & Hd2 & Hg2); [|done].
  simpl in Hmg. run H as ct s3 E3.
  destruct (Z.eqb_spec mg MH_MAGIC_64) as [Heq|Hne]; [|discriminate].
  cbn [negb] in H.
  run H as u1 s4 E4. run H as ncmds s5 E5. run H as u2 s6 E6. run H as st s7 E7.
  injection H as <- _. simpl. split; congruence.
Qed.

Lemma find_image_stages a fs image_match with_objc_classes img :
  find_image a fs image_match with_objc_classes = Ok img ->
  exists image image_header linkedit own,
    List.find (fun image => matches image_match (DyldCacheHeader.path image))
      (DyldCacheHeader.images (snd (CacheAnalyser.main_cache a))) = Some image /\
    Image.vm_addr img = DyldCacheHeader.image_base image /\
    CacheAnalyser.find_entry_from_vm_addr a (DyldCacheHeader.image_base image)
      = Ok (Image.file_off img, (Image.path img, Image.header img)) /\
    fst ((seek_stream (Image.file_off img) ios_beg ;;; MachHeader.read)
           (CacheAnalyser.ifstream_open fs (Image.path img))) = Ok image_header /\
    MachHeader.find_segment image_header "__LINKEDIT" = Ok linkedit /\
    find_image_symtab a fs image_header
      (u64 (Segment.vm_addr linkedit - Segment.file_off linkedit)) = Ok own /\
    find_image_local_symbols a fs (DyldCacheHeader.image_base image) own
      = Ok (Image.symbols img) /\
    (with_objc_classes = false -> Image.objc_classes img = ∅).
Proof.
  unfold find_image. cbv zeta.
  destruct (List.find _ _) as [image|]; [|discriminate].
  destruct (CacheAnalyser.find_entry_from_vm_addr a (DyldCacheHeader.image_base image))
    as [[image_off [p h]]|e] eqn:Hfound; [|discriminate].
  simpl rbind. simpl fst. simpl snd.
  destruct (fst ((seek_stream image_off ios_beg ;;; MachHeader.read)
                   (CacheAnalyser.ifstream_open fs p))) as [image_header|e] eqn:Hh;
    [|discriminate].
  simpl rbind.
  destruct (MachHeader.find_segment image_header "__LINKEDIT") as [linkedit|e] eqn:Hl;
    [|discriminate].
  simpl rbind.
  destruct (find_image_symtab a fs image_header _) as [own|e] eqn:Hown; [|discriminate].
  simpl rbind.
  destruct (find_image_local_symbols a fs _ own) as [symbols|e] eqn:Hloc; [|discriminate].
  simpl rbind.
  destruct with_objc_classes.
  - destruct (find_image_objc_classes a fs image_header _) as [classes|e]; [|discriminate].
    simpl rbind. intros [= <-]. simpl.
    exists image, image_header, linkedit, own. repeat split; try done.
  - simpl rbind. intros [= <-]. simpl.
    exists image, image_header, linkedit, own. repeat split; done.
Qed.

End FindImage.

(** X28: [find_image] takes the first image of the Main header whose path
    the matcher accepts, and throws [std::out_of_range] when there is
    none.  The image it returns has the base address of that image, and
    its file, header and file offset are those of the first member of the
    tree that resolves the base address; that file exists and has the
    Mach-O magic [0xFEEDFACF] at that offset; and without the request for
    Objective-C classes the image has none. *)
Theorem find_image_locates_image (a : CacheAnalyser.t) (fs : filesystem)
    (image_match : IImageMatch) (with_objc_classes : bool) :
  let found :=
    List.find (fun image => matches image_match (DyldCacheHeader.path image))
      (DyldCacheHeader.images (snd (CacheAnalyser.main_cache a))) in
  (found = None ->
   find_image a fs image_match with_objc_classes = Throw (out_of_range "image not found")) /\
  (forall img, find_image a fs image_match with_objc_classes = Ok img ->
     exists image content,
       found = Some image /\
       Image.vm_addr img = DyldCacheHeader.image_base image /\
       CacheAnalyser.find_entry_from_vm_addr a (DyldCacheHeader.image_base image)
         = Ok (Image.file_off img, (Image.path img, Image.header img)) /\
       fs !! Image.path img = Some content /\
       u32_at content (Image.file_off img) = MH_MAGIC_64 /\
       (with_objc_classes = false -> Image.objc_classes img = ∅)).
Proof.
  cbv zeta. split.
  - intros Hnone. unfold find_image. cbv zeta. by rewrite Hnone.
  - intros img H.
    destruct (find_image_stages _ _ _ _ _ H)
      as (image & image_header & linkedit & own & Hf & Hva & He & Hh & _ & _ & _ & Hobjc).
    destruct (MachHeader_read_magic _ _ _ _ Hh) as (content & Hc & Hmagic & _).
    exists image, content. repeat split; done.
Qed.

Lemma find_image_locates_image_witness :
  find_image example_image_analyser example_image_fs
    (ImageMatch "/usr/lib/libobjc.A.dylib") false = Ok example_found_image /\
  exists image content,
    List.find (fun image => matches (ImageMatch "/usr/lib/libobjc.A.dylib")
                              (DyldCacheHeader.path image))
      (DyldCacheHeader.images (snd (CacheAnalyser.main_cache example_image_analyser)))
      = Some image /\
    Image.vm_addr example_found_image = DyldCacheHeader.image_base image /\
    CacheAnalyser.find_entry_from_vm_addr example_image_analyser
      (DyldCacheHeader.image_base image)
      = Ok (Image.file_off example_found_image,
            (Image.path example_found_image, Image.header example_found_image)) /\
    example_image_fs !! Image.path example_found_image = Some content /\
    u32_at content (Image.file_off example_found_image) = MH_MAGIC_64 /\
    (false = false -> Image.objc_classes example_found_image = ∅).
Proof.
  split; [vm_compute; reflexivity|].
  apply (proj2 (find_image_locates_image example_image_analyser example_image_fs
                  (ImageMatch "/usr/lib/libobjc.A.dylib") false) example_found_image).
  vm_compute. reflexivity.
Defined.



(** X30: [resolve_sym] answers with the address of the first of the
    given names that the image has a symbol for, trying them in the order
    given; it throws [std::out_of_range] exactly when the image has none
    of them. *)
Theorem resolve_sym_first_known_variant (img : Image.t) (variant : string)
    (variants : list string) :
  match Image.resolve_sym img variant variants with
  | Ok addr =>
      exists before name after,
        variant :: variants = before ++ name :: after /\
        Image.symbols img !! name = Some addr /\
        Forall (fun n => Image.symbols img !! n = None) before
  | Throw e =>
      e = out_of_range "symbol not found" /\
      Forall (fun n => Image.symbols img !! n = None) (variant :: variants)
  end.
Proof.
  unfold Image.resolve_sym.
  generalize (variant :: variants) as names. intros names.
  induction names as [|n names IH]; simpl.
  - split; [reflexivity|constructor].
  - destruct (Image.symbols img !! n) as [addr|] eqn:Hn.
    + exists [], n, names. split; [reflexivity|]. split; [done|constructor].
    + destruct (Image.resolve_variants (Image.symbols img) names) as [addr|].
      * destruct IH as (before & name & after & -> & Hl & Hall).
        exists (n :: before), name, after. split; [reflexivity|]. split; [done|].
        by constructor.
      * destruct IH as [_ Hall]. split; [reflexivity|]. by constructor.
Qed.
